(** * Feature-flag service: evaluation engine, validators, service,
      repository and cache, embedded from the TypeScript sources.

    Layout: the definitions come first, one part per source module
    (domain types, evaluator, validators, cache, repository, service);
    the lemmas and theorems follow. *)

From stdpp Require Import gmap list strings sorting pretty.

Set Default Proof Using "Type".
Set Warnings "-register-all".

(* ================================================================== *)
(** * Part I. Definitions *)
(* ================================================================== *)

(** ** JavaScript strings and values *)

(** A JavaScript string is a sequence of UTF-16 code units; [length] counts
    code units, as [String.prototype.length] does. *)
Abbreviation JsString := (list N).

(** [js "abc"] is the JavaScript string with the code units of an ASCII
    literal. *)
Definition js (s : string) : JsString :=
  Ascii.N_of_ascii <$> String.list_ascii_of_string s.

(** Truthiness of a string: only the empty string is falsy. *)
Definition truthy_string (s : JsString) : bool :=
  match s with [] => false | _ :: _ => true end.

(** ** Domain types (domain/types.ts) *)

Inductive OverrideType := user | group | region.

Record FeatureOverrides := {
  users : gmap JsString bool;
  groups : gmap JsString bool;
  regions : option (gmap JsString bool)   (* regions?: Map *)
}.

(** A [Date], by its time value: milliseconds since the epoch. *)
Definition Date := Z.

Record FeatureFlag := {
  key : JsString;
  description : option JsString;
  enabled : bool;
  overrides : FeatureOverrides;
  createdAt : option Date;
  updatedAt : option Date
}.

Record EvaluationContext := {
  userId : option JsString;
  groupId : option JsString;
  regionId : option JsString
}.

Inductive Reason :=
  user_override | group_override | region_override | global_default.

Record EvaluationResult := {
  res_key : JsString;
  res_enabled : bool;
  reason : Reason
}.

#[global] Instance OverrideType_eq_dec : EqDecision OverrideType.
Proof. solve_decision. Defined.
#[global] Instance Reason_eq_dec : EqDecision Reason.
Proof. solve_decision. Defined.
#[global] Instance EvaluationResult_eq_dec : EqDecision EvaluationResult.
Proof. solve_decision. Defined.

(** ** The evaluation engine (domain/feature-evaluator.ts) *)

(** One guard of [evaluate]: [id && map?.has(id)], and on success the value
    [map.get(id)!].  The identifier is tested for truthiness, so [undefined]
    and the empty string both fail the guard; an absent map ([regions?.])
    fails it too. *)
Definition override_for (id : option JsString)
    (map : option (gmap JsString bool)) : option bool :=
  match id, map with
  | Some s, Some m => if truthy_string s then m !! s else None
  | _, _ => None
  end.

Definition evaluate (flag : FeatureFlag) (context : EvaluationContext)
    : EvaluationResult :=
  (* 1. user-specific override *)
  match override_for (userId context) (Some (users (overrides flag))) with
  | Some b => {| res_key := key flag; res_enabled := b; reason := user_override |}
  | None =>
  (* 2. group-specific override *)
  match override_for (groupId context) (Some (groups (overrides flag))) with
  | Some b => {| res_key := key flag; res_enabled := b; reason := group_override |}
  | None =>
  (* 3. region-specific override *)
  match override_for (regionId context) (regions (overrides flag)) with
  | Some b => {| res_key := key flag; res_enabled := b; reason := region_override |}
  | None =>
  (* 4. global default *)
  {| res_key := key flag; res_enabled := enabled flag; reason := global_default |}
  end end end.

Definition evaluateMultiple (flags : list FeatureFlag)
    (context : EvaluationContext) : list EvaluationResult :=
  map (fun flag => evaluate flag context) flags.

(** *** The tiers, as the specification names them *)

(** The identifier a context carries for a tier, the override mapping a
    flag stores for it (an absent [regions] mapping holds no entry), and
    the reason the tier reports. *)
Definition context_id (t : OverrideType) (c : EvaluationContext)
    : option JsString :=
  match t with
  | user => userId c | group => groupId c | region => regionId c
  end.

Definition mapping (t : OverrideType) (f : FeatureFlag) : gmap JsString bool :=
  match t with
  | user => users (overrides f)
  | group => groups (overrides f)
  | region => default ∅ (regions (overrides f))
  end.

Definition tier_reason (t : OverrideType) : Reason :=
  match t with
  | user => user_override | group => group_override | region => region_override
  end.

(** Precedence rank: a smaller rank is a higher precedence. *)
Definition rank (t : OverrideType) : nat :=
  match t with user => 0 | group => 1 | region => 2 end.

(** The specification's matching condition: the identifier is present in
    the context and is a key of the tier's mapping. *)
Definition spec_matches (t : OverrideType) (f : FeatureFlag)
    (c : EvaluationContext) : Prop :=
  ∃ id, context_id t c = Some id ∧ is_Some (mapping t f !! id).

(** The same, for an identifier that is moreover a non-empty string. *)
Definition matches (t : OverrideType) (f : FeatureFlag)
    (c : EvaluationContext) : Prop :=
  ∃ id, context_id t c = Some id ∧ id ≠ [] ∧ is_Some (mapping t f !! id).

(** A context whose supplied identifiers are all non-empty strings. *)
Definition nonempty_ids (c : EvaluationContext) : Prop :=
  ∀ t, context_id t c ≠ Some [].

(** The specification's four-step algorithm, written from its words:
    "present" is "not undefined". *)
Definition spec_evaluate (f : FeatureFlag) (c : EvaluationContext)
    : EvaluationResult :=
  match userId c ≫= (users (overrides f) !!.) with
  | Some b => {| res_key := key f; res_enabled := b; reason := user_override |}
  | None =>
  match groupId c ≫= (groups (overrides f) !!.) with
  | Some b => {| res_key := key f; res_enabled := b; reason := group_override |}
  | None =>
  match regionId c ≫= (default ∅ (regions (overrides f)) !!.) with
  | Some b => {| res_key := key f; res_enabled := b; reason := region_override |}
  | None =>
  {| res_key := key f; res_enabled := enabled f; reason := global_default |}
  end end end.

(** The context with the identifier of one tier replaced. *)
Definition set_context_id (t : OverrideType) (id : option JsString)
    (c : EvaluationContext) : EvaluationContext :=
  match t with
  | user => {| userId := id; groupId := groupId c; regionId := regionId c |}
  | group => {| userId := userId c; groupId := id; regionId := regionId c |}
  | region => {| userId := userId c; groupId := groupId c; regionId := id |}
  end.

(** What one tier contributes to [evaluate]: its guard and stored value. *)
Definition tier_lookup (t : OverrideType) (f : FeatureFlag)
    (c : EvaluationContext) : option bool :=
  override_for (context_id t c) (Some (mapping t f)).

Definition result (f : FeatureFlag) (b : bool) (r : Reason) : EvaluationResult :=
  {| res_key := key f; res_enabled := b; reason := r |}.

(** *** The properties of section 8, as predicates

    Each is stated over the notion of "tier [t] matches" it is read with, so
    that the specification's reading ([spec_matches]) and the engine's
    ([matches]) can be compared. *)

(** Precedence totality: the result is that of the highest-precedence
    matching tier, or the global default when no tier matches. *)
Definition precedence_totality
    (matching : OverrideType → FeatureFlag → EvaluationContext → Prop) : Prop :=
  ∀ f c,
    (∃ t id b,
        context_id t c = Some id ∧ mapping t f !! id = Some b ∧
        matching t f c ∧
        (∀ t', rank t' < rank t → ¬ matching t' f c) ∧
        evaluate f c = result f b (tier_reason t))
    ∨ ((∀ t, ¬ matching t f c) ∧
       evaluate f c = result f (enabled f) global_default).

(** Absence versus false at tier [t], for an identifier the context
    supplies and that satisfies [admissible], when evaluation [reaches] the
    tier: an entry with value [false] gives the tier's reason and [false];
    no entry gives what the context without this identifier gives, decided
    below the tier. *)
Definition absence_vs_false (admissible : JsString → Prop)
    (reaches : OverrideType → FeatureFlag → EvaluationContext → Prop) : Prop :=
  ∀ f c t id,
    context_id t c = Some id → admissible id → reaches t f c →
    (mapping t f !! id = Some false →
       evaluate f c = result f false (tier_reason t)) ∧
    (mapping t f !! id = None →
       evaluate f c = evaluate f (set_context_id t None c) ∧
       ∀ t', rank t' ≤ rank t → reason (evaluate f c) ≠ tier_reason t') ∧
    (∀ f', reaches t f' c →
       mapping t f !! id = Some false → mapping t f' !! id = None →
       evaluate f c ≠ evaluate f' c).

(** No tier above [t] matches. *)
Definition none_above (t : OverrideType) (f : FeatureFlag)
    (c : EvaluationContext) : Prop :=
  ∀ t', rank t' < rank t → ¬ matches t' f c.

(** ** Runtime values *)

(** The values a request can carry into the service ([req.params],
    [req.body]): what the validators inspect with [typeof] and truthiness.
    Numbers are the integers that a number holds exactly and prints in
    decimal (magnitude below 2^53); every validator rejects a number by
    its [typeof] test, whatever its value. *)
Inductive JsValue :=
| JsUndefined
| JsNull
| JsBoolean (b : bool)
| JsNumber (n : Z)
| JsStr (s : JsString)
| JsObject (fields : list (JsString * JsValue)).

Inductive JsType := ty_undefined | ty_object | ty_boolean | ty_number | ty_string.

#[global] Instance JsType_eq_dec : EqDecision JsType.
Proof. solve_decision. Defined.

Definition typeof (v : JsValue) : JsType :=
  match v with
  | JsUndefined => ty_undefined
  | JsNull => ty_object
  | JsBoolean _ => ty_boolean
  | JsNumber _ => ty_number
  | JsStr _ => ty_string
  | JsObject _ => ty_object
  end.

Definition truthy (v : JsValue) : bool :=
  match v with
  | JsUndefined | JsNull => false
  | JsBoolean b => b
  | JsNumber n => negb (n =? 0)%Z
  | JsStr s => truthy_string s
  | JsObject _ => true
  end.

(** Property read [v.name]: [undefined] when the property is missing. *)
Fixpoint lookup_field (name : JsString) (fields : list (JsString * JsValue))
    : JsValue :=
  match fields with
  | [] => JsUndefined
  | (n, v) :: rest => if decide (n = name) then v else lookup_field name rest
  end.

Definition get_field (v : JsValue) (name : JsString) : JsValue :=
  match v with
  | JsObject fields => lookup_field name fields
  | _ => JsUndefined
  end.

(** A value read at the static type its parameter declares.  On a value
    that passed the matching validator the cast is the identity. *)
Definition as_string (v : JsValue) : JsString :=
  match v with JsStr s => s | _ => [] end.

Definition as_boolean (v : JsValue) : bool :=
  match v with JsBoolean b => b | _ => false end.

Definition as_optional_string (v : JsValue) : option JsString :=
  match v with JsStr s => Some s | _ => None end.

(** The request body read as an [EvaluationContext].  A field that is not a
    string can equal no key of a [Map<string, boolean>], so the engine treats
    it as it treats an absent one. *)
Definition as_context (v : JsValue) : EvaluationContext :=
  {| userId := as_optional_string (get_field v (js "userId"));
     groupId := as_optional_string (get_field v (js "groupId"));
     regionId := as_optional_string (get_field v (js "regionId")) |}.

(** [String.prototype.trim]: white space and line terminators are removed at
    both ends. *)
Definition is_whitespace (c : N) : bool :=
  bool_decide (c ∈ [9; 10; 11; 12; 13; 32; 160; 5760; 8232; 8233; 8239; 8287;
                    12288; 65279]%N)
  || ((8192 <=? c) && (c <=? 8202))%N.

Fixpoint trimStart (s : JsString) : JsString :=
  match s with
  | [] => []
  | c :: rest => if is_whitespace c then trimStart rest else s
  end.

Definition trimEnd (s : JsString) : JsString := rev (trimStart (rev s)).

Definition trim (s : JsString) : JsString := trimEnd (trimStart s).

(** ** Errors (domain/errors.ts) and outcomes *)

(** Everything the code throws.  [LibraryError] is a plain [Error] raised by
    a driver (MongoDB, redis), with its message and optional numeric
    [code]. *)
Inductive Exception :=
| FeatureNotFoundError (key : JsString)
| DuplicateFeatureError (key : JsString)
| InvalidOverrideError (message : string)
| ValidationError (message : JsString)
| DatabaseError (message : string) (originalError : Exception)
| LibraryError (message : string) (code : option Z).

(** [error.code]: only a driver's error carries one. *)
Definition error_code (e : Exception) : option Z :=
  match e with LibraryError _ c => c | _ => None end.

Inductive Outcome (A : Type) :=
| Returned (a : A)
| Thrown (e : Exception).
Arguments Returned {A} a.
Arguments Thrown {A} e.

(** A computation over a state [Σ]: it returns or throws, and the state it
    leaves is kept in both cases (a JavaScript exception rolls nothing
    back). *)
Definition M (Σ A : Type) : Type := Σ → Outcome A * Σ.

Definition ret {Σ A} (a : A) : M Σ A := λ σ, (Returned a, σ).

Definition throw {Σ A} (e : Exception) : M Σ A := λ σ, (Thrown e, σ).

Definition bind {Σ A B} (m : M Σ A) (k : A → M Σ B) : M Σ B :=
  λ σ, match m σ with
       | (Returned a, σ') => k a σ'
       | (Thrown e, σ') => (Thrown e, σ')
       end.

(** [try { m } catch (error) { h error }] *)
Definition try_catch {Σ A} (m : M Σ A) (h : Exception → M Σ A) : M Σ A :=
  λ σ, match m σ with
       | (Returned a, σ') => (Returned a, σ')
       | (Thrown e, σ') => h e σ'
       end.

(** A pure check (a validator) run inside a computation. *)
Definition lift {Σ A} (o : Outcome A) : M Σ A := λ σ, (o, σ).

#[global] Instance M_ret {Σ} : MRet (M Σ) := λ A, ret.
#[global] Instance M_bind {Σ} : MBind (M Σ) := λ A B k m, bind m k.

(** Sequencing of pure checks. *)
Definition and_then {A B} (o : Outcome A) (k : A → Outcome B) : Outcome B :=
  match o with Returned a => k a | Thrown e => Thrown e end.

#[global] Instance Outcome_ret : MRet Outcome := λ A, Returned.
#[global] Instance Outcome_bind : MBind Outcome := λ A B k o, and_then o k.

(** [`${v}`], the [ToString] of a template literal.  An object is printed
    through [toString]: [Object.prototype.toString] gives [[object Object]],
    unless the object has an own property of that name, which hides it.  In
    a value that came as JSON an own property is never a function, so the
    conversion then finds no method that gives a primitive and throws a
    [TypeError]. *)
Definition cannot_convert : Exception :=
  LibraryError "Cannot convert object to primitive value" None.

Definition ToString (v : JsValue) : Outcome JsString :=
  match v with
  | JsUndefined => Returned (js "undefined")
  | JsNull => Returned (js "null")
  | JsBoolean b => Returned (js (if b then "true" else "false"))
  | JsNumber n => Returned (js (pretty n))
  | JsStr s => Returned s
  | JsObject fields =>
      if bool_decide (js "toString" ∈ fields.*1) then Thrown cannot_convert
      else Returned (js "[object Object]")
  end.

(** ** Validators (domain/validators.ts) *)

Module Validators.

(** [/^[a-zA-Z0-9_-]+$/.test(key)]: one or more code units, each in the
    class.  Without the [m] flag [$] matches at the end of the input only. *)
Definition keyPattern_class (c : N) : bool :=
  ((97 <=? c) && (c <=? 122) || (65 <=? c) && (c <=? 90)
   || (48 <=? c) && (c <=? 57) || (c =? 95) || (c =? 45))%N.

Definition keyPattern_test (s : JsString) : bool :=
  match s with
  | [] => false
  | _ :: _ => forallb keyPattern_class s
  end.

Definition validateFeatureKey (key : JsValue) : Outcome unit :=
  match key with
  | JsStr s =>
      if negb (truthy_string s) then
        Thrown (ValidationError (js "Feature key is required and must be a string"))
      else if (length (trim s) =? 0)%nat then
        Thrown (ValidationError (js "Feature key cannot be empty"))
      else if negb (keyPattern_test s) then
        Thrown (ValidationError (js "Feature key must contain only alphanumeric characters, hyphens, and underscores"))
      else if (100 <? length s)%nat then
        Thrown (ValidationError (js "Feature key must not exceed 100 characters"))
      else Returned ()
  | _ => (* !key || typeof key !== "string" *)
      Thrown (ValidationError (js "Feature key is required and must be a string"))
  end.

Definition validateDescription (description : JsValue) : Outcome unit :=
  match description with
  | JsUndefined => Returned ()
  | JsStr s =>
      if truthy_string s && (500 <? length s)%nat then
        Thrown (ValidationError (js "Description must not exceed 500 characters"))
      else Returned ()
  | _ => Thrown (ValidationError (js "Description must be a string"))
  end.

Definition validateEnabledState (enabled : JsValue) : Outcome unit :=
  match typeof enabled with
  | ty_boolean => Returned ()
  | _ => Thrown (ValidationError (js "Enabled state must be a boolean value"))
  end.

Definition validTypes : list (JsString * OverrideType) :=
  [(js "user", user); (js "group", group); (js "region", region)].

(** [Array.prototype.join] *)
Fixpoint join (separator : JsString) (items : list JsString) : JsString :=
  match items with
  | [] => []
  | [item] => item
  | item :: rest => item ++ separator ++ join separator rest
  end.

(** The [throw] of [validateOverrideType].  The message quotes the rejected
    value, so building it can itself throw: [ToString] of an object that
    cannot be printed is a [TypeError], and that is what leaves the
    validator. *)
Definition invalid_override_type (type : JsValue) : Outcome OverrideType :=
  quoted ← ToString type;
  Thrown (ValidationError
    (js "Invalid override type '" ++ quoted ++ js "'. Must be one of: "
     ++ join (js ", ") validTypes.*1)).

(** Declared [asserts type is OverrideType]: on success the value is known
    to be one of [validTypes], and is returned at that type. *)
Definition validateOverrideType (type : JsValue) : Outcome OverrideType :=
  match type with
  | JsStr s =>
      match find (λ p, bool_decide (p.1 = s)) validTypes with
      | Some p => Returned p.2
      | None => invalid_override_type type
      end
  | _ => invalid_override_type type
  end.

Definition validateOverrideId (id : JsValue) : Outcome unit :=
  match id with
  | JsStr s =>
      if negb (truthy_string s) then
        Thrown (ValidationError (js "Override ID is required and must be a string"))
      else if (length (trim s) =? 0)%nat then
        Thrown (ValidationError (js "Override ID cannot be empty"))
      else if (100 <? length s)%nat then
        Thrown (ValidationError (js "Override ID must not exceed 100 characters"))
      else Returned ()
  | _ => Thrown (ValidationError (js "Override ID is required and must be a string"))
  end.

(** [if (field !== undefined) validateOverrideId(field)] *)
Definition validate_if_defined (field : JsValue) : Outcome unit :=
  match field with
  | JsUndefined => Returned ()
  | _ => validateOverrideId field
  end.

Definition validateEvaluationContext (context : JsValue) : Outcome unit :=
  if negb (truthy context) || negb (bool_decide (typeof context = ty_object)) then
    Thrown (ValidationError (js "Evaluation context must be an object"))
  else if negb (truthy (get_field context (js "userId")))
          && negb (truthy (get_field context (js "groupId")))
          && negb (truthy (get_field context (js "regionId"))) then
    Thrown (ValidationError (js "Evaluation context must include at least one of: userId, groupId, regionId"))
  else
    validate_if_defined (get_field context (js "userId"));;
    validate_if_defined (get_field context (js "groupId"));;
    validate_if_defined (get_field context (js "regionId")).

Definition validateCreateFeatureRequest (data : JsValue) : Outcome unit :=
  if negb (truthy data) || negb (bool_decide (typeof data = ty_object)) then
    Thrown (ValidationError (js "Invalid request body"))
  else
    validateFeatureKey (get_field data (js "key"));;
    validateDescription (get_field data (js "description"));;
    validateEnabledState (get_field data (js "enabled")).

End Validators.

(** *** The key pattern of the data model

    The specification's pattern [[A-Za-z0-9_-]{1,100}], from its words: one
    to a hundred characters, each an ASCII letter, a digit, an underscore or
    a hyphen. *)
Definition ascii_letter (c : N) : Prop :=
  (65 ≤ c ≤ 90)%N ∨ (97 ≤ c ≤ 122)%N.

Definition ascii_digit (c : N) : Prop := (48 ≤ c ≤ 57)%N.

Definition key_character (c : N) : Prop :=
  ascii_letter c ∨ ascii_digit c ∨ c = 95%N ∨ c = 45%N.

Definition matches_key_pattern (s : JsString) : Prop :=
  Forall key_character s ∧ 1 ≤ length s ≤ 100.

(** ** The redis cache (cache/redis-cache.ts) *)

(** The redis client, an external collaborator: a connection state [C] and
    the three commands the cache issues.  Each command returns or rejects
    with an [Error]; nothing else is assumed of it. *)
Class RedisClient (C : Type) := {
  client_get : JsString → M C (option JsString);
  client_setEx : JsString → Z → JsString → M C unit;
  client_del : JsString → M C unit
}.

Module RedisCache.
Section WithClient.
Context `{RedisClient C}.
(** [parseInt(process.env.CACHE_TTL_SECONDS || "300", 10)] *)
Context (env_ttl : Z).

Record t := {
  client : option C;
  isConnected : bool;
  isEnabled : bool
}.

(** A command sent to [this.client]; on a [null] client the call itself is
    a [TypeError]. *)
Definition on_client {A} (command : M C A) : M t A := λ σ,
  match client σ with
  | Some c =>
      let '(r, c') := command c in
      (r, {| client := Some c'; isConnected := isConnected σ;
             isEnabled := isEnabled σ |})
  | None => (Thrown (LibraryError "TypeError" None), σ)
  end.

(** [!this.isEnabled || !this.client || !this.isConnected] *)
Definition unavailable (σ : t) : bool :=
  negb (isEnabled σ) || negb (bool_decide (is_Some (client σ)))
  || negb (isConnected σ).

Definition get (key : JsString) : M t (option JsString) := λ σ,
  if unavailable σ then (Returned None, σ)
  else
    try_catch
      (value ← on_client (client_get key); mret value)
      (λ error, mret None)   (* graceful degradation *)
      σ.

Definition set (key value : JsString) (ttlSeconds : option Z) : M t unit :=
  λ σ,
  if unavailable σ then (Returned (), σ)
  else
    try_catch
      (let ttl := match ttlSeconds with
                  | Some n => if (n =? 0)%Z then env_ttl else n
                  | None => env_ttl
                  end in
       on_client (client_setEx key ttl value))
      (λ error, mret ())
      σ.

Definition delete (key : JsString) : M t unit := λ σ,
  if unavailable σ then (Returned (), σ)
  else
    try_catch (on_client (client_del key)) (λ error, mret ()) σ.

Definition isAvailable (σ : t) : bool :=
  isEnabled σ && isConnected σ && bool_decide (is_Some (client σ)).

End WithClient.
Arguments t : clear implicits.
End RedisCache.

(** The cache after a command that left the client in state [c']: the
    flags are as they were. *)
Definition answered_by {C} (σ : RedisCache.t C) (c' : C) : RedisCache.t C :=
  {| RedisCache.client := Some c';
     RedisCache.isConnected := RedisCache.isConnected σ;
     RedisCache.isEnabled := RedisCache.isEnabled σ |}.

(** ** The flag store *)

(** *** The MongoDB collection (database/schemas/feature-flag.schema.ts)

    The collection behind [FeatureFlagModel], an external collaborator.  The
    unique index on [key] makes it a finite map from keys to documents.  The
    model covers the calls the repository makes.  A document has the shape of
    a [FeatureFlag].  The schema has [timestamps: true]: a saved document is
    given [createdAt] and [updatedAt], and every update sets [updatedAt];
    the times come from a clock the model knows nothing about.  The schema's
    [trim] setter runs on the [key] of a saved document and on the [key] of
    a query filter alike.

    An update path [overrides.<type>s.<id>] is read as the entry [id] of the
    map: this is what the path means when [id] is one segment of it (see
    [path_segment] below).  An empty [id], or a dot or a dollar sign in
    it, makes the path address something else or be refused, which the
    model does not follow; the properties that depend on the entry written
    are stated for identifiers of one segment. *)
Module MongoDB.

Record Collection := {
  documents : gmap JsString FeatureFlag;
  fault : option Exception;   (* the driver is failing: every query rejects *)
  clock : nat → Date;         (* the time at which the n-th write is made *)
  writes : nat                (* the writes made so far *)
}.

(** [new Date()] at the next write. *)
Definition now (db : Collection) : Date := clock db (writes db).

(** The collection after one more write. *)
Definition written (docs : gmap JsString FeatureFlag) (db : Collection)
    : Collection :=
  {| documents := docs; fault := fault db; clock := clock db;
     writes := S (writes db) |}.

Inductive Update :=
| SetEnabled (enabled : bool)                              (* $set: { enabled } *)
| SetOverride (type : OverrideType) (id : JsString) (enabled : bool)
| UnsetOverride (type : OverrideType) (id : JsString).

Definition set_entry (type : OverrideType) (id : JsString) (b : bool)
    (o : FeatureOverrides) : FeatureOverrides :=
  match type with
  | user => {| users := <[id := b]> (users o); groups := groups o;
               regions := regions o |}
  | group => {| users := users o; groups := <[id := b]> (groups o);
                regions := regions o |}
  | region => {| users := users o; groups := groups o;
                 regions := Some (<[id := b]> (default ∅ (regions o))) |}
  end.

Definition unset_entry (type : OverrideType) (id : JsString)
    (o : FeatureOverrides) : FeatureOverrides :=
  match type with
  | user => {| users := delete id (users o); groups := groups o;
               regions := regions o |}
  | group => {| users := users o; groups := delete id (groups o);
                regions := regions o |}
  | region => {| users := users o; groups := groups o;
                 regions := delete id <$> regions o |}
  end.

(** What the operators of an update do to the fields they name. *)
Definition apply_update (u : Update) (doc : FeatureFlag) : FeatureFlag :=
  match u with
  | SetEnabled b =>
      {| key := key doc; description := description doc; enabled := b;
         overrides := overrides doc;
         createdAt := createdAt doc; updatedAt := updatedAt doc |}
  | SetOverride type id b =>
      {| key := key doc; description := description doc;
         enabled := enabled doc;
         overrides := set_entry type id b (overrides doc);
         createdAt := createdAt doc; updatedAt := updatedAt doc |}
  | UnsetOverride type id =>
      {| key := key doc; description := description doc;
         enabled := enabled doc;
         overrides := unset_entry type id (overrides doc);
         createdAt := createdAt doc; updatedAt := updatedAt doc |}
  end.

(** The timestamps: an update sets [updatedAt]; an insert sets both. *)
Definition touched (t : Date) (doc : FeatureFlag) : FeatureFlag :=
  {| key := key doc; description := description doc; enabled := enabled doc;
     overrides := overrides doc;
     createdAt := createdAt doc; updatedAt := Some t |}.

Definition inserted (t : Date) (doc : FeatureFlag) : FeatureFlag :=
  {| key := key doc; description := description doc; enabled := enabled doc;
     overrides := overrides doc;
     createdAt := Some t; updatedAt := Some t |}.

(** A query: rejected while the driver is failing. *)
Definition exec {A} (query : Collection → A * Collection)
    : M Collection A := λ db,
  match fault db with
  | Some e => (Thrown e, db)
  | None => let '(a, db') := query db in (Returned a, db')
  end.

(** The schema's rules for a document: [key] is trimmed when it is set;
    [key] and [description] are required (for a string: present and not
    empty) and bounded in length. *)
Definition cast (doc : FeatureFlag) : FeatureFlag :=
  {| key := trim (key doc); description := description doc;
     enabled := enabled doc; overrides := overrides doc;
     createdAt := createdAt doc; updatedAt := updatedAt doc |}.

Definition schema_valid (doc : FeatureFlag) : bool :=
  truthy_string (key doc) && (length (key doc) <=? 100)%nat
  && match description doc with
     | Some d => truthy_string d && (length d <=? 500)%nat
     | None => false
     end.

(** [new FeatureFlagModel(doc).save()]: the document is validated against
    the schema, then inserted with its timestamps; the unique index rejects
    a second document with the same key (error code 11000). *)
Definition save (doc : FeatureFlag) : M Collection FeatureFlag := λ db,
  let doc := cast doc in
  if negb (schema_valid doc) then
    (Thrown (LibraryError "FeatureFlag validation failed" None), db)
  else
    match fault db with
    | Some e => (Thrown e, db)
    | None =>
        match documents db !! key doc with
        | Some _ =>
            (Thrown (LibraryError "E11000 duplicate key error" (Some 11000%Z)), db)
        | None =>
            let saved := inserted (now db) doc in
            (Returned saved, written (<[key doc := saved]> (documents db)) db)
        end
    end.

(** [findOne({ key })]; the filter's key goes through the schema's setter,
    as in the queries below. *)
Definition findOne (k : JsString) : M Collection (option FeatureFlag) :=
  exec (λ db, (documents db !! trim k, db)).

(** Keys in ascending order, by binary comparison.  The comparison is
    written on the code units, which is the order of the encoded strings for
    keys of ASCII characters (all that [validateFeatureKey] admits). *)
Fixpoint key_le (a b : JsString) : bool :=
  match a, b with
  | [], _ => true
  | _ :: _, [] => false
  | x :: a', y :: b' => (x <? y)%N || ((x =? y)%N && key_le a' b')
  end.

(** [find().sort({ key: 1 })] *)
Definition find_sorted : M Collection (list FeatureFlag) :=
  exec (λ db,
    (merge_sort (λ d1 d2, key_le (key d1) (key d2))
       (snd <$> map_to_list (documents db)),
     db)).

(** [updateOne({ key }, update)], returning [matchedCount]. *)
Definition updateOne (k : JsString) (u : Update) : M Collection nat :=
  exec (λ db,
    match documents db !! trim k with
    | Some doc =>
        (1, written (<[trim k := touched (now db) (apply_update u doc)]>
                       (documents db)) db)
    | None => (0, db)
    end).

(** [deleteOne({ key })], returning [deletedCount]. *)
Definition deleteOne (k : JsString) : M Collection nat :=
  exec (λ db,
    match documents db !! trim k with
    | Some _ => (1, written (delete (trim k) (documents db)) db)
    | None => (0, db)
    end).

End MongoDB.

(** *** The repository interface (repositories/feature.repository.ts) *)

Class IFeatureRepository (R : Type) := {
  repo_create : FeatureFlag → M R FeatureFlag;
  repo_findByKey : JsString → M R (option FeatureFlag);
  repo_findAll : M R (list FeatureFlag);
  repo_updateGlobalState : JsString → bool → M R unit;
  repo_addOrUpdateOverride : JsString → OverrideType → JsString → bool → M R unit;
  repo_removeOverride : JsString → OverrideType → JsString → M R unit;
  repo_delete : JsString → M R unit
}.

(** *** The MongoDB repository *)
Module FeatureRepository.
Import MongoDB.

Definition toDomain (doc : FeatureFlag) : FeatureFlag :=
  {| key := key doc;
     description := description doc;
     enabled := enabled doc;
     overrides :=
       {| users := users (overrides doc);
          groups := groups (overrides doc);
          regions := Some (default ∅ (regions (overrides doc))) |};
     createdAt := createdAt doc;
     updatedAt := updatedAt doc |}.

(** [if (error instanceof FeatureNotFoundError) throw error;
     throw new DatabaseError(message, error)] *)
Definition rethrow {A} (message : string) (error : Exception)
    : M Collection A :=
  match error with
  | FeatureNotFoundError _ => throw error
  | _ => throw (DatabaseError message error)
  end.

Definition create (feature : FeatureFlag) : M Collection FeatureFlag :=
  try_catch
    (saved ← save
       {| key := key feature;
          description := description feature;
          enabled := enabled feature;
          overrides :=
            {| users := users (overrides feature);
               groups := groups (overrides feature);
               regions := Some (default ∅ (regions (overrides feature))) |};
          createdAt := None;
          updatedAt := None |};
     mret (toDomain saved))
    (λ error,
       if decide (error_code error = Some 11000%Z)
       then throw (DuplicateFeatureError (key feature))
       else throw (DatabaseError "Failed to create feature flag" error)).

Definition findByKey (k : JsString) : M Collection (option FeatureFlag) :=
  try_catch
    (doc ← findOne k;
     mret (toDomain <$> doc))
    (λ error, throw (DatabaseError "Failed to find feature flag" error)).

Definition findAll : M Collection (list FeatureFlag) :=
  try_catch
    (docs ← find_sorted;
     mret (map toDomain docs))
    (λ error, throw (DatabaseError "Failed to retrieve feature flags" error)).

Definition updateGlobalState (k : JsString) (enabled : bool)
    : M Collection unit :=
  try_catch
    (matchedCount ← updateOne k (SetEnabled enabled);
     if (matchedCount =? 0)%nat then throw (FeatureNotFoundError k)
     else mret ())
    (rethrow "Failed to update feature state").

Definition addOrUpdateOverride (k : JsString) (type : OverrideType)
    (id : JsString) (enabled : bool) : M Collection unit :=
  try_catch
    (matchedCount ← updateOne k (SetOverride type id enabled);
     if (matchedCount =? 0)%nat then throw (FeatureNotFoundError k)
     else mret ())
    (rethrow "Failed to add override").

Definition removeOverride (k : JsString) (type : OverrideType)
    (id : JsString) : M Collection unit :=
  try_catch
    (matchedCount ← updateOne k (UnsetOverride type id);
     if (matchedCount =? 0)%nat then throw (FeatureNotFoundError k)
     else mret ())
    (rethrow "Failed to remove override").

Definition delete (k : JsString) : M Collection unit :=
  try_catch
    (deletedCount ← deleteOne k;
     if (deletedCount =? 0)%nat then throw (FeatureNotFoundError k)
     else mret ())
    (rethrow "Failed to delete feature flag").

#[global] Instance repository : IFeatureRepository Collection := {
  repo_create := create;
  repo_findByKey := findByKey;
  repo_findAll := findAll;
  repo_updateGlobalState := updateGlobalState;
  repo_addOrUpdateOverride := addOrUpdateOverride;
  repo_removeOverride := removeOverride;
  repo_delete := delete
}.

End FeatureRepository.

(** *** The MongoDB repository with the redis cache in front

    The second version of the repository: the same queries, a cache-aside
    read in [findByKey] and an invalidation after each mutation. *)

(** [JSON.stringify] of the cacheable record and [JSON.parse] followed by
    the restoration of the three maps; parsing a malformed entry throws. *)
Class JSON := {
  JSON_stringify : FeatureFlag → JsString;
  JSON_parse : JsString → Outcome FeatureFlag
}.

Module CachedFeatureRepository.
Import MongoDB.
Section WithCache.
Context `{RedisClient C} `{JSON}.
Context (env_ttl : Z).

Record Store := { db : Collection; cache : RedisCache.t C }.

Definition CACHE_KEY_PREFIX : JsString := js "feature:".

Definition model {A} (query : M Collection A) : M Store A := λ σ,
  let '(r, d) := query (db σ) in (r, {| db := d; cache := cache σ |}).

Definition this_cache {A} (op : M (RedisCache.t C) A) : M Store A := λ σ,
  let '(r, c) := op (cache σ) in (r, {| db := db σ; cache := c |}).

Definition rethrow {A} (message : string) (error : Exception) : M Store A :=
  match error with
  | FeatureNotFoundError _ => throw error
  | _ => throw (DatabaseError message error)
  end.

Definition create (feature : FeatureFlag) : M Store FeatureFlag :=
  try_catch
    (saved ← model (save
       {| key := key feature;
          description := description feature;
          enabled := enabled feature;
          overrides :=
            {| users := users (overrides feature);
               groups := groups (overrides feature);
               regions := Some (default ∅ (regions (overrides feature))) |};
          createdAt := None;
          updatedAt := None |});
     mret (FeatureRepository.toDomain saved))
    (λ error,
       if decide (error_code error = Some 11000%Z)
       then throw (DuplicateFeatureError (key feature))
       else throw (DatabaseError "Failed to create feature flag" error)).

Definition findByKey (k : JsString) : M Store (option FeatureFlag) :=
  try_catch
    (let cacheKey := (CACHE_KEY_PREFIX ++ k) in
     cached ← this_cache (RedisCache.get cacheKey);
     match cached with
     | Some (c :: text) =>
         (* cache hit *)
         feature ← lift (JSON_parse (c :: text));
         mret (Some feature)
     | _ =>
         (* cache miss *)
         doc ← model (findOne k);
         let feature := FeatureRepository.toDomain <$> doc in
         match feature with
         | Some f =>
             this_cache (RedisCache.set env_ttl cacheKey (JSON_stringify f) None);;
             mret feature
         | None => mret feature
         end
     end)
    (λ error, throw (DatabaseError "Failed to find feature flag" error)).

(** An [await] gives the process to other requests.  [findByKey] awaits
    the cache, then the query, then the write to the cache; [meanwhile] is
    what other calls of the repository, run to completion in between, have
    done to the store at an [await]. *)
Definition meanwhile (others : Store → Store) : M Store unit :=
  λ σ, (Returned (), others σ).

(** [findByKey], with the other requests that run before its query
    ([before_query]) and before its write to the cache ([before_fill]). *)
Definition findByKey_awaiting (before_query before_fill : Store → Store)
    (k : JsString) : M Store (option FeatureFlag) :=
  try_catch
    (let cacheKey := (CACHE_KEY_PREFIX ++ k) in
     cached ← this_cache (RedisCache.get cacheKey);
     match cached with
     | Some (c :: text) =>
         feature ← lift (JSON_parse (c :: text));
         mret (Some feature)
     | _ =>
         meanwhile before_query;;
         doc ← model (findOne k);
         let feature := FeatureRepository.toDomain <$> doc in
         match feature with
         | Some f =>
             meanwhile before_fill;;
             this_cache (RedisCache.set env_ttl cacheKey (JSON_stringify f) None);;
             mret feature
         | None => mret feature
         end
     end)
    (λ error, throw (DatabaseError "Failed to find feature flag" error)).

Definition findAll : M Store (list FeatureFlag) :=
  try_catch
    (docs ← model find_sorted;
     mret (map FeatureRepository.toDomain docs))
    (λ error, throw (DatabaseError "Failed to retrieve feature flags" error)).

Definition updateGlobalState (k : JsString) (enabled : bool) : M Store unit :=
  try_catch
    (matchedCount ← model (updateOne k (SetEnabled enabled));
     if (matchedCount =? 0)%nat then throw (FeatureNotFoundError k)
     else this_cache (RedisCache.delete (CACHE_KEY_PREFIX ++ k)))
    (rethrow "Failed to update feature state").

Definition addOrUpdateOverride (k : JsString) (type : OverrideType)
    (id : JsString) (enabled : bool) : M Store unit :=
  try_catch
    (matchedCount ← model (updateOne k (SetOverride type id enabled));
     if (matchedCount =? 0)%nat then throw (FeatureNotFoundError k)
     else this_cache (RedisCache.delete (CACHE_KEY_PREFIX ++ k)))
    (rethrow "Failed to add override").

Definition removeOverride (k : JsString) (type : OverrideType)
    (id : JsString) : M Store unit :=
  try_catch
    (matchedCount ← model (updateOne k (UnsetOverride type id));
     if (matchedCount =? 0)%nat then throw (FeatureNotFoundError k)
     else this_cache (RedisCache.delete (CACHE_KEY_PREFIX ++ k)))
    (rethrow "Failed to remove override").

Definition delete (k : JsString) : M Store unit :=
  try_catch
    (deletedCount ← model (deleteOne k);
     if (deletedCount =? 0)%nat then throw (FeatureNotFoundError k)
     else this_cache (RedisCache.delete (CACHE_KEY_PREFIX ++ k)))
    (rethrow "Failed to delete feature flag").

(** The four mutations have one shape: the query, the test of the count it
    reports, the invalidation; they differ in the query and in the message
    of the [catch].  [mutation_awaiting] is that shape, with the other
    requests that run after the query has been answered and before the
    invalidation is sent ([before_invalidate]). *)
Definition mutation_awaiting (before_invalidate : Store → Store)
    (query : M Collection nat) (k : JsString) (message : string)
    : M Store unit :=
  try_catch
    (count ← model query;
     if (count =? 0)%nat then throw (FeatureNotFoundError k)
     else
       meanwhile before_invalidate;;
       this_cache (RedisCache.delete (CACHE_KEY_PREFIX ++ k)))
    (rethrow message).

#[global] Instance repository : IFeatureRepository Store := {
  repo_create := create;
  repo_findByKey := findByKey;
  repo_findAll := findAll;
  repo_updateGlobalState := updateGlobalState;
  repo_addOrUpdateOverride := addOrUpdateOverride;
  repo_removeOverride := removeOverride;
  repo_delete := delete
}.

End WithCache.
End CachedFeatureRepository.

(** ** The service (services/feature.service.ts) *)

(** The calls that leave the service: the repository's methods and the
    evaluation engine.  The service runs over a store state together with
    the trace of the calls made so far. *)
Inductive Call :=
| call_create (feature : FeatureFlag)
| call_findByKey (k : JsString)
| call_findAll
| call_updateGlobalState (k : JsString) (b : bool)
| call_addOrUpdateOverride (k : JsString) (type : OverrideType)
    (id : JsString) (b : bool)
| call_removeOverride (k : JsString) (type : OverrideType) (id : JsString)
| call_delete (k : JsString)
| call_evaluate (flag : FeatureFlag) (context : EvaluationContext).

Record World (R : Type) := { store : R; trace : list Call }.
Arguments store {R} _.
Arguments trace {R} _.

Definition is_repository_call (c : Call) : bool :=
  match c with call_evaluate _ _ => false | _ => true end.

Module FeatureService.
Import Validators.
Section WithRepository.
Context `{IFeatureRepository R}.

(** [await this.repository.method(...)] *)
Definition repository {A} (c : Call) (method : M R A) : M (World R) A :=
  λ w,
  let '(r, s) := method (store w) in
  (r, {| store := s; trace := trace w ++ [c] |}).

(** [this.evaluator.evaluate(flag, context)] *)
Definition evaluator (flag : FeatureFlag) (context : EvaluationContext)
    : M (World R) EvaluationResult := λ w,
  (Returned (evaluate flag context),
   {| store := store w; trace := trace w ++ [call_evaluate flag context] |}).

Definition createFeature (key description enabled : JsValue)
    : M (World R) FeatureFlag :=
  lift (validateFeatureKey key);;
  lift (validateDescription description);;
  lift (validateEnabledState enabled);;
  let feature :=
    {| key := as_string key;
       description := as_optional_string description;
       enabled := as_boolean enabled;
       overrides := {| users := ∅; groups := ∅; regions := Some ∅ |};
       createdAt := None;
       updatedAt := None |} in
  repository (call_create feature) (repo_create feature).

Definition getFeature (key : JsValue) : M (World R) FeatureFlag :=
  lift (validateFeatureKey key);;
  feature ← repository (call_findByKey (as_string key))
               (repo_findByKey (as_string key));
  match feature with
  | None => throw (FeatureNotFoundError (as_string key))
  | Some feature => mret feature
  end.

Definition getAllFeatures : M (World R) (list FeatureFlag) :=
  repository call_findAll repo_findAll.

Definition evaluateFeature (key context : JsValue)
    : M (World R) EvaluationResult :=
  lift (validateFeatureKey key);;
  lift (validateEvaluationContext context);;
  feature ← getFeature key;
  evaluator feature (as_context context).

Definition updateGlobalState (key enabled : JsValue) : M (World R) unit :=
  lift (validateFeatureKey key);;
  lift (validateEnabledState enabled);;
  repository (call_updateGlobalState (as_string key) (as_boolean enabled))
    (repo_updateGlobalState (as_string key) (as_boolean enabled)).

Definition addOrUpdateOverride (key type id enabled : JsValue)
    : M (World R) unit :=
  lift (validateFeatureKey key);;
  type ← lift (validateOverrideType type);
  lift (validateOverrideId id);;
  lift (validateEnabledState enabled);;
  (* verify feature exists *)
  getFeature key;;
  repository
    (call_addOrUpdateOverride (as_string key) type (as_string id)
       (as_boolean enabled))
    (repo_addOrUpdateOverride (as_string key) type (as_string id)
       (as_boolean enabled)).

Definition removeOverride (key type id : JsValue) : M (World R) unit :=
  lift (validateFeatureKey key);;
  type ← lift (validateOverrideType type);
  lift (validateOverrideId id);;
  (* verify feature exists *)
  getFeature key;;
  repository (call_removeOverride (as_string key) type (as_string id))
    (repo_removeOverride (as_string key) type (as_string id)).

Definition deleteFeature (key : JsValue) : M (World R) unit :=
  lift (validateFeatureKey key);;
  repository (call_delete (as_string key)) (repo_delete (as_string key)).

(** The operations of the service as requests, for statements about all
    of them; [perform] runs one and drops its return value. *)
Inductive Request :=
| CreateFeature (key description enabled : JsValue)
| GetFeature (key : JsValue)
| EvaluateFeature (key context : JsValue)
| UpdateGlobalState (key enabled : JsValue)
| AddOrUpdateOverride (key type id enabled : JsValue)
| RemoveOverride (key type id : JsValue)
| DeleteFeature (key : JsValue).

Definition discard {A} (m : M (World R) A) : M (World R) unit :=
  _ ← m; mret ().

Definition perform (r : Request) : M (World R) unit :=
  match r with
  | CreateFeature key description enabled =>
      discard (createFeature key description enabled)
  | GetFeature key => discard (getFeature key)
  | EvaluateFeature key context => discard (evaluateFeature key context)
  | UpdateGlobalState key enabled => updateGlobalState key enabled
  | AddOrUpdateOverride key type id enabled =>
      addOrUpdateOverride key type id enabled
  | RemoveOverride key type id => removeOverride key type id
  | DeleteFeature key => deleteFeature key
  end.

End WithRepository.

Definition void {A} (o : Outcome A) : Outcome unit :=
  match o with Returned _ => Returned () | Thrown e => Thrown e end.

(** The checks each operation applies to its input, in the order of the
    source. *)
Definition validations (r : Request) : list (Outcome unit) :=
  match r with
  | CreateFeature key description enabled =>
      [validateFeatureKey key; validateDescription description;
       validateEnabledState enabled]
  | GetFeature key => [validateFeatureKey key]
  | EvaluateFeature key context =>
      [validateFeatureKey key; validateEvaluationContext context]
  | UpdateGlobalState key enabled =>
      [validateFeatureKey key; validateEnabledState enabled]
  | AddOrUpdateOverride key type id enabled =>
      [validateFeatureKey key; void (validateOverrideType type);
       validateOverrideId id; validateEnabledState enabled]
  | RemoveOverride key type id =>
      [validateFeatureKey key; void (validateOverrideType type);
       validateOverrideId id]
  | DeleteFeature key => [validateFeatureKey key]
  end.

(** The first exception a sequence of checks throws, if any: the input is
    invalid when there is one. *)
Fixpoint first_thrown (checks : list (Outcome unit)) : option Exception :=
  match checks with
  | [] => None
  | Thrown e :: _ => Some e
  | Returned _ :: rest => first_thrown rest
  end.

End FeatureService.

(** *** Tier independence, as a predicate *)

(** An update that touches only what lies below tier [t]: an override entry
    of a lower-precedence tier, or the global default. *)
Definition below (t : OverrideType) (u : MongoDB.Update) : Prop :=
  match u with
  | MongoDB.SetEnabled _ => True
  | MongoDB.SetOverride t' _ _ | MongoDB.UnsetOverride t' _ => rank t < rank t'
  end.

Definition tier_independence
    (matching : OverrideType → FeatureFlag → EvaluationContext → Prop) : Prop :=
  ∀ f c t u,
    matching t f c → below t u →
    evaluate (MongoDB.apply_update u f) c = evaluate f c.

(** *** Sample data *)

Definition flag_with (k : string) (b : bool)
    (us gs : gmap JsString bool) (rs : option (gmap JsString bool))
    : FeatureFlag :=
  {| key := js k; description := Some (js "sample flag"); enabled := b;
     overrides := {| users := us; groups := gs; regions := rs |};
     createdAt := None; updatedAt := None |}.

Definition context_of (u g r : option string) : EvaluationContext :=
  {| userId := js <$> u; groupId := js <$> g; regionId := js <$> r |}.

(** The "full hierarchy" scenario of the specification. *)
Definition premium : FeatureFlag :=
  flag_with "premium" false
    {[ js "u1" := false ]} {[ js "enterprise-customers" := true ]} (Some ∅).

(** Flags whose user mapping has the empty string as a key. *)
Definition keyed_by_empty (enabled stored : bool) : FeatureFlag :=
  flag_with "beta" enabled {[ [] := stored ]} ∅ (Some ∅).

(** A group entry [false] under a user entry [true]. *)
Definition shadowed : FeatureFlag :=
  flag_with "beta" true {[ js "u1" := true ]} {[ js "g1" := false ]} (Some ∅).

(** A clock for the examples: one millisecond per write, from the epoch. *)
Definition sample_clock (n : nat) : Date := Z.of_nat n.

(** A collection that holds [premium] and answers its queries, and the
    world of a service that has made no call yet. *)
Definition sample_collection : MongoDB.Collection :=
  {| MongoDB.documents := {[ js "premium" := premium ]};
     MongoDB.fault := None;
     MongoDB.clock := sample_clock;
     MongoDB.writes := 0 |}.

Definition sample_world : World MongoDB.Collection :=
  {| store := sample_collection; trace := [] |}.

(** An empty collection and shorthands for request values. *)
Definition empty_world : World MongoDB.Collection :=
  {| store := {| MongoDB.documents := ∅; MongoDB.fault := None;
                 MongoDB.clock := sample_clock; MongoDB.writes := 0 |};
     trace := [] |}.

Definition str (s : string) : JsValue := JsStr (js s).

Definition user_context (u : string) : JsValue :=
  JsObject [(js "userId", str u)].

(** A redis client for the examples: it holds no entry and rejects every
    write. *)
#[local] Instance sample_client : RedisClient unit := {
  client_get := λ _, ret None;
  client_setEx := λ _ _ _, throw (LibraryError "READONLY" None);
  client_del := λ _, throw (LibraryError "READONLY" None)
}.

(** ** Vocabulary for the properties of the validators *)

(** The string that names an override type in a request. *)
Definition type_name (t : OverrideType) : JsString :=
  match t with
  | user => js "user" | group => js "group" | region => js "region"
  end.

(** An identifier [validateOverrideId] lets through: one to a hundred code
    units, not all of them white space. *)
Definition valid_override_id (s : JsString) : Prop :=
  1 ≤ length s ≤ 100 ∧ Exists (λ c, is_whitespace c = false) s.

(** A context field [validateEvaluationContext] lets through: missing, or
    a valid identifier. *)
Definition valid_context_field (v : JsValue) : Prop :=
  v = JsUndefined ∨ ∃ s, v = JsStr s ∧ valid_override_id s.

Definition context_fields (v : JsValue) : list JsValue :=
  [get_field v (js "userId"); get_field v (js "groupId");
   get_field v (js "regionId")].

Definition valid_description (v : JsValue) : Prop :=
  v = JsUndefined ∨ ∃ s, v = JsStr s ∧ length s ≤ 500.

Definition is_boolean (v : JsValue) : Prop := ∃ b, v = JsBoolean b.

Definition valid_key (v : JsValue) : Prop :=
  ∃ s, v = JsStr s ∧ matches_key_pattern s.

Definition valid_type (v : JsValue) : Prop := ∃ t, v = JsStr (type_name t).

(** A value that a template literal cannot print: an object with an own
    property [toString]. *)
Definition unprintable (v : JsValue) : Prop :=
  ∃ fields, v = JsObject fields ∧ js "toString" ∈ fields.*1.

Definition valid_id (v : JsValue) : Prop :=
  ∃ s, v = JsStr s ∧ valid_override_id s.

Definition valid_context (v : JsValue) : Prop :=
  (∃ fields, v = JsObject fields) ∧
  Forall valid_context_field (context_fields v) ∧
  Exists (λ field, field ≠ JsUndefined) (context_fields v).

(** The inputs an operation of the service accepts. *)
Definition acceptable (r : FeatureService.Request) : Prop :=
  match r with
  | FeatureService.CreateFeature key description enabled =>
      valid_key key ∧ valid_description description ∧ is_boolean enabled
  | FeatureService.GetFeature key => valid_key key
  | FeatureService.EvaluateFeature key context =>
      valid_key key ∧ valid_context context
  | FeatureService.UpdateGlobalState key enabled =>
      valid_key key ∧ is_boolean enabled
  | FeatureService.AddOrUpdateOverride key type id enabled =>
      valid_key key ∧ valid_type type ∧ valid_id id ∧ is_boolean enabled
  | FeatureService.RemoveOverride key type id =>
      valid_key key ∧ valid_type type ∧ valid_id id
  | FeatureService.DeleteFeature key => valid_key key
  end.

(** The requests whose override type is reached by [validateOverrideType]
    (the key before it is valid) and cannot be printed in its message. *)
Definition type_unprintable (r : FeatureService.Request) : Prop :=
  match r with
  | FeatureService.AddOrUpdateOverride key type _ _
  | FeatureService.RemoveOverride key type _ => valid_key key ∧ unprintable type
  | _ => False
  end.

(** ** Vocabulary for the properties of the repository *)

(** A repository call run for its effect: the method the call names, its
    return value dropped.  (The engine is no repository method.) *)
Definition repo_run `{IFeatureRepository R} (c : Call) : M R unit :=
  match c with
  | call_create feature => _ ← repo_create feature; mret ()
  | call_findByKey k => _ ← repo_findByKey k; mret ()
  | call_findAll => _ ← repo_findAll; mret ()
  | call_updateGlobalState k b => repo_updateGlobalState k b
  | call_addOrUpdateOverride k type id b => repo_addOrUpdateOverride k type id b
  | call_removeOverride k type id => repo_removeOverride k type id
  | call_delete k => repo_delete k
  | call_evaluate _ _ => mret ()
  end.

(** The errors of the store's contract. *)
Definition store_error (e : Exception) : Prop :=
  match e with
  | FeatureNotFoundError _ | DuplicateFeatureError _ | DatabaseError _ _ => True
  | _ => False
  end.

(** The exception a [catch] block of the repository lets out for a caught
    [e]: a not-found error as it is, anything else wrapped. *)
Definition rethrown (message : string) (e : Exception) : Exception :=
  match e with
  | FeatureNotFoundError _ => e
  | _ => DatabaseError message e
  end.

(** The document [create] hands to [save], after the schema's setters, and
    the document [save] stores for it at time [t]. *)
Definition new_document (feature : FeatureFlag) : FeatureFlag :=
  MongoDB.cast
    {| key := key feature;
       description := description feature;
       enabled := enabled feature;
       overrides :=
         {| users := users (overrides feature);
            groups := groups (overrides feature);
            regions := Some (default ∅ (regions (overrides feature))) |};
       createdAt := None;
       updatedAt := None |}.

Definition saved_document (t : Date) (feature : FeatureFlag) : FeatureFlag :=
  MongoDB.inserted t (new_document feature).

(** The document [updateOne] stores for [doc] at time [t]. *)
Definition updated_document (t : Date) (u : MongoDB.Update)
    (doc : FeatureFlag) : FeatureFlag :=
  MongoDB.touched t (MongoDB.apply_update u doc).

(** An entity identifier that is one segment of an update path: not empty,
    and no dot, no dollar sign, no NUL in it.  For such an identifier
    [overrides.<type>s.<id>] is the entry [id] of the map. *)
Definition path_segment (id : JsString) : Prop :=
  id ≠ [] ∧ Forall (λ c, c ≠ 46%N ∧ c ≠ 36%N ∧ c ≠ 0%N) id.

(** A key of ASCII characters: its code units are its encoded bytes. *)
Definition ascii_key (k : JsString) : Prop := Forall (λ c, (c < 128)%N) k.

(** Every document is filed under its own key. *)
Definition keyed (db : MongoDB.Collection) : Prop :=
  ∀ k doc, MongoDB.documents db !! k = Some doc → key doc = k.

(** ** Vocabulary for the properties of the cached repository *)

(** A redis server that answers every command and forgets nothing before it
    is told to: the state is the key-value store itself.  (Expiry, which
    only drops entries, is left out.) *)
#[global] Instance MemoryRedis : RedisClient (gmap JsString JsString) := {
  client_get := λ key store, (Returned (store !! key), store);
  client_setEx := λ key ttl value store, (Returned (), <[key := value]> store);
  client_del := λ key store, (Returned (), delete key store)
}.

(** A codec for the examples: it writes the key and reads nothing back. *)
#[local] Instance sample_json : JSON := {
  JSON_stringify := key;
  JSON_parse := λ _, Thrown (LibraryError "SyntaxError" None)
}.

(** A cached text that [findByKey] takes for a hit: a non-empty string. *)
Definition cache_hit (v : option JsString) : option JsString :=
  match v with
  | Some (c :: text) => Some (c :: text)
  | _ => None
  end.

(** The cache agrees with the collection: every entry that [findByKey]
    would take for a hit is the serialized domain form of the document now
    stored under that key. *)
Definition coherent `{JSON}
    (σ : CachedFeatureRepository.Store (C := gmap JsString JsString)) : Prop :=
  ∀ k entries text,
    RedisCache.client (CachedFeatureRepository.cache σ) = Some entries →
    cache_hit (entries !! (CachedFeatureRepository.CACHE_KEY_PREFIX ++ k))
      = Some text →
    ∃ doc,
      MongoDB.documents (CachedFeatureRepository.db σ) !! k = Some doc ∧
      text = JSON_stringify (FeatureRepository.toDomain doc).

(** A call whose key is as the schema stores it: trimming leaves it as it
    is.  (The service passes validated keys only, and the pattern admits
    no white space.) *)
Definition trimmed_call (c : Call) : Prop :=
  match c with
  | call_findByKey k | call_updateGlobalState k _
  | call_addOrUpdateOverride k _ _ _ | call_removeOverride k _ _
  | call_delete k => trim k = k
  | call_create _ | call_findAll | call_evaluate _ _ => True
  end.

(** The cache is up: enabled, connected, with a client. *)
Definition up (σ : CachedFeatureRepository.Store (C := gmap JsString JsString))
    : Prop :=
  RedisCache.unavailable (CachedFeatureRepository.cache σ) = false.

(** The cache agrees with the collection at every key but [k]. *)
Definition coherent_but `{JSON} (k : JsString)
    (σ : CachedFeatureRepository.Store (C := gmap JsString JsString)) : Prop :=
  ∀ k' entries text,
    k' ≠ k →
    RedisCache.client (CachedFeatureRepository.cache σ) = Some entries →
    cache_hit (entries !! (CachedFeatureRepository.CACHE_KEY_PREFIX ++ k'))
      = Some text →
    ∃ doc,
      MongoDB.documents (CachedFeatureRepository.db σ) !! k' = Some doc ∧
      text = JSON_stringify (FeatureRepository.toDomain doc).

(** What the other requests do at the awaits of a call of the cached
    repository: in [findByKey] after the cache has answered and before the
    query, and after the query and before the write to the cache; in a
    mutation after the query and before the invalidation.  ([create] and
    [findAll] await one query and do nothing after it.) *)
Record Interleaving := {
  before_query : CachedFeatureRepository.Store (C := gmap JsString JsString)
                 → CachedFeatureRepository.Store (C := gmap JsString JsString);
  before_fill : CachedFeatureRepository.Store (C := gmap JsString JsString)
                → CachedFeatureRepository.Store (C := gmap JsString JsString);
  before_invalidate
    : CachedFeatureRepository.Store (C := gmap JsString JsString)
      → CachedFeatureRepository.Store (C := gmap JsString JsString)
}.

(** No other request. *)
Definition alone : Interleaving :=
  {| before_query := id; before_fill := id; before_invalidate := id |}.

(** A call of the cached repository run for its effect, with the other
    requests served at its awaits. *)
Definition run_awaiting `{JSON} (env_ttl : Z) (others : Interleaving)
    (c : Call)
    : M (CachedFeatureRepository.Store (C := gmap JsString JsString)) unit :=
  match c with
  | call_findByKey k =>
      _ ← CachedFeatureRepository.findByKey_awaiting env_ttl
            (before_query others) (before_fill others) k;
      mret ()
  | call_updateGlobalState k b =>
      CachedFeatureRepository.mutation_awaiting (before_invalidate others)
        (MongoDB.updateOne k (MongoDB.SetEnabled b)) k
        "Failed to update feature state"
  | call_addOrUpdateOverride k type id b =>
      CachedFeatureRepository.mutation_awaiting (before_invalidate others)
        (MongoDB.updateOne k (MongoDB.SetOverride type id b)) k
        "Failed to add override"
  | call_removeOverride k type id =>
      CachedFeatureRepository.mutation_awaiting (before_invalidate others)
        (MongoDB.updateOne k (MongoDB.UnsetOverride type id)) k
        "Failed to remove override"
  | call_delete k =>
      CachedFeatureRepository.mutation_awaiting (before_invalidate others)
        (MongoDB.deleteOne k) k "Failed to delete feature flag"
  | call_create _ | call_findAll | call_evaluate _ _ =>
      @repo_run _ (CachedFeatureRepository.repository env_ttl) c
  end.

(** Other requests that do a call no harm.  For [findByKey]: what runs at
    its awaits keeps the cache up and in agreement with the collection, and
    what runs between its query and its write to the cache leaves the
    document under its key as the query read it.  For a mutation: what runs
    between its query and its invalidation keeps the cache up and in
    agreement at every other key. *)
Definition harmless `{JSON} (c : Call) (others : Interleaving) : Prop :=
  match c with
  | call_findByKey k =>
      (∀ σ, up σ → coherent σ →
         up (before_query others σ) ∧ coherent (before_query others σ))
      ∧ (∀ σ, up σ → coherent σ →
           up (before_fill others σ) ∧ coherent (before_fill others σ)
           ∧ MongoDB.documents (CachedFeatureRepository.db (before_fill others σ))
               !! k
             = MongoDB.documents (CachedFeatureRepository.db σ) !! k)
  | call_updateGlobalState k _ | call_addOrUpdateOverride k _ _ _
  | call_removeOverride k _ _ | call_delete k =>
      ∀ σ, up σ → coherent_but k σ →
        up (before_invalidate others σ)
        ∧ coherent_but k (before_invalidate others σ)
  | call_create _ | call_findAll | call_evaluate _ _ => True
  end.

(** A codec for the examples that tells a flag's state: it writes the key
    and a sign, and reads nothing back. *)
Definition signed_json : JSON := {|
  JSON_stringify := λ f, key f ++ js (if enabled f then "+" else "-");
  JSON_parse := λ _, Thrown (LibraryError "SyntaxError" None)
|}.

(** A store whose cache is up and holds the serialized [premium]. *)
Definition sample_store
    : CachedFeatureRepository.Store (C := gmap JsString JsString) :=
  {| CachedFeatureRepository.db := sample_collection;
     CachedFeatureRepository.cache :=
       {| RedisCache.client :=
            Some {[ (CachedFeatureRepository.CACHE_KEY_PREFIX ++ js "premium")
                      := JSON_stringify premium ]};
          RedisCache.isConnected := true;
          RedisCache.isEnabled := true |} |}.

(** ** Vocabulary for the properties of the service *)

(** The context field that carries the identifier of a tier, and the
    request body that supplies that one identifier. *)
Definition context_field (t : OverrideType) : JsString :=
  match t with
  | user => js "userId" | group => js "groupId" | region => js "regionId"
  end.

Definition single_context (t : OverrideType) (id : JsString) : JsValue :=
  JsObject [(context_field t, JsStr id)].

(** ** The HTTP layer (domain/errors.ts, api/middleware/error.middleware.ts,
       api/controllers/feature.controller.ts, api/routes/feature.routes.ts) *)

(** [error.message], as the constructors of domain/errors.ts set it. *)
Definition error_message (e : Exception) : JsString :=
  match e with
  | FeatureNotFoundError k => js "Feature flag '" ++ k ++ js "' not found"
  | DuplicateFeatureError k => js "Feature flag '" ++ k ++ js "' already exists"
  | ValidationError m => m
  | InvalidOverrideError m | DatabaseError m _ | LibraryError m _ => js m
  end.

Module Api.

(** What [res.json] is given: a plain value, or the evaluation result. *)
Inductive Payload :=
| json_value (v : JsValue)
| json_result (r : EvaluationResult).

(** [res.status(code).json(payload)] *)
Record Response := { status : Z; sent : Payload }.

Definition failure (code : Z) (error : string) (message : JsString)
    : Response :=
  {| status := code;
     sent := json_value (JsObject [(js "error", str error);
                                   (js "message", JsStr message)]) |}.

(** The [instanceof] chain of [errorHandler].  [InvalidOverrideError] is
    the one class left for the [FeatureFlagError] branch; an error of a
    library is of none of the classes. *)
Definition errorHandler (error : Exception) : Response :=
  match error with
  | FeatureNotFoundError _ => failure 404 "Not Found" (error_message error)
  | DuplicateFeatureError _ => failure 409 "Conflict" (error_message error)
  | ValidationError _ => failure 400 "Bad Request" (error_message error)
  | DatabaseError _ _ =>
      failure 500 "Internal Server Error" (js "A database error occurred")
  | InvalidOverrideError _ =>
      failure 500 "Internal Server Error" (error_message error)
  | LibraryError _ _ =>
      failure 500 "Internal Server Error" (js "An unexpected error occurred")
  end.

(** [asyncHandler(fn)]: a rejection of [fn] is passed to [next], and
    express hands it to [errorHandler], the last middleware of the
    application. *)
Definition asyncHandler {Σ} (fn : M Σ Response) : Σ → Response * Σ :=
  λ σ,
  match fn σ with
  | (Returned response, σ') => (response, σ')
  | (Thrown error, σ') => (errorHandler error, σ')
  end.

(** [const { ... } = req.body]: destructuring [undefined] or [null] is a
    [TypeError]; a property that is missing reads as [undefined]. *)
Definition destructured (body : JsValue) : Outcome JsValue :=
  match body with
  | JsUndefined | JsNull =>
      Thrown (LibraryError "Cannot destructure req.body" None)
  | _ => Returned body
  end.

Definition ok (body : JsValue) : Response :=
  {| status := 200; sent := json_value body |}.

Section Controller.
Context `{IFeatureRepository R}.

(** The methods of [FeatureController] whose response is built from the
    request.  A route parameter is a string; the body is whatever the
    client sent. *)
Definition updateFeature (key : JsString) (body : JsValue)
    : M (World R) Response :=
  body ← lift (destructured body);
  let enabled := get_field body (js "enabled") in
  FeatureService.updateGlobalState (JsStr key) enabled;;
  mret (ok (JsObject [(js "message", str "Feature updated successfully");
                      (js "key", JsStr key);
                      (js "enabled", enabled)])).

Definition evaluateFeature (key : JsString) (body : JsValue)
    : M (World R) Response :=
  result ← FeatureService.evaluateFeature (JsStr key) body;
  mret {| status := 200; sent := json_result result |}.

Definition addOverride (key : JsString) (body : JsValue)
    : M (World R) Response :=
  body ← lift (destructured body);
  let type := get_field body (js "type") in
  let id := get_field body (js "id") in
  let enabled := get_field body (js "enabled") in
  FeatureService.addOrUpdateOverride (JsStr key) type id enabled;;
  mret (ok (JsObject [(js "message", str "Override added successfully");
                      (js "key", JsStr key);
                      (js "override",
                       JsObject [(js "type", type); (js "id", id);
                                 (js "enabled", enabled)])])).

Definition removeOverride (key type id : JsString) : M (World R) Response :=
  FeatureService.removeOverride (JsStr key) (JsStr type) (JsStr id);;
  mret (ok (JsObject [(js "message", str "Override removed successfully");
                      (js "key", JsStr key);
                      (js "override",
                       JsObject [(js "type", JsStr type);
                                 (js "id", JsStr id)])])).

Definition deleteFeature (key : JsString) : M (World R) Response :=
  FeatureService.deleteFeature (JsStr key);;
  mret (ok (JsObject [(js "message", str "Feature deleted successfully");
                      (js "key", JsStr key)])).

(** The routes of [createFeatureRoutes] to these methods, each wrapped in
    [asyncHandler]. *)
Inductive Route :=
| PUT_feature (key : JsString) (body : JsValue)
| POST_evaluate (key : JsString) (body : JsValue)
| POST_overrides (key : JsString) (body : JsValue)
| DELETE_override (key type id : JsString)
| DELETE_feature (key : JsString).

Definition createFeatureRoutes (r : Route) : World R → Response * World R :=
  match r with
  | PUT_feature key body => asyncHandler (updateFeature key body)
  | POST_evaluate key body => asyncHandler (evaluateFeature key body)
  | POST_overrides key body => asyncHandler (addOverride key body)
  | DELETE_override key type id => asyncHandler (removeOverride key type id)
  | DELETE_feature key => asyncHandler (deleteFeature key)
  end.

End Controller.

(** The [:key] of a route, and the call of the service a route makes, when
    its body can be destructured. *)
Definition route_key (r : Route) : JsString :=
  match r with
  | PUT_feature key _ | POST_evaluate key _ | POST_overrides key _
  | DELETE_override key _ _ | DELETE_feature key => key
  end.

Definition request_of (r : Route) : option FeatureService.Request :=
  match r with
  | PUT_feature key body =>
      match destructured body with
      | Returned body =>
          Some (FeatureService.UpdateGlobalState (JsStr key)
                  (get_field body (js "enabled")))
      | Thrown _ => None
      end
  | POST_evaluate key body =>
      Some (FeatureService.EvaluateFeature (JsStr key) body)
  | POST_overrides key body =>
      match destructured body with
      | Returned body =>
          Some (FeatureService.AddOrUpdateOverride (JsStr key)
                  (get_field body (js "type")) (get_field body (js "id"))
                  (get_field body (js "enabled")))
      | Thrown _ => None
      end
  | DELETE_override key type id =>
      Some (FeatureService.RemoveOverride (JsStr key) (JsStr type) (JsStr id))
  | DELETE_feature key => Some (FeatureService.DeleteFeature (JsStr key))
  end.

(** The routes whose override identifier, when they name one, is one
    segment of the update path [overrides.<type>s.<id>]. *)
Definition single_segment_id (r : Route) : Prop :=
  match request_of r with
  | Some (FeatureService.AddOrUpdateOverride _ _ id _)
  | Some (FeatureService.RemoveOverride _ _ id) => path_segment (as_string id)
  | _ => True
  end.

End Api.

(* ================================================================== *)
(** * Part II. Lemmas and theorems *)
(* ================================================================== *)

(** ** The evaluation engine *)

Section Evaluator.
Implicit Types (f : FeatureFlag) (c : EvaluationContext) (t : OverrideType).
Implicit Types (id : JsString) (b : bool).

Lemma truthy_string_nonempty id : truthy_string id = true ↔ id ≠ [].
Proof. destruct id; simpl; split; congruence. Qed.

Lemma override_for_Some (o : option JsString)
    (m : option (gmap JsString bool)) b :
  override_for o m = Some b ↔
  ∃ id mm, o = Some id ∧ id ≠ [] ∧ m = Some mm ∧ mm !! id = Some b.
Proof.
  unfold override_for. split.
  - destruct o as [id|], m as [mm|]; try discriminate.
    destruct (truthy_string id) eqn:E; try discriminate.
    intros Hb. exists id, mm. by rewrite <- truthy_string_nonempty.
  - intros (id & mm & -> & Hne & -> & Hb).
    apply truthy_string_nonempty in Hne. by rewrite Hne.
Qed.

(** An absent [regions] map answers the guard as an empty one does. *)
Lemma override_for_regions (o : option JsString)
    (rs : option (gmap JsString bool)) :
  override_for o rs = override_for o (Some (default ∅ rs)).
Proof.
  destruct o as [id|], rs as [m|]; simpl; try done.
  rewrite lookup_empty. by destruct (truthy_string id).
Qed.

(** [evaluate] consults the tiers in rank order. *)
Lemma evaluate_tiers f c :
  evaluate f c =
    match tier_lookup user f c with
    | Some b => result f b user_override
    | None =>
    match tier_lookup group f c with
    | Some b => result f b group_override
    | None =>
    match tier_lookup region f c with
    | Some b => result f b region_override
    | None => result f (enabled f) global_default
    end end end.
Proof.
  unfold evaluate, tier_lookup; simpl.
  by rewrite (override_for_regions (regionId c)).
Qed.

Lemma tier_lookup_Some t f c b :
  tier_lookup t f c = Some b ↔
  ∃ id, context_id t c = Some id ∧ id ≠ [] ∧ mapping t f !! id = Some b.
Proof.
  unfold tier_lookup. rewrite override_for_Some. split.
  - intros (id & mm & ? & ? & [= <-] & ?). eauto.
  - intros (id & ? & ? & ?). eauto 10.
Qed.

Lemma matches_lookup t f c : matches t f c ↔ is_Some (tier_lookup t f c).
Proof.
  unfold matches, is_Some. setoid_rewrite tier_lookup_Some. split.
  - intros (id & ? & ? & [b ?]). exists b, id. done.
  - intros (b & id & ? & ? & ?). exists id. eauto.
Qed.

Lemma not_matches_lookup t f c : ¬ matches t f c ↔ tier_lookup t f c = None.
Proof. rewrite matches_lookup, eq_None_not_Some. done. Qed.

Lemma matches_spec_matches t f c : matches t f c → spec_matches t f c.
Proof. intros (id & ? & ? & ?). by exists id. Qed.

Lemma spec_matches_nonempty t f c :
  nonempty_ids c → spec_matches t f c → matches t f c.
Proof.
  intros Hne (id & Hid & ?). exists id. split_and!; try done.
  intros ->. by apply (Hne t).
Qed.

(** On contexts whose identifiers are non-empty the engine computes the
    specification's algorithm. *)
Lemma evaluate_spec_evaluate f c :
  nonempty_ids c → evaluate f c = spec_evaluate f c.
Proof.
  intros Hne. unfold evaluate, spec_evaluate.
  pose proof (Hne user) as Hu. pose proof (Hne group) as Hg.
  pose proof (Hne region) as Hr. simpl in Hu, Hg, Hr.
  rewrite (override_for_regions (regionId c)).
  destruct (userId c) as [[|? ?]|], (groupId c) as [[|? ?]|],
    (regionId c) as [[|? ?]|]; simpl; done.
Qed.

(** The result is decided by the first tier, in rank order, whose lookup
    succeeds. *)
Lemma evaluate_at t f c b :
  tier_lookup t f c = Some b →
  (∀ t', rank t' < rank t → tier_lookup t' f c = None) →
  evaluate f c = result f b (tier_reason t).
Proof.
  intros Ht Habove. rewrite evaluate_tiers.
  destruct t; simpl in *.
  - by rewrite Ht.
  - rewrite (Habove user) by (simpl; lia). by rewrite Ht.
  - rewrite (Habove user), (Habove group) by (simpl; lia). by rewrite Ht.
Qed.

Lemma evaluate_default f c :
  (∀ t, tier_lookup t f c = None) →
  evaluate f c = result f (enabled f) global_default.
Proof.
  intros Hnone. rewrite evaluate_tiers.
  by rewrite (Hnone user), (Hnone group), (Hnone region).
Qed.

(** Some tier is the first to match, or none matches. *)
Lemma first_match f c :
  (∃ t b, tier_lookup t f c = Some b ∧
          ∀ t', rank t' < rank t → tier_lookup t' f c = None)
  ∨ (∀ t, tier_lookup t f c = None).
Proof.
  destruct (tier_lookup user f c) as [b|] eqn:Hu.
  { left. exists user, b. split; [done|]. intros []; simpl; lia. }
  destruct (tier_lookup group f c) as [b|] eqn:Hg.
  { left. exists group, b. split; [done|]. intros []; simpl; try lia. done. }
  destruct (tier_lookup region f c) as [b|] eqn:Hr.
  { left. exists region, b. split; [done|]. intros []; simpl; try lia; done. }
  right. by intros [].
Qed.

(** The reason names the tier that decided. *)
Lemma evaluate_reason_tier f c t :
  reason (evaluate f c) = tier_reason t → is_Some (tier_lookup t f c).
Proof.
  rewrite evaluate_tiers.
  destruct (tier_lookup user f c) eqn:Hu, (tier_lookup group f c) eqn:Hg,
    (tier_lookup region f c) eqn:Hr; destruct t; simpl; try discriminate;
    intros _; rewrite ?Hu, ?Hg, ?Hr; eauto.
Qed.

Lemma tier_lookup_set_other t t' o f c :
  t ≠ t' → tier_lookup t' f (set_context_id t o c) = tier_lookup t' f c.
Proof. by destruct t, t'. Qed.

Lemma tier_lookup_set_None t f c :
  tier_lookup t f (set_context_id t None c) = None.
Proof. by destruct t. Qed.

Lemma tier_lookup_set_empty t f c :
  tier_lookup t f (set_context_id t (Some []) c) = None.
Proof. by destruct t. Qed.

(** A tier whose lookup fails can be dropped from the context. *)
Lemma evaluate_drop_tier t f c :
  tier_lookup t f c = None →
  evaluate f c = evaluate f (set_context_id t None c).
Proof.
  intros Hnone. rewrite !evaluate_tiers.
  destruct t;
    rewrite ?tier_lookup_set_None, ?tier_lookup_set_other by done;
    by rewrite Hnone.
Qed.

Lemma tier_reason_inj t t' : tier_reason t = tier_reason t' → t = t'.
Proof. by destruct t, t'. Qed.

End Evaluator.

(** ** The engine against the properties of the specification *)

Section EvaluatorProperties.
Implicit Types (f : FeatureFlag) (c : EvaluationContext) (t : OverrideType).

Lemma none_above_lookup t f c :
  none_above t f c → ∀ t', rank t' < rank t → tier_lookup t' f c = None.
Proof. intros H t' Hlt. apply not_matches_lookup. by apply H. Qed.

Lemma evaluate_entry t f c id b :
  context_id t c = Some id → id ≠ [] → none_above t f c →
  mapping t f !! id = Some b →
  evaluate f c = result f b (tier_reason t).
Proof.
  intros Hid Hne Habove Hb. apply evaluate_at.
  - apply tier_lookup_Some. eauto.
  - by apply none_above_lookup.
Qed.

Lemma evaluate_no_entry t f c id :
  context_id t c = Some id → none_above t f c →
  mapping t f !! id = None →
  evaluate f c = evaluate f (set_context_id t None c) ∧
  ∀ t', rank t' ≤ rank t → reason (evaluate f c) ≠ tier_reason t'.
Proof.
  intros Hid Habove Hb.
  assert (tier_lookup t f c = None) as Hnone.
  { apply eq_None_not_Some. intros [b Hsome].
    apply tier_lookup_Some in Hsome as (id' & Hid' & _ & Hb').
    congruence. }
  split; [by apply evaluate_drop_tier|].
  intros t' Hle Hreason. apply evaluate_reason_tier in Hreason as [b Hsome].
  destruct (decide (t' = t)) as [->|Hneq]; [congruence|].
  assert (rank t' < rank t) as Hlt.
  { destruct t, t'; simpl in *; try lia; done. }
  rewrite (none_above_lookup _ _ _ Habove t' Hlt) in Hsome. done.
Qed.

(** Flags that agree on the key and on every tier down to [t] evaluate
    alike as soon as [t] matches. *)
Lemma evaluate_agree_down_to t f f' c :
  key f' = key f →
  (∀ t', rank t' ≤ rank t → mapping t' f' = mapping t' f) →
  matches t f c →
  evaluate f' c = evaluate f c.
Proof.
  intros Hkey Hmaps Hmatch.
  assert (∀ t', rank t' ≤ rank t → tier_lookup t' f' c = tier_lookup t' f c)
    as Hlook.
  { intros t' Hle. unfold tier_lookup. by rewrite Hmaps. }
  apply matches_lookup in Hmatch as [b Hb].
  rewrite !evaluate_tiers. unfold result. rewrite Hkey.
  destruct t; simpl in *.
  - rewrite (Hlook user) by (simpl; lia). by rewrite Hb.
  - rewrite (Hlook user), (Hlook group) by (simpl; lia). by rewrite Hb.
  - rewrite (Hlook user), (Hlook group), (Hlook region) by (simpl; lia).
    by rewrite Hb.
Qed.

Lemma apply_update_below t u f :
  below t u →
  key (MongoDB.apply_update u f) = key f ∧
  ∀ t', rank t' ≤ rank t →
    mapping t' (MongoDB.apply_update u f) = mapping t' f.
Proof.
  intros Hbelow. split; [by destruct u|].
  intros t' Hle.
  destruct u as [b|tu id b|tu id]; simpl in *; [done| |];
    destruct tu, t'; simpl in *; try done; destruct t; simpl in *; lia.
Qed.

(** C1 (as amended). For every flag record and every evaluation context,
    [evaluate] returns one result: its reason is the highest-precedence
    tier (user > group > region) for which the context supplies a
    non-empty identifier present in that tier's override mapping, and its
    enabled value is the boolean stored there; if no tier matches in this
    sense, the reason is global-default and the enabled value is the
    flag's global [enabled] field. *)
Theorem evaluate_precedence_totality f c :
  (∃ t id b,
      context_id t c = Some id ∧ mapping t f !! id = Some b ∧
      matches t f c ∧
      (∀ t', rank t' < rank t → ¬ matches t' f c) ∧
      evaluate f c = result f b (tier_reason t))
  ∨ ((∀ t, ¬ matches t f c) ∧
     evaluate f c = result f (enabled f) global_default).
Proof.
  destruct (first_match f c) as [(t & b & Ht & Habove)|Hnone].
  - left. pose proof Ht as Ht'.
    apply tier_lookup_Some in Ht' as (id & Hid & Hne & Hb).
    exists t, id, b. split_and!; try done.
    + exists id. eauto.
    + intros t' Hlt. apply not_matches_lookup. by apply Habove.
    + by apply evaluate_at.
  - right. split.
    + intros t. apply not_matches_lookup, Hnone.
    + by apply evaluate_default.
Qed.

(** The claim C1 as the specification states it fails where the context
    carries the empty string and the user mapping has the empty string as
    a key: the tier "matches" in the specification's sense, and the engine
    answers with the global default. *)
Lemma precedence_totality_empty_identifier :
  let f := keyed_by_empty false true in
  let c := {| userId := Some []; groupId := None; regionId := None |} in
  spec_matches user f c ∧
  spec_evaluate f c = result f true user_override ∧
  evaluate f c = result f false global_default ∧
  ¬ precedence_totality spec_matches.
Proof.
  intros f c.
  assert (spec_matches user f c) as Hm.
  { exists []. split; [done|]. by exists true. }
  split_and!; [done|done|done|].
  intros H. destruct (H f c) as [(t & id & b & _ & _ & _ & _ & Hev)|[Hnone _]].
  - apply (f_equal reason) in Hev. by destruct t.
  - by apply (Hnone user).
Qed.

(** C2 (as amended). For every flag record, tier and non-empty identifier
    the context supplies for that tier, when no higher-precedence tier
    matches: if the tier's mapping holds the identifier with value false,
    [evaluate] returns that tier's reason with enabled false; if the
    mapping does not hold the identifier, [evaluate] falls through, that
    is, it returns what the context without this identifier gives, with
    the reason of no tier down to this one; and the two cases give
    different results. *)
Theorem evaluate_absence_vs_false f c t id :
  context_id t c = Some id → id ≠ [] → none_above t f c →
  (mapping t f !! id = Some false →
     evaluate f c = result f false (tier_reason t)) ∧
  (mapping t f !! id = None →
     evaluate f c = evaluate f (set_context_id t None c) ∧
     ∀ t', rank t' ≤ rank t → reason (evaluate f c) ≠ tier_reason t') ∧
  (∀ f', none_above t f' c →
     mapping t f !! id = Some false → mapping t f' !! id = None →
     evaluate f c ≠ evaluate f' c).
Proof.
  intros Hid Hne Habove. split_and!.
  - intros Hb. by eapply evaluate_entry.
  - intros Hb. by eapply evaluate_no_entry.
  - intros f' Habove' Hfalse Hnone Heq.
    destruct (evaluate_no_entry t f' c id Hid Habove' Hnone) as [_ Hr].
    apply (Hr t); [done|]. rewrite <- Heq.
    by rewrite (evaluate_entry t f c id false).
Qed.

Lemma evaluate_absence_vs_false_witness :
  evaluate premium (context_of (Some "u1") (Some "enterprise-customers") None)
  = result premium false user_override.
Proof.
  refine (proj1 (evaluate_absence_vs_false premium
            (context_of (Some "u1") (Some "enterprise-customers") None)
            user (js "u1") _ _ _) _).
  - reflexivity.
  - discriminate.
  - intros t' Hlt. simpl in Hlt. lia.
  - vm_compute. reflexivity.
Defined.

(** The claim C2 as stated, for every supplied identifier and every tier,
    fails twice: an entry [false] under the empty string is not returned,
    and an entry [false] of the group tier is not returned when the user
    tier matches. *)
Lemma absence_vs_false_unrestricted :
  (let f := keyed_by_empty true false in
   let c := {| userId := Some []; groupId := None; regionId := None |} in
   context_id user c = Some [] ∧ mapping user f !! [] = Some false ∧
   evaluate f c = result f true global_default) ∧
  (let c := context_of (Some "u1") (Some "g1") None in
   context_id group c = Some (js "g1") ∧
   mapping group shadowed !! js "g1" = Some false ∧
   evaluate shadowed c = result shadowed true user_override) ∧
  ¬ absence_vs_false (λ _, True) none_above ∧
  ¬ absence_vs_false (λ id, id ≠ []) (λ _ _ _, True) ∧
  ¬ absence_vs_false (λ _, True) (λ _ _ _, True).
Proof.
  assert (¬ absence_vs_false (λ _, True) none_above) as H1.
  { intros H.
    destruct (H (keyed_by_empty true false)
                {| userId := Some []; groupId := None; regionId := None |}
                user []) as [Hf _]; try done.
    { intros t' Hlt. simpl in Hlt. lia. }
    specialize (Hf eq_refl). done. }
  assert (¬ absence_vs_false (λ id, id ≠ []) (λ _ _ _, True)) as H2.
  { intros H.
    destruct (H shadowed (context_of (Some "u1") (Some "g1") None)
                group (js "g1")) as [Hf _]; try done.
    specialize (Hf eq_refl). done. }
  split_and!; try done.
  intros H.
  destruct (H shadowed (context_of (Some "u1") (Some "g1") None)
              group (js "g1")) as [Hf _]; try done.
  specialize (Hf eq_refl). done.
Qed.

(** C3 (as amended). For every flag record and context where a tier
    matches with a non-empty identifier, adding, changing or removing an
    entry of any lower-precedence override mapping, or changing the global
    enabled default, leaves the evaluation result unchanged. *)
Theorem evaluate_tier_independence f c t u :
  matches t f c → below t u →
  evaluate (MongoDB.apply_update u f) c = evaluate f c.
Proof.
  intros Hmatch Hbelow.
  destruct (apply_update_below t u f Hbelow) as [Hkey Hmaps].
  by apply (evaluate_agree_down_to t).
Qed.

Lemma evaluate_tier_independence_witness :
  evaluate
    (MongoDB.apply_update
       (MongoDB.UnsetOverride group (js "enterprise-customers")) premium)
    (context_of (Some "u1") (Some "enterprise-customers") None)
  = evaluate premium
      (context_of (Some "u1") (Some "enterprise-customers") None).
Proof.
  apply (evaluate_tier_independence premium _ user).
  - exists (js "u1"). split; [reflexivity|]. split; [discriminate|].
    exists false. vm_compute. reflexivity.
  - simpl. lia.
Defined.

(** The claim C3 as stated, with "matches" read as "the identifier is a
    key of the mapping", fails for the empty string: the user tier holds
    the key, the engine still answers with the global default, and a
    change of the default changes the result. *)
Lemma tier_independence_empty_identifier :
  let f := keyed_by_empty false true in
  let c := {| userId := Some []; groupId := None; regionId := None |} in
  spec_matches user f c ∧
  evaluate f c = result f false global_default ∧
  evaluate (MongoDB.apply_update (MongoDB.SetEnabled true) f) c
    = result f true global_default ∧
  ¬ tier_independence spec_matches.
Proof.
  intros f c.
  assert (spec_matches user f c) as Hm.
  { exists []. split; [done|]. by exists true. }
  split_and!; [done|done|done|].
  intros H. specialize (H f c user (MongoDB.SetEnabled true) Hm I).
  done.
Qed.

(** C4. For every list of flag records and every context,
    [evaluateMultiple] returns a list of the same length whose i-th
    element is [evaluate] applied to the i-th flag and that context; the
    results of a concatenation are the concatenated results, so no flag
    influences another's result. *)
Theorem evaluateMultiple_pointwise (flags : list FeatureFlag) c :
  length (evaluateMultiple flags c) = length flags ∧
  (∀ i : nat,
     evaluateMultiple flags c !! i = (λ flag, evaluate flag c) <$> flags !! i) ∧
  (∀ flags',
     evaluateMultiple (flags ++ flags') c
     = evaluateMultiple flags c ++ evaluateMultiple flags' c).
Proof.
  unfold evaluateMultiple. split_and!.
  - apply length_map.
  - intros i. apply list_lookup_fmap.
  - intros flags'. apply map_app.
Qed.

(** The specification's algorithm selects the entry stored under the empty
    string when the context carries the empty string for the tier and no
    higher tier matches in the specification's sense. *)
Lemma spec_evaluate_empty_identifier f c t :
  is_Some (mapping t f !! []) →
  (∀ t', rank t' < rank t → ¬ spec_matches t' f c) →
  reason (spec_evaluate f (set_context_id t (Some []) c)) = tier_reason t.
Proof.
  intros [b Hb] Habove.
  assert (∀ t', rank t' < rank t →
                context_id t' c ≫= (mapping t' f !!.) = None) as Hnone.
  { intros t' Hlt. apply eq_None_not_Some. intros [b' Hb'].
    apply bind_Some in Hb' as (id & Hid & Hlook).
    apply (Habove t' Hlt). exists id. eauto. }
  unfold spec_evaluate. destruct t; simpl in Hb |- *.
  - by rewrite Hb.
  - pose proof (Hnone user ltac:(simpl; lia)) as Hu. simpl in Hu.
    by rewrite Hu, Hb.
  - pose proof (Hnone user ltac:(simpl; lia)) as Hu.
    pose proof (Hnone group ltac:(simpl; lia)) as Hg. simpl in Hu, Hg.
    by rewrite Hu, Hg, Hb.
Qed.

(** C10. The engine treats an empty-string identifier as an absent one:
    for every flag record, also one whose mapping has the empty string as
    a key, a context carrying the empty string for a tier evaluates as the
    context without that identifier, and the result never has that tier's
    reason.  Where the mapping has the empty string as a key and no higher
    tier matches, the specification's exact-equality match would select the
    tier, and the engine does not. *)
Theorem evaluate_empty_identifier_absent f c t :
  evaluate f (set_context_id t (Some []) c)
    = evaluate f (set_context_id t None c)
  ∧ reason (evaluate f (set_context_id t (Some []) c)) ≠ tier_reason t
  ∧ (is_Some (mapping t f !! []) →
     (∀ t', rank t' < rank t → ¬ spec_matches t' f c) →
     spec_matches t f (set_context_id t (Some []) c) ∧
     reason (spec_evaluate f (set_context_id t (Some []) c)) = tier_reason t ∧
     evaluate f (set_context_id t (Some []) c)
       ≠ spec_evaluate f (set_context_id t (Some []) c)).
Proof.
  assert (evaluate f (set_context_id t (Some []) c)
          = evaluate f (set_context_id t None c)) as Heq.
  { rewrite (evaluate_drop_tier t) by apply tier_lookup_set_empty.
    by destruct t. }
  assert (reason (evaluate f (set_context_id t (Some []) c)) ≠ tier_reason t)
    as Hreason.
  { intros Hr. apply evaluate_reason_tier in Hr as [b Hb].
    by rewrite tier_lookup_set_empty in Hb. }
  split_and!; [done|done|].
  intros Hkey Habove.
  pose proof (spec_evaluate_empty_identifier f c t Hkey Habove) as Hspec.
  split_and!; [|done|].
  - exists []. split; [by destruct t|done].
  - intros Hsame. apply Hreason. by rewrite Hsame.
Qed.

Lemma evaluate_empty_identifier_absent_witness :
  evaluate (keyed_by_empty false true)
    {| userId := Some []; groupId := None; regionId := None |}
  ≠ spec_evaluate (keyed_by_empty false true)
      {| userId := Some []; groupId := None; regionId := None |}.
Proof.
  refine (proj2 (proj2 (proj2 (proj2 (evaluate_empty_identifier_absent
            (keyed_by_empty false true)
            {| userId := None; groupId := None; regionId := None |} user))
            _ _))).
  - exists true. vm_compute. reflexivity.
  - intros t' Hlt. simpl in Hlt. lia.
Defined.

End EvaluatorProperties.

(** ** The validators *)

Section ValidatorProperties.
Import Validators.

Lemma keyPattern_class_spec c : keyPattern_class c = true ↔ key_character c.
Proof.
  unfold keyPattern_class, key_character, ascii_letter, ascii_digit.
  rewrite !orb_true_iff, !andb_true_iff, !N.leb_le, !N.eqb_eq. lia.
Qed.

Lemma key_character_not_whitespace c :
  key_character c → is_whitespace c = false.
Proof.
  intros Hc. unfold is_whitespace.
  apply orb_false_iff. split.
  - apply bool_decide_eq_false. intros Hin.
    unfold key_character, ascii_letter, ascii_digit in Hc.
    repeat (apply elem_of_cons in Hin as [->|Hin]; [lia|]).
    by apply elem_of_nil in Hin.
  - apply andb_false_iff. rewrite !N.leb_gt.
    unfold key_character, ascii_letter, ascii_digit in Hc. lia.
Qed.

Lemma trimStart_head c s :
  is_whitespace c = false → trimStart (c :: s) = c :: s.
Proof. intros Hc. simpl. by rewrite Hc. Qed.

Lemma trimStart_no_whitespace s :
  Forall (λ c, is_whitespace c = false) s → trimStart s = s.
Proof. destruct 1; [done|]. by apply trimStart_head. Qed.

(** [trim] leaves a string without white space as it is. *)
Lemma trim_no_whitespace s :
  Forall (λ c, is_whitespace c = false) s → trim s = s.
Proof.
  intros Hs. unfold trim, trimEnd.
  rewrite (trimStart_no_whitespace s Hs).
  rewrite trimStart_no_whitespace by by apply List.Forall_rev.
  apply rev_involutive.
Qed.

Lemma keyPattern_test_spec s :
  keyPattern_test s = true ↔ s ≠ [] ∧ Forall key_character s.
Proof.
  destruct s as [|c s]; simpl.
  - split; [done|]. by intros [? _].
  - rewrite andb_true_iff, keyPattern_class_spec, forallb_forall.
    rewrite Forall_cons, Forall_forall. split.
    + intros [Hc Hs]. split; [done|]. split; [done|].
      intros x Hx. apply keyPattern_class_spec, Hs. by apply list_elem_of_In.
    + intros [_ [Hc Hs]]. split; [done|].
      intros x Hx. apply keyPattern_class_spec, Hs. by apply list_elem_of_In.
Qed.

Lemma validateFeatureKey_accepts s :
  matches_key_pattern s → validateFeatureKey (JsStr s) = Returned ().
Proof.
  intros [Hchars [Hmin Hmax]]. unfold validateFeatureKey.
  assert (s ≠ []) as Hne by (intros ->; simpl in Hmin; lia).
  rewrite trim_no_whitespace
    by (eapply Forall_impl; [done|]; apply key_character_not_whitespace).
  apply truthy_string_nonempty in Hne as Htruthy. rewrite Htruthy. simpl.
  destruct (Nat.eqb_spec (length s) 0) as [?|_]; [lia|].
  assert (keyPattern_test s = true) as -> by by apply keyPattern_test_spec.
  simpl. destruct (Nat.ltb_spec 100 (length s)); [lia|done].
Qed.

Lemma validateFeatureKey_accepted v :
  validateFeatureKey v = Returned () →
  ∃ s, v = JsStr s ∧ matches_key_pattern s.
Proof.
  destruct v as [| | | |s|]; try discriminate.
  unfold validateFeatureKey. intros H. exists s. split; [done|].
  destruct (truthy_string s) eqn:Htruthy; [|discriminate]. simpl in H.
  destruct (length (trim s) =? 0); [discriminate|].
  destruct (keyPattern_test s) eqn:Htest; [|discriminate]. simpl in H.
  destruct (Nat.ltb_spec 100 (length s)) as [?|Hmax]; [discriminate|].
  apply keyPattern_test_spec in Htest as [Hne Hchars].
  split; [done|]. split; [|done].
  destruct s; [done|simpl; lia].
Qed.

Lemma validateFeatureKey_throws v :
  validateFeatureKey v = Returned () ∨
  ∃ message, validateFeatureKey v = Thrown (ValidationError message).
Proof.
  unfold validateFeatureKey.
  destruct v as [| | | |s|]; eauto.
  repeat match goal with
         | |- context [if ?b then _ else _] => destruct b
         end; eauto.
Qed.

(** C7. [validateFeatureKey] returns on exactly the strings that match
    [[A-Za-z0-9_-]{1,100}] and throws a [ValidationError] on every other
    value. *)
Theorem validateFeatureKey_pattern v :
  (validateFeatureKey v = Returned () ↔
     ∃ s, v = JsStr s ∧ matches_key_pattern s)
  ∧ ((¬ ∃ s, v = JsStr s ∧ matches_key_pattern s) ↔
     ∃ message, validateFeatureKey v = Thrown (ValidationError message)).
Proof.
  assert (validateFeatureKey v = Returned () ↔
          ∃ s, v = JsStr s ∧ matches_key_pattern s) as Hiff.
  { split; [apply validateFeatureKey_accepted|].
    intros (s & -> & Hs). by apply validateFeatureKey_accepts. }
  split; [done|]. rewrite <- Hiff. split.
  - intros Hnot. by destruct (validateFeatureKey_throws v).
  - intros [message Hthrown]. by rewrite Hthrown.
Qed.

(** The validators throw nothing but [ValidationError]s. *)
Lemma validateDescription_throws v e :
  validateDescription v = Thrown e → ∃ message, e = ValidationError message.
Proof.
  unfold validateDescription. destruct v as [| | | |s|]; try (intros [= <-]; eauto).
  destruct (_ && _); intros [= <-]; eauto.
Qed.

Lemma validateEnabledState_throws v e :
  validateEnabledState v = Thrown e → ∃ message, e = ValidationError message.
Proof.
  unfold validateEnabledState. destruct (typeof v); intros [= <-]; eauto.
Qed.

(** [validateOverrideType] throws a [ValidationError], unless the value
    cannot be printed in the message: then the [TypeError] of the
    conversion leaves the validator. *)
Lemma ToString_throws v e :
  ToString v = Thrown e ↔ unprintable v ∧ e = cannot_convert.
Proof.
  unfold unprintable. destruct v as [| | | | |fields]; simpl;
    try (split; [done|by intros [(? & ? & _) _]]).
  case_bool_decide as Hown.
  - split; [intros [= <-]; eauto|]. by intros [_ ->].
  - split; [done|]. by intros [(? & [= <-] & ?) _].
Qed.

Lemma invalid_override_type_throws v :
  (unprintable v ∧ invalid_override_type v = Thrown cannot_convert)
  ∨ (¬ unprintable v ∧
     ∃ message, invalid_override_type v = Thrown (ValidationError message)).
Proof.
  unfold invalid_override_type, mbind, Outcome_bind, and_then.
  destruct (ToString v) as [quoted|e] eqn:Hv.
  - right. split; [|eauto]. intros Hun.
    assert (ToString v = Thrown cannot_convert) as Hthrown
      by by apply ToString_throws.
    congruence.
  - left. apply ToString_throws in Hv as [Hun ->]. done.
Qed.

Lemma validateOverrideType_throws v e :
  validateOverrideType v = Thrown e →
  (unprintable v ∧ e = cannot_convert)
  ∨ (¬ unprintable v ∧ ∃ message, e = ValidationError message).
Proof.
  assert (invalid_override_type v = Thrown e →
          (unprintable v ∧ e = cannot_convert)
          ∨ (¬ unprintable v ∧ ∃ message, e = ValidationError message))
    as Hinvalid.
  { destruct (invalid_override_type_throws v) as [[Hun ->]|[Hun [m ->]]];
      intros [= <-]; eauto. }
  unfold validateOverrideType. destruct v as [| | | |s|]; try done.
  by destruct (find _ _).
Qed.

Lemma validateOverrideId_throws v e :
  validateOverrideId v = Thrown e → ∃ message, e = ValidationError message.
Proof.
  unfold validateOverrideId. destruct v as [| | | |s|]; try (intros [= <-]; eauto).
  repeat match goal with
         | |- context [if ?b then _ else _] => destruct b
         end; intros [= <-]; eauto.
Qed.

Lemma validateFeatureKey_throws_validation v e :
  validateFeatureKey v = Thrown e → ∃ message, e = ValidationError message.
Proof.
  intros He. destruct (validateFeatureKey_throws v) as [Hr|[m Hm]].
  - congruence.
  - exists m. congruence.
Qed.

Lemma validate_if_defined_throws v e :
  validate_if_defined v = Thrown e → ∃ message, e = ValidationError message.
Proof.
  destruct v; try discriminate;
    match goal with
    | |- validate_if_defined ?x = _ → _ => exact (validateOverrideId_throws x e)
    end.
Qed.

Lemma validateEvaluationContext_throws v e :
  validateEvaluationContext v = Thrown e →
  ∃ message, e = ValidationError message.
Proof.
  unfold validateEvaluationContext.
  destruct (_ || _); [intros [= <-]; eauto|].
  destruct (_ && _); [intros [= <-]; eauto|].
  unfold mbind, Outcome_bind, and_then.
  destruct (validate_if_defined (get_field v (js "userId"))) eqn:H1;
    [|intros [= <-]; by eapply validate_if_defined_throws].
  destruct (validate_if_defined (get_field v (js "groupId"))) eqn:H2;
    [|intros [= <-]; by eapply validate_if_defined_throws].
  apply validate_if_defined_throws.
Qed.

(** A context that passes validation carries, for each tier, nothing or a
    non-empty string: the engine is only called on such contexts. *)
Lemma validated_context_nonempty v :
  validateEvaluationContext v = Returned () → nonempty_ids (as_context v).
Proof.
  unfold validateEvaluationContext.
  destruct (_ || _); [discriminate|].
  destruct (_ && _); [discriminate|].
  unfold mbind, Outcome_bind, and_then.
  destruct (validate_if_defined (get_field v (js "userId"))) eqn:H1;
    [|discriminate].
  destruct (validate_if_defined (get_field v (js "groupId"))) eqn:H2;
    [|discriminate].
  intros H3 t Hempty.
  assert (∀ x, validate_if_defined x = Returned () →
               as_optional_string x ≠ Some []) as Hfield.
  { intros [| | | |[|? ?]|]; simpl; done. }
  destruct a, a0.
  destruct t; simpl in Hempty;
    [by apply (Hfield _ H1)|by apply (Hfield _ H2)|by apply (Hfield _ H3)].
Qed.

End ValidatorProperties.

(** ** The service *)

Section ServiceProperties.
Import Validators FeatureService.
Context `{IFeatureRepository R}.
Implicit Types (w : World R) (key context : JsValue).

Lemma bind_lift {Σ A B} (o : Outcome A) (k : A → M Σ B) (σ : Σ) :
  (lift o ≫= k) σ =
    match o with Returned a => k a σ | Thrown e => (Thrown e, σ) end.
Proof. by destruct o. Qed.

Lemma bind_thrown {Σ A B} (m : M Σ A) (k : A → M Σ B) (σ σ' : Σ) e :
  m σ = (Thrown e, σ') → (m ≫= k) σ = (Thrown e, σ').
Proof. intros Hm. unfold mbind, M_bind, bind. by rewrite Hm. Qed.

Lemma bind_returned {Σ A B} (m : M Σ A) (k : A → M Σ B) (σ σ' : Σ) a :
  m σ = (Returned a, σ') → (m ≫= k) σ = k a σ'.
Proof. intros Hm. unfold mbind, M_bind, bind. by rewrite Hm. Qed.

(** [getFeature] on a valid key: one [findByKey], then the record or the
    not-found error. *)
Lemma getFeature_valid key w found s :
  validateFeatureKey key = Returned () →
  repo_findByKey (as_string key) (store w) = (Returned found, s) →
  getFeature key w =
    (match found with
     | Some feature => Returned feature
     | None => Thrown (FeatureNotFoundError (as_string key))
     end,
     {| store := s; trace := trace w ++ [call_findByKey (as_string key)] |}).
Proof.
  intros Hkey Hfind. unfold getFeature.
  rewrite bind_lift, Hkey.
  erewrite bind_returned; last first.
  { unfold repository. by rewrite Hfind. }
  by destruct found.
Qed.

Lemma validateOverrideType_printable v t :
  validateOverrideType v = Returned t → ¬ unprintable v.
Proof.
  intros Hv (fields & -> & Hown). simpl in Hv.
  by destruct (invalid_override_type_throws (JsObject fields))
    as [[_ Ht]|[_ [m Ht]]]; rewrite Ht in Hv.
Qed.

(** What stops an operation before the store is a [ValidationError], or,
    for an override type that cannot be printed, the [TypeError] of the
    message. *)
Lemma first_thrown_kinds r e :
  first_thrown (validations r) = Some e →
  (type_unprintable r ∧ e = cannot_convert)
  ∨ (¬ type_unprintable r ∧ ∃ message, e = ValidationError message).
Proof.
  pose proof validateFeatureKey_throws_validation.
  pose proof validateDescription_throws.
  pose proof validateEnabledState_throws.
  pose proof validateOverrideId_throws.
  pose proof validateEvaluationContext_throws.
  assert (∀ key type rest,
            first_thrown (validateFeatureKey key
                          :: void (validateOverrideType type) :: rest) = Some e →
            (∀ e', first_thrown rest = Some e' →
                   ∃ message, e' = ValidationError message) →
            (valid_key key ∧ unprintable type) ∧ e = cannot_convert
            ∨ ¬ (valid_key key ∧ unprintable type)
              ∧ ∃ message, e = ValidationError message) as Htype.
  { intros key type rest He Hrest.
    destruct (validateFeatureKey key) as [[]|e0] eqn:Hkey;
      [destruct (validateOverrideType type) as [t|e0] eqn:Htype|];
      simpl in He.
    - right. split; [|by apply Hrest].
      intros [_ Hun]. by apply (validateOverrideType_printable _ _ Htype).
    - injection He as <-. apply validateFeatureKey_accepted in Hkey.
      destruct (validateOverrideType_throws _ _ Htype) as [[? ->]|[? ?]];
        [by left|right]. split; [tauto|done].
    - injection He as <-. right. split; [|eauto].
      intros [(s & -> & Hs) _].
      by rewrite (validateFeatureKey_accepts s Hs) in Hkey. }
  intros Hthrown.
  destruct r as [key d en|key|key c|key en|key type id en|key type id|key];
    cbn [validations type_unprintable] in *; revert Hthrown.
  1-4,7: right; split; [tauto|]; revert Hthrown; simpl;
    repeat match goal with
           | |- context [match ?o with Returned _ => _ | Thrown _ => _ end] =>
               destruct o eqn:?
           end;
    intros [= <-] || done; eauto.
  - intros He. apply (Htype _ _ _ He). simpl. intros e'.
    destruct (validateOverrideId id) eqn:?; [|intros [= <-]; eauto].
    destruct (validateEnabledState en) eqn:?; [done|intros [= <-]; eauto].
  - intros He. apply (Htype _ _ _ He). simpl. intros e'.
    destruct (validateOverrideId id) eqn:?; [done|intros [= <-]; eauto].
Qed.

Lemma perform_invalid r w e :
  first_thrown (validations r) = Some e → perform r w = (Thrown e, w).
Proof.
  destruct r; simpl;
    [intros He; apply bind_thrown; revert He ..| | | | ];
    unfold createFeature, getFeature, evaluateFeature,
      updateGlobalState, addOrUpdateOverride, removeOverride, deleteFeature;
    repeat (rewrite bind_lift;
            match goal with
            | |- match void ?o with Returned _ => _ | Thrown _ => _ end = _ → _ =>
                destruct o eqn:?
            | |- match ?o with Returned _ => _ | Thrown _ => _ end = _ → _ =>
                destruct o eqn:?
            end; simpl; [|by intros [= ->]]);
    done.
Qed.

(** Conversely, an input that passes every check of the operation
    reaches the repository: the first call the operation makes is a
    repository call.  So the checks listed in [validations] are all that can
    stop an operation before the store, and [getAllFeatures], which has
    none, always reaches it. *)
Lemma discard_world {A} (m : M (World R) A) w : (discard m w).2 = (m w).2.
Proof.
  unfold discard, mbind, M_bind, bind. by destruct (m w) as [[?|?] ?].
Qed.

Lemma perform_valid r w :
  first_thrown (validations r) = None →
  ∃ c rest, trace (perform r w).2 = trace w ++ c :: rest
            ∧ is_repository_call c = true.
Proof.
  destruct r; simpl; rewrite ?discard_world;
    unfold createFeature, evaluateFeature, updateGlobalState,
      addOrUpdateOverride, removeOverride, deleteFeature, getFeature;
    repeat (rewrite bind_lift;
            match goal with
            | |- match void ?o with Returned _ => _ | Thrown _ => _ end = _ → _ =>
                destruct o eqn:?
            | |- match ?o with Returned _ => _ | Thrown _ => _ end = _ → _ =>
                destruct o eqn:?
            end; simpl; [|done]);
    intros _;
    unfold mbind, M_bind, bind, repository, evaluator, lift, throw, mret,
      M_ret, ret;
    repeat match goal with
           | H : ?v = Returned _ |- context [?v] => rewrite H
           | |- context [let '(_, _) := ?m (store w) in _] =>
               destruct (m (store w)) as [[?|?] ?]
           | |- context [match ?x with Some _ => _ | None => _ end] =>
               destruct x
           | |- context [let '(_, _) := ?m ?s in _] =>
               destruct (m s) as [[?|?] ?]
           | _ => progress simpl
           end;
    rewrite <- ?app_assoc; simpl; eauto.
Qed.

Lemma getAllFeatures_reaches_store w :
  trace (getAllFeatures w).2 = trace w ++ [call_findAll].
Proof.
  unfold getAllFeatures, repository. by destruct (repo_findAll (store w)).
Qed.


(** C5. For every well-formed key and valid context: when the store has no
    record for the key ([findByKey] answers null), [evaluateFeature] throws
    [FeatureNotFoundError] after the one lookup, without a call to the
    evaluation engine; when the record exists, it returns the engine's
    result for that record and the context. *)
Theorem evaluateFeature_found_or_not key context w :
  validateFeatureKey key = Returned () →
  validateEvaluationContext context = Returned () →
  (∀ s, repo_findByKey (as_string key) (store w) = (Returned None, s) →
     evaluateFeature key context w =
       (Thrown (FeatureNotFoundError (as_string key)),
        {| store := s;
           trace := trace w ++ [call_findByKey (as_string key)] |}))
  ∧ (∀ feature s,
       repo_findByKey (as_string key) (store w) = (Returned (Some feature), s) →
       evaluateFeature key context w =
         (Returned (evaluate feature (as_context context)),
          {| store := s;
             trace := trace w ++ [call_findByKey (as_string key);
                                  call_evaluate feature (as_context context)] |})).
Proof.
  intros Hkey Hcontext. split.
  - intros s Hfind. unfold evaluateFeature.
    rewrite bind_lift, Hkey, bind_lift, Hcontext.
    apply bind_thrown. by rewrite (getFeature_valid key w None s).
  - intros feature s Hfind. unfold evaluateFeature.
    rewrite bind_lift, Hkey, bind_lift, Hcontext.
    erewrite bind_returned
      by by rewrite (getFeature_valid key w (Some feature) s).
    unfold evaluator. simpl. by rewrite <- app_assoc.
Qed.

(** Through the service the engine only sees validated contexts, and on
    those it computes the specification's algorithm. *)
Lemma evaluateFeature_spec_evaluate key context w feature s :
  validateFeatureKey key = Returned () →
  validateEvaluationContext context = Returned () →
  repo_findByKey (as_string key) (store w) = (Returned (Some feature), s) →
  (evaluateFeature key context w).1 =
    Returned (spec_evaluate feature (as_context context)).
Proof.
  intros Hkey Hcontext Hfind.
  unfold evaluateFeature.
  rewrite bind_lift, Hkey, bind_lift, Hcontext.
  erewrite bind_returned
    by by rewrite (getFeature_valid key w (Some feature) s).
  unfold evaluator. simpl. f_equal.
  by apply evaluate_spec_evaluate, validated_context_nonempty.
Qed.

End ServiceProperties.

Section ServiceWitnesses.
Import Validators FeatureService.



Lemma evaluateFeature_found_or_not_witness :
  evaluateFeature (JsStr (js "dark-mode"))
    (JsObject [(js "userId", JsStr (js "u1"))]) sample_world
  = (Thrown (FeatureNotFoundError (js "dark-mode")),
     {| store := sample_collection;
        trace := [call_findByKey (js "dark-mode")] |}).
Proof.
  refine (proj1 (evaluateFeature_found_or_not (JsStr (js "dark-mode"))
            (JsObject [(js "userId", JsStr (js "u1"))]) sample_world _ _)
            sample_collection _).
  - vm_compute. reflexivity.
  - vm_compute. reflexivity.
  - vm_compute. reflexivity.
Defined.

End ServiceWitnesses.

(** ** The cache *)

Section CacheProperties.
Context `{RedisClient C} (env_ttl : Z).
Implicit Types (σ : RedisCache.t C) (key value : JsString).

Lemma unavailable_cases σ :
  RedisCache.unavailable σ = true ↔
  RedisCache.isEnabled σ = false ∨ RedisCache.client σ = None
  ∨ RedisCache.isConnected σ = false.
Proof.
  unfold RedisCache.unavailable.
  rewrite !orb_true_iff, !negb_true_iff, bool_decide_eq_false.
  rewrite <- eq_None_not_Some. tauto.
Qed.

(** A command in a [try] whose handler returns [fallback]: the call
    returns, with the command's value or with the fallback, and the flags
    of the cache are untouched. *)
Lemma guarded_command {A} (command : M C A) (fallback : A) σ :
  ∃ a σ',
    try_catch (RedisCache.on_client command) (λ _, mret fallback) σ
      = (Returned a, σ') ∧
    RedisCache.isEnabled σ' = RedisCache.isEnabled σ ∧
    RedisCache.isConnected σ' = RedisCache.isConnected σ ∧
    (∀ c e c', RedisCache.client σ = Some c → command c = (Thrown e, c') →
               a = fallback).
Proof.
  unfold try_catch, RedisCache.on_client.
  destruct (RedisCache.client σ) as [c|] eqn:Hc.
  - destruct (command c) as [[a|e] c'] eqn:Hcmd; simpl.
    + eexists _, _. split_and!; try done.
      intros c0 e c0' [= <-]. by rewrite Hcmd.
    + eexists _, _. split_and!; done.
  - simpl. eexists _, _. split_and!; done.
Qed.

Lemma get_returns key σ :
  ∃ v σ',
    RedisCache.get key σ = (Returned v, σ') ∧
    RedisCache.isEnabled σ' = RedisCache.isEnabled σ ∧
    RedisCache.isConnected σ' = RedisCache.isConnected σ ∧
    (RedisCache.unavailable σ = true → v = None ∧ σ' = σ) ∧
    (∀ c e c', RedisCache.unavailable σ = false →
               RedisCache.client σ = Some c →
               client_get key c = (Thrown e, c') → v = None).
Proof.
  unfold RedisCache.get.
  destruct (RedisCache.unavailable σ) eqn:Hun.
  { eexists _, _. split_and!; done. }
  destruct (guarded_command (client_get key) None σ)
    as (v & σ' & Hrun & He & Hc & Hfail).
  exists v, σ'. split_and!; try done.
  - rewrite <- Hrun. unfold try_catch, mbind, M_bind, bind.
    destruct (RedisCache.on_client (client_get key) σ) as [[?|?] ?]; done.
  - intros c e c' _. apply Hfail.
Qed.

Lemma set_returns key value ttlSeconds σ :
  ∃ σ',
    RedisCache.set env_ttl key value ttlSeconds σ = (Returned (), σ') ∧
    RedisCache.isEnabled σ' = RedisCache.isEnabled σ ∧
    RedisCache.isConnected σ' = RedisCache.isConnected σ ∧
    (RedisCache.unavailable σ = true → σ' = σ).
Proof.
  unfold RedisCache.set.
  destruct (RedisCache.unavailable σ) eqn:Hun.
  { eexists. split_and!; done. }
  match goal with
  | |- context [try_catch (RedisCache.on_client ?cmd) _ σ] =>
      destruct (guarded_command cmd () σ) as ([] & σ' & Hrun & He & Hc & _)
  end.
  exists σ'. split_and!; done.
Qed.

Lemma delete_returns key σ :
  ∃ σ',
    RedisCache.delete key σ = (Returned (), σ') ∧
    RedisCache.isEnabled σ' = RedisCache.isEnabled σ ∧
    RedisCache.isConnected σ' = RedisCache.isConnected σ ∧
    (RedisCache.unavailable σ = true → σ' = σ).
Proof.
  unfold RedisCache.delete.
  destruct (RedisCache.unavailable σ) eqn:Hun.
  { eexists. split_and!; done. }
  destruct (guarded_command (client_del key) () σ)
    as ([] & σ' & Hrun & He & Hc & _).
  exists σ'. split_and!; done.
Qed.

(** C9. For every cache key and value, whatever the redis client does,
    [get], [set] and [delete] return to their caller and never throw.  When
    the cache is disabled, has no client or is disconnected, [get] returns
    null and [set] and [delete] return, all three with the cache untouched.
    Otherwise the command goes to the client: [get] returns the client's
    answer, or null when the client rejects; [set] and [delete] return
    whether the client accepts or rejects; and nothing of the cache has
    changed but the state the client itself is left in: it is still enabled
    and connected. *)
Theorem cache_failures_not_propagated key value ttlSeconds σ :
  let down :=
    RedisCache.isEnabled σ = false ∨ RedisCache.client σ = None
    ∨ RedisCache.isConnected σ = false in
  let ttl := match ttlSeconds with
             | Some n => if (n =? 0)%Z then env_ttl else n
             | None => env_ttl
             end in
  (down →
     RedisCache.get key σ = (Returned None, σ)
     ∧ RedisCache.set env_ttl key value ttlSeconds σ = (Returned (), σ)
     ∧ RedisCache.delete key σ = (Returned (), σ))
  ∧ (¬ down →
     ∃ c, RedisCache.client σ = Some c
       ∧ RedisCache.get key σ =
           (Returned match (client_get key c).1 with
                     | Returned v => v
                     | Thrown _ => None
                     end,
            answered_by σ (client_get key c).2)
       ∧ RedisCache.set env_ttl key value ttlSeconds σ =
           (Returned (), answered_by σ (client_setEx key ttl value c).2)
       ∧ RedisCache.delete key σ =
           (Returned (), answered_by σ (client_del key c).2))
  ∧ (∀ c', RedisCache.isEnabled (answered_by σ c') = RedisCache.isEnabled σ
           ∧ RedisCache.isConnected (answered_by σ c')
             = RedisCache.isConnected σ
           ∧ RedisCache.client (answered_by σ c') = Some c').
Proof.
  intros down ttl. split; [|split; [|done]].
  - intros Hdown. apply unavailable_cases in Hdown.
    unfold RedisCache.get, RedisCache.set, RedisCache.delete.
    by rewrite Hdown.
  - intros Hup.
    assert (RedisCache.unavailable σ = false) as Hun.
    { apply not_true_iff_false. by rewrite unavailable_cases. }
    destruct (RedisCache.client σ) as [c|] eqn:Hc;
      [|exfalso; apply Hup; right; by left].
    exists c. split; [done|].
    unfold RedisCache.get, RedisCache.set, RedisCache.delete.
    rewrite Hun.
    unfold try_catch, mbind, M_bind, bind, RedisCache.on_client, answered_by.
    rewrite Hc. fold ttl. split_and!.
    + by destruct (client_get key c) as [[v|e] c'].
    + by destruct (client_setEx key ttl value c) as [[[]|e] c'].
    + by destruct (client_del key c) as [[[]|e] c'].
Qed.

End CacheProperties.

(** ** The repository *)

Arguments trim : simpl never.

Section RepositoryProperties.
Import MongoDB.
Implicit Types (db : Collection) (k id : JsString) (type : OverrideType).
Implicit Types (doc feature : FeatureFlag) (e : Exception).

(** [trim] is idempotent: a trimmed key is its own filter. *)
Lemma trimStart_fixed s : trimStart (trimStart s) = trimStart s.
Proof.
  induction s as [|c s IH]; simpl; [done|].
  destruct (is_whitespace c) eqn:Hc; [done|]. simpl. by rewrite Hc.
Qed.

Lemma trimStart_starts s c r : trimStart s = c :: r → is_whitespace c = false.
Proof.
  induction s as [|x s IH]; simpl; [done|].
  destruct (is_whitespace x) eqn:Hx; [done|]. by intros [= <- _].
Qed.

Lemma trimStart_ends l c :
  is_whitespace c = false → ∃ l', trimStart (l ++ [c]) = l' ++ [c].
Proof.
  intros Hc. induction l as [|x l IH]; simpl.
  - rewrite Hc. by exists [].
  - destruct (is_whitespace x); [done|]. by exists (x :: l).
Qed.

Lemma trim_idempotent s : trim (trim s) = trim s.
Proof.
  unfold trim, trimEnd.
  destruct (trimStart s) as [|c r] eqn:Hs; [done|].
  pose proof (trimStart_starts _ _ _ Hs) as Hc.
  destruct (trimStart_ends (rev r) c Hc) as [l' Hl'].
  change (rev (c :: r)) with (rev r ++ [c]). rewrite Hl'.
  rewrite rev_app_distr. simpl. rewrite Hc.
  change (rev (c :: rev l')) with (rev (rev l') ++ [c]).
  rewrite rev_involutive, <- Hl', trimStart_fixed, Hl'.
  by rewrite rev_app_distr.
Qed.

Lemma documents_written docs db : documents (written docs db) = docs.
Proof. done. Qed.

Lemma fault_written docs db : fault (written docs db) = fault db.
Proof. done. Qed.

Lemma key_saved t feature :
  key (FeatureRepository.toDomain (saved_document t feature))
  = trim (key feature).
Proof. done. Qed.

(** What each method does, case by case: the driver rejects the query, no
    document is stored under the (trimmed) key, or there is one. *)
Lemma update_cases db k u message :
  try_catch
    (matchedCount ← updateOne k u;
     if (matchedCount =? 0)%nat then throw (FeatureNotFoundError k)
     else mret ())
    (FeatureRepository.rethrow message) db =
  match fault db with
  | Some e => (Thrown (rethrown message e), db)
  | None =>
      match documents db !! trim k with
      | Some doc =>
          (Returned (),
           written (<[trim k := updated_document (now db) u doc]>
                      (documents db)) db)
      | None => (Thrown (FeatureNotFoundError k), db)
      end
  end.
Proof.
  unfold try_catch, mbind, M_bind, bind, updateOne, exec.
  destruct (fault db) as [e|] eqn:Hfault.
  - by destruct e.
  - by destruct (documents db !! trim k).
Qed.

Lemma updateGlobalState_cases db k b :
  FeatureRepository.updateGlobalState k b db =
  match fault db with
  | Some e => (Thrown (rethrown "Failed to update feature state" e), db)
  | None =>
      match documents db !! trim k with
      | Some doc =>
          (Returned (),
           written (<[trim k := updated_document (now db) (SetEnabled b) doc]>
                      (documents db)) db)
      | None => (Thrown (FeatureNotFoundError k), db)
      end
  end.
Proof. apply update_cases. Qed.

Lemma addOrUpdateOverride_cases db k type id b :
  FeatureRepository.addOrUpdateOverride k type id b db =
  match fault db with
  | Some e => (Thrown (rethrown "Failed to add override" e), db)
  | None =>
      match documents db !! trim k with
      | Some doc =>
          (Returned (),
           written (<[trim k :=
                        updated_document (now db) (SetOverride type id b) doc]>
                      (documents db)) db)
      | None => (Thrown (FeatureNotFoundError k), db)
      end
  end.
Proof. apply update_cases. Qed.

Lemma removeOverride_cases db k type id :
  FeatureRepository.removeOverride k type id db =
  match fault db with
  | Some e => (Thrown (rethrown "Failed to remove override" e), db)
  | None =>
      match documents db !! trim k with
      | Some doc =>
          (Returned (),
           written (<[trim k :=
                        updated_document (now db) (UnsetOverride type id) doc]>
                      (documents db)) db)
      | None => (Thrown (FeatureNotFoundError k), db)
      end
  end.
Proof. apply update_cases. Qed.

Lemma delete_cases db k :
  FeatureRepository.delete k db =
  match fault db with
  | Some e => (Thrown (rethrown "Failed to delete feature flag" e), db)
  | None =>
      match documents db !! trim k with
      | Some doc => (Returned (), written (delete (trim k) (documents db)) db)
      | None => (Thrown (FeatureNotFoundError k), db)
      end
  end.
Proof.
  unfold FeatureRepository.delete, try_catch, mbind, M_bind, bind,
    deleteOne, exec.
  destruct (fault db) as [e|] eqn:Hfault.
  - by destruct e.
  - by destruct (documents db !! trim k).
Qed.

Lemma findByKey_cases db k :
  FeatureRepository.findByKey k db =
  match fault db with
  | Some e => (Thrown (DatabaseError "Failed to find feature flag" e), db)
  | None =>
      (Returned (FeatureRepository.toDomain <$> documents db !! trim k), db)
  end.
Proof.
  unfold FeatureRepository.findByKey, try_catch, mbind, M_bind, bind,
    findOne, exec.
  by destruct (fault db).
Qed.

Lemma findAll_cases db :
  FeatureRepository.findAll db =
  match fault db with
  | Some e => (Thrown (DatabaseError "Failed to retrieve feature flags" e), db)
  | None =>
      (Returned
         (map FeatureRepository.toDomain
            (merge_sort (λ d1 d2, key_le (key d1) (key d2))
               (snd <$> map_to_list (documents db)))),
       db)
  end.
Proof.
  unfold FeatureRepository.findAll, try_catch, mbind, M_bind, bind,
    find_sorted, exec.
  by destruct (fault db).
Qed.

Lemma create_cases db feature :
  FeatureRepository.create feature db =
  if negb (schema_valid (new_document feature)) then
    (Thrown (DatabaseError "Failed to create feature flag"
               (LibraryError "FeatureFlag validation failed" None)), db)
  else
    match fault db with
    | Some e =>
        (Thrown (if decide (error_code e = Some 11000%Z)
                 then DuplicateFeatureError (key feature)
                 else DatabaseError "Failed to create feature flag" e), db)
    | None =>
        match documents db !! trim (key feature) with
        | Some _ => (Thrown (DuplicateFeatureError (key feature)), db)
        | None =>
            let saved := saved_document (now db) feature in
            (Returned (FeatureRepository.toDomain saved),
             written (<[trim (key feature) := saved]> (documents db)) db)
        end
    end.
Proof.
  unfold FeatureRepository.create, try_catch, mbind, M_bind, bind, save.
  fold (new_document feature).
  destruct (schema_valid (new_document feature)); simpl; [|done].
  destruct (fault db) as [e|] eqn:Hfault.
  - unfold throw. by destruct (decide (error_code e = Some 11000%Z)).
  - by destruct (documents db !! trim (key feature)).
Qed.

Lemma findByKey_healthy db k :
  fault db = None →
  FeatureRepository.findByKey k db =
    (Returned (FeatureRepository.toDomain <$> documents db !! trim k), db).
Proof. intros Hok. by rewrite findByKey_cases, Hok. Qed.

(** What [$unset] does to a record: the entry is gone from the named
    mapping, and everything else is as before. *)
Lemma unset_mapping type id doc :
  mapping type (apply_update (UnsetOverride type id) doc)
    = delete id (mapping type doc).
Proof.
  destruct type; simpl; try done.
  destruct (regions (overrides doc)); simpl; [done|].
  by rewrite delete_empty.
Qed.

Lemma unset_other_mapping type t' id doc :
  t' ≠ type →
  mapping t' (apply_update (UnsetOverride type id) doc) = mapping t' doc.
Proof. by destruct type, t'. Qed.

Lemma mapping_touched t type doc :
  mapping type (touched t doc) = mapping type doc.
Proof. by destruct type. Qed.

Lemma service_removeOverride_healthy
    (w : World Collection) (key type id : JsValue) t :
  fault (store w) = None →
  Validators.validateFeatureKey key = Returned () →
  Validators.validateOverrideType type = Returned t →
  Validators.validateOverrideId id = Returned () →
  FeatureService.removeOverride key type id w =
    match documents (store w) !! trim (as_string key) with
    | Some doc =>
        (Returned (),
         {| store :=
              written
                (<[trim (as_string key) :=
                     updated_document (now (store w))
                       (UnsetOverride t (as_string id)) doc]>
                   (documents (store w))) (store w);
            trace := trace w ++
              [call_findByKey (as_string key);
               call_removeOverride (as_string key) t (as_string id)] |})
    | None =>
        (Thrown (FeatureNotFoundError (as_string key)),
         {| store := store w;
            trace := trace w ++ [call_findByKey (as_string key)] |})
    end.
Proof.
  intros Hok Hkey Htype Hid. unfold FeatureService.removeOverride.
  rewrite bind_lift, Hkey, bind_lift, Htype, bind_lift, Hid.
  pose proof (getFeature_valid key w
                (FeatureRepository.toDomain <$>
                   documents (store w) !! trim (as_string key)) (store w) Hkey
                (findByKey_healthy _ _ Hok)) as Hget.
  destruct (documents (store w) !! trim (as_string key)) as [doc|] eqn:Hdoc;
    simpl in Hget.
  - erewrite bind_returned by exact Hget.
    unfold FeatureService.repository. cbn [store trace].
    change (repo_removeOverride (as_string key) t (as_string id) (store w))
      with (FeatureRepository.removeOverride (as_string key) t (as_string id)
              (store w)).
    rewrite removeOverride_cases, Hok, Hdoc.
    by rewrite <- app_assoc.
  - by erewrite bind_thrown by exact Hget.
Qed.

(** With the MongoDB repository, "the store holds no record" is "the
    collection has no document under the key". *)
Lemma evaluateFeature_no_document (w : World Collection) (key context : JsValue) :
  fault (store w) = None →
  Validators.validateFeatureKey key = Returned () →
  Validators.validateEvaluationContext context = Returned () →
  documents (store w) !! trim (as_string key) = None →
  FeatureService.evaluateFeature key context w =
    (Thrown (FeatureNotFoundError (as_string key)),
     {| store := store w;
        trace := trace w ++ [call_findByKey (as_string key)] |}).
Proof.
  intros Hok Hkey Hcontext Hnone. unfold FeatureService.evaluateFeature.
  rewrite bind_lift, Hkey, bind_lift, Hcontext.
  apply bind_thrown.
  rewrite (getFeature_valid key w None (store w)); [done|done|].
  change (repo_findByKey (as_string key) (store w))
    with (FeatureRepository.findByKey (as_string key) (store w)).
  rewrite findByKey_healthy by done. by rewrite Hnone.
Qed.




End RepositoryProperties.

(** ** The repository behind the cache *)

Section CachedRepositoryProperties.
Import MongoDB CachedFeatureRepository.
Context `{RedisClient C} `{JSON} (env_ttl : Z).
Implicit Types (σ : Store (C := C)) (k id : JsString) (type : OverrideType).

(** Whatever the state of the cache and of the redis client, the cached
    [removeOverride] returns or throws as the plain one does and leaves
    the same collection. *)
Lemma cached_removeOverride σ k type id :
  fault (db σ) = None →
  (removeOverride k type id σ).1
    = (FeatureRepository.removeOverride k type id (db σ)).1
  ∧ db (removeOverride k type id σ).2
    = (FeatureRepository.removeOverride k type id (db σ)).2.
Proof.
  intros Hok. rewrite removeOverride_cases, Hok.
  unfold removeOverride, try_catch, mbind, M_bind, bind, model, updateOne, exec.
  rewrite Hok.
  destruct (documents (db σ) !! trim k) as [doc|]; simpl; [|done].
  unfold this_cache. simpl.
  match goal with
  | |- context [RedisCache.delete ?key ?c] =>
      destruct (delete_returns key c) as (c' & -> & _)
  end.
  done.
Qed.

End CachedRepositoryProperties.

(** ** Scenarios of the specification and of the test suites *)

Section Scenarios.
Import Validators FeatureService.

(** Global default: [dark-mode] created disabled, evaluated for [u1]. *)
Example scenario_global_default :
  fst ((createFeature (str "dark-mode") (str "Dark mode") (JsBoolean false);;
   evaluateFeature (str "dark-mode") (user_context "u1")) empty_world)
  = Returned (result (flag_with "dark-mode" false ∅ ∅ None) false global_default).
Proof. vm_compute. reflexivity. Qed.

(** Full hierarchy: the user entry wins over the group entry. *)
Example scenario_full_hierarchy :
  fst ((createFeature (str "premium") (str "Premium") (JsBoolean false);;
   addOrUpdateOverride (str "premium") (str "group")
     (str "enterprise-customers") (JsBoolean true);;
   addOrUpdateOverride (str "premium") (str "user") (str "u1")
     (JsBoolean false);;
   evaluateFeature (str "premium")
     (JsObject [(js "userId", str "u1");
                (js "groupId", str "enterprise-customers")])) empty_world)
  = Returned (result premium false user_override).
Proof. vm_compute. reflexivity. Qed.

(** Round trip: default, user override, default again after removal. *)
Example scenario_round_trip :
  fst ((createFeature (str "beta") (str "Beta") (JsBoolean false);;
   r1 ← evaluateFeature (str "beta") (user_context "u1");
   addOrUpdateOverride (str "beta") (str "user") (str "u1") (JsBoolean true);;
   r2 ← evaluateFeature (str "beta") (user_context "u1");
   removeOverride (str "beta") (str "user") (str "u1");;
   r3 ← evaluateFeature (str "beta") (user_context "u1");
   mret [(reason r1, res_enabled r1); (reason r2, res_enabled r2);
         (reason r3, res_enabled r3)]) empty_world)
  = Returned [(global_default, false); (user_override, true);
              (global_default, false)].
Proof. vm_compute. reflexivity. Qed.

(** Not found: a key that was never created. *)
Example scenario_not_found :
  fst (evaluateFeature (str "never-created") (user_context "u1") empty_world)
  = Thrown (FeatureNotFoundError (js "never-created")).
Proof. vm_compute. reflexivity. Qed.

(** Duplicate create: the second call is a conflict. *)
Example scenario_duplicate_create :
  fst ((createFeature (str "dark-mode") (str "Dark mode") (JsBoolean false);;
   createFeature (str "dark-mode") (str "Dark mode") (JsBoolean true))
    empty_world)
  = Thrown (DuplicateFeatureError (js "dark-mode")).
Proof. vm_compute. reflexivity. Qed.

(** Removing an entry that is not there is no error. *)
Example scenario_remove_absent_entry :
  fst ((createFeature (str "beta") (str "Beta") (JsBoolean false);;
   removeOverride (str "beta") (str "region") (str "eu-west")) empty_world)
  = Returned ().
Proof. vm_compute. reflexivity. Qed.

(** tests/unit/validators.test.ts *)
Example validators_accept :
  Forall (λ o, o = Returned ())
    [validateFeatureKey (str "valid-key"); validateFeatureKey (str "valid_key");
     validateFeatureKey (str "validKey123"); validateFeatureKey (str "VALID-KEY");
     validateDescription (str "Valid description"); validateDescription (str "");
     validateDescription JsUndefined;
     validateEnabledState (JsBoolean true); validateEnabledState (JsBoolean false);
     validateOverrideId (str "user-123"); validateOverrideId (str "group_beta");
     validateEvaluationContext (user_context "user-123");
     validateEvaluationContext
       (JsObject [(js "userId", str "user-123"); (js "groupId", str "group-1");
                  (js "regionId", str "us-west")])].
Proof. repeat constructor. Qed.

Example validators_reject :
  Forall (λ o, ∃ message, o = Thrown (ValidationError message))
    [validateFeatureKey (str ""); validateFeatureKey (str "   ");
     validateFeatureKey (str "invalid key"); validateFeatureKey (str "invalid@key");
     validateFeatureKey (str "invalid.key"); validateFeatureKey (str "invalid/key");
     validateFeatureKey (JsStr (replicate 101 97%N));
     validateFeatureKey JsNull; validateFeatureKey JsUndefined;
     validateFeatureKey (JsNumber 123);
     validateDescription (JsStr (replicate 501 97%N));
     validateDescription (JsNumber 123); validateDescription (JsObject []);
     validateEnabledState (str "true"); validateEnabledState (JsNumber 1);
     validateEnabledState JsNull; validateEnabledState JsUndefined;
     void (validateOverrideType (str "invalid"));
     void (validateOverrideType (str "USER"));
     void (validateOverrideType (str ""));
     validateOverrideId (str ""); validateOverrideId (str "   ");
     validateOverrideId (JsStr (replicate 101 97%N));
     validateOverrideId JsNull; validateOverrideId (JsNumber 123);
     validateEvaluationContext (JsObject []);
     validateEvaluationContext JsNull; validateEvaluationContext (str "invalid");
     validateEvaluationContext (JsObject [(js "userId", str "")]);
     validateEvaluationContext (JsObject [(js "groupId", str "   ")]);
     validateEvaluationContext
       (JsObject [(js "regionId", JsStr (replicate 101 97%N))])].
Proof. repeat constructor; vm_compute; eauto. Qed.

End Scenarios.


(** ** More on the validators *)

Section ValidatorDomains.
Import Validators.

Lemma trimStart_nil_iff s : trimStart s = [] ↔ Forall (λ c, is_whitespace c = true) s.
Proof.
  induction s as [|c s IH]; simpl.
  - split; [constructor|done].
  - destruct (is_whitespace c) eqn:Hc.
    + rewrite IH. split; [by constructor|]. by inversion 1.
    + split; [done|]. inversion 1; congruence.
Qed.

Lemma trimStart_snoc l c :
  is_whitespace c = false → trimStart (l ++ [c]) ≠ [].
Proof.
  intros Hc. induction l as [|x l IH]; simpl.
  - by rewrite Hc.
  - by destruct (is_whitespace x).
Qed.

Lemma trimStart_head_inv s c r :
  trimStart s = c :: r → is_whitespace c = false.
Proof.
  induction s as [|x s IH]; simpl; [done|].
  destruct (is_whitespace x) eqn:Hx; [done|]. by intros [= <- _].
Qed.

(** [trim] yields the empty string exactly on strings of white space. *)
Lemma trim_nil_iff s : trim s = [] ↔ Forall (λ c, is_whitespace c = true) s.
Proof.
  unfold trim, trimEnd. rewrite <- trimStart_nil_iff.
  destruct (trimStart s) as [|c r] eqn:Hs; [done|].
  split; [|done]. intros Hnil. exfalso.
  apply trimStart_head_inv in Hs.
  apply (f_equal (@rev N)) in Hnil. rewrite rev_involutive in Hnil.
  simpl in Hnil. by apply (trimStart_snoc (rev r) c).
Qed.

Lemma not_all_whitespace s :
  ¬ Forall (λ c, is_whitespace c = true) s ↔
  Exists (λ c, is_whitespace c = false) s.
Proof.
  induction s as [|c s IH].
  - rewrite Exists_nil. split; [|done]. intros H. apply H. constructor.
  - rewrite Forall_cons, Exists_cons, <- IH.
    destruct (is_whitespace c); split.
    + intros H. right. intros Hs. by apply H.
    + intros [?|Hn] [_ Hs]; [done|by apply Hn].
    + intros _. by left.
    + by intros _ [? _].
Qed.

Lemma validateOverrideId_Returned v :
  validateOverrideId v = Returned () ↔ valid_id v.
Proof.
  unfold valid_id, valid_override_id. split.
  - destruct v as [| | | |s|]; try discriminate.
    unfold validateOverrideId. intros H. exists s. split; [done|].
    destruct (truthy_string s) eqn:Htruthy; [|discriminate]. simpl in H.
    destruct (Nat.eqb_spec (length (trim s)) 0) as [|Htrim]; [discriminate|].
    destruct (Nat.ltb_spec 100 (length s)); [discriminate|].
    split.
    + destruct s; [done|simpl in *; lia].
    + apply not_all_whitespace. rewrite <- trim_nil_iff.
      intros Hnil. by rewrite Hnil in Htrim.
  - intros (s & -> & [Hmin Hmax] & Hws). unfold validateOverrideId.
    assert (truthy_string s = true) as ->
      by (destruct s; [simpl in Hmin; lia|done]).
    simpl. apply not_all_whitespace in Hws. rewrite <- trim_nil_iff in Hws.
    destruct (Nat.eqb_spec (length (trim s)) 0) as [Hz|_].
    { by apply length_zero_iff_nil in Hz. }
    destruct (Nat.ltb_spec 100 (length s)); [lia|done].
Qed.

(** X1. [validateOverrideId] returns on exactly the strings of one to a
    hundred code units that are not white space throughout, and throws a
    [ValidationError] on every other value. *)
Theorem validateOverrideId_domain v :
  (validateOverrideId v = Returned () ↔
     ∃ s, v = JsStr s ∧ 1 ≤ length s ≤ 100 ∧
          Exists (λ c, is_whitespace c = false) s)
  ∧ (validateOverrideId v = Returned () ∨
     ∃ message, validateOverrideId v = Thrown (ValidationError message)).
Proof.
  split; [apply validateOverrideId_Returned|].
  destruct (validateOverrideId v) as [[]|e] eqn:Hv; [by left|right].
  destruct (validateOverrideId_throws v e Hv) as [m ->]. eauto.
Qed.

Lemma validateFeatureKey_Returned v :
  validateFeatureKey v = Returned () ↔ valid_key v.
Proof.
  split; [apply validateFeatureKey_accepted|].
  intros (s & -> & Hs). by apply validateFeatureKey_accepts.
Qed.

Lemma validateDescription_Returned v :
  validateDescription v = Returned () ↔ valid_description v.
Proof.
  unfold valid_description, validateDescription. split.
  - destruct v as [| | | |s|]; try discriminate; [by left|].
    destruct (truthy_string s) eqn:Ht; simpl.
    + destruct (Nat.ltb_spec 500 (length s)); [discriminate|].
      intros _. right. eauto.
    + destruct s; [|done]. intros _. right. exists []. simpl. split; [done|lia].
  - intros [->|(s & -> & Hlen)]; [done|].
    destruct (Nat.ltb_spec 500 (length s)); [lia|].
    by rewrite andb_false_r.
Qed.

Lemma validateEnabledState_Returned v :
  validateEnabledState v = Returned () ↔ is_boolean v.
Proof.
  unfold is_boolean, validateEnabledState. split.
  - destruct v; try discriminate. eauto.
  - by intros [b ->].
Qed.

Lemma validateOverrideType_name t :
  validateOverrideType (JsStr (type_name t)) = Returned t.
Proof. by destruct t. Qed.

Lemma validateOverrideType_Returned v t :
  validateOverrideType v = Returned t ↔ v = JsStr (type_name t).
Proof.
  split; [|intros ->; apply validateOverrideType_name].
  assert (invalid_override_type v ≠ Returned t) as Hinvalid.
  { by destruct (invalid_override_type_throws v) as [[_ ->]|[_ [m ->]]]. }
  destruct v as [| | | |s|]; try done.
  unfold validateOverrideType, validTypes. simpl.
  repeat case_bool_decide; simpl; try done; intros [= <-]; by subst.
Qed.

Lemma invalid_override_type_message v quoted :
  ToString v = Returned quoted →
  invalid_override_type v =
    Thrown (ValidationError
      (js "Invalid override type '" ++ quoted
       ++ js "'. Must be one of: user, group, region")).
Proof.
  intros Hv. unfold invalid_override_type, mbind, Outcome_bind, and_then.
  rewrite Hv. do 4 f_equal.
Qed.


Lemma validate_if_defined_Returned v :
  validate_if_defined v = Returned () ↔ valid_context_field v.
Proof.
  unfold valid_context_field. split.
  - destruct v as [| | | |s|]; try (by left); intros Hv; right;
      by apply validateOverrideId_Returned.
  - intros [->|Hid]; [done|].
    apply validateOverrideId_Returned in Hid as Hv.
    destruct Hid as (s & -> & _). done.
Qed.

Lemma valid_context_field_truthy v :
  valid_context_field v → truthy v = true ↔ v ≠ JsUndefined.
Proof.
  intros [->|(s & -> & [Hmin _] & _)]; simpl; [done|].
  destruct s; [simpl in Hmin; lia|done].
Qed.

(** [!value || typeof value !== "object"] lets exactly the objects through. *)
Lemma object_guard v :
  negb (truthy v) || negb (bool_decide (typeof v = ty_object)) = false ↔
  ∃ fields, v = JsObject fields.
Proof.
  split.
  - destruct v as [| |b|n|s|fields]; simpl; try done.
    + by rewrite orb_true_r.
    + by rewrite orb_true_r.
    + by rewrite orb_true_r.
    + eauto.
  - by intros [fields ->].
Qed.

Lemma validateEvaluationContext_Returned v :
  validateEvaluationContext v = Returned () ↔
    (∃ fields, v = JsObject fields) ∧
    Forall valid_context_field (context_fields v) ∧
    Exists (λ field, field ≠ JsUndefined) (context_fields v).
Proof.
  unfold validateEvaluationContext, context_fields.
  rewrite !Forall_cons, !Exists_cons, Forall_nil, Exists_nil.
  rewrite <- !validate_if_defined_Returned, <- object_guard.
  unfold mbind, Outcome_bind, and_then.
  destruct (negb (truthy v) || _) eqn:Hguard.
  { split; [done|]. by intros [? _]. }
  set (u := get_field v (js "userId")).
  set (g := get_field v (js "groupId")).
  set (r := get_field v (js "regionId")).
  split.
  - destruct (validate_if_defined u) as [[]|] eqn:Hu; last first.
    { by destruct (_ && _). }
    destruct (validate_if_defined g) as [[]|] eqn:Hg; last first.
    { by destruct (_ && _). }
    destruct (_ && _) eqn:Hnone; [discriminate|].
    intros Hr. split; [done|]. split; [done|].
    apply validate_if_defined_Returned in Hu, Hg, Hr.
    apply valid_context_field_truthy in Hu, Hg, Hr.
    rewrite !andb_false_iff, !negb_false_iff in Hnone. tauto.
  - intros (_ & (Hu & Hg & Hr & _) & Hsome).
    rewrite Hu, Hg.
    apply validate_if_defined_Returned in Hu as Hu', Hg as Hg', Hr as Hr'.
    apply valid_context_field_truthy in Hu', Hg', Hr'.
    destruct (_ && _) eqn:Hnone; [|done].
    rewrite !andb_true_iff, !negb_true_iff in Hnone.
    destruct Hnone as [[Hnu Hng] Hnr].
    rewrite <- not_true_iff_false in Hnu, Hng, Hnr. tauto.
Qed.

(** X3. [validateEvaluationContext] returns on exactly the objects whose
    [userId], [groupId] and [regionId] are each missing or a valid override
    identifier, with at least one of them present; a [null] field, an empty
    string or a non-string is rejected.  It throws a [ValidationError] on
    every other value. *)
Theorem validateEvaluationContext_domain v :
  (validateEvaluationContext v = Returned () ↔
     (∃ fields, v = JsObject fields) ∧
     Forall valid_context_field (context_fields v) ∧
     Exists (λ field, field ≠ JsUndefined) (context_fields v))
  ∧ (validateEvaluationContext v = Returned () ∨
     ∃ message, validateEvaluationContext v = Thrown (ValidationError message)).
Proof.
  split; [apply validateEvaluationContext_Returned|].
  destruct (validateEvaluationContext v) as [[]|e] eqn:Hv; [by left|right].
  destruct (validateEvaluationContext_throws v e Hv) as [m ->]. eauto.
Qed.

End ValidatorDomains.

(** ** More on the service's input checks *)

Section ServiceDomains.
Import Validators FeatureService.
Context `{IFeatureRepository R}.

Lemma first_thrown_None checks :
  first_thrown checks = None ↔ Forall (λ o, o = Returned ()) checks.
Proof.
  induction checks as [|[[]|e] checks IH]; simpl.
  - split; [constructor|done].
  - rewrite IH. split; [by constructor|]. by inversion 1.
  - split; [done|]. by inversion 1.
Qed.

Lemma void_validateOverrideType_Returned v :
  void (validateOverrideType v) = Returned () ↔ valid_type v.
Proof.
  unfold valid_type. split.
  - destruct (validateOverrideType v) as [t|] eqn:Hv; [|done].
    intros _. exists t. by apply validateOverrideType_Returned.
  - intros [t ->]. by rewrite validateOverrideType_name.
Qed.

Lemma validations_acceptable r :
  first_thrown (validations r) = None ↔ acceptable r.
Proof.
  rewrite first_thrown_None.
  destruct r; simpl; rewrite !Forall_cons, Forall_nil;
    rewrite ?validateFeatureKey_Returned, ?validateDescription_Returned,
      ?validateEnabledState_Returned, ?void_validateOverrideType_Returned,
      ?validateOverrideId_Returned;
    try tauto.
  rewrite validateEvaluationContext_Returned. unfold valid_context. tauto.
Qed.


(** X5. [validateCreateFeatureRequest] accepts exactly the request bodies
    that are objects whose [key], [description] and [enabled] fields
    [createFeature] accepts. *)
Theorem validateCreateFeatureRequest_domain data :
  validateCreateFeatureRequest data = Returned () ↔
  (∃ fields, data = JsObject fields) ∧
  acceptable (CreateFeature (get_field data (js "key"))
                (get_field data (js "description"))
                (get_field data (js "enabled"))).
Proof.
  unfold validateCreateFeatureRequest. rewrite <- object_guard.
  rewrite <- validations_acceptable, first_thrown_None. simpl.
  rewrite !Forall_cons, Forall_nil.
  unfold mbind, Outcome_bind, and_then.
  destruct (negb (truthy data) || _).
  { split; [done|]. by intros [? _]. }
  destruct (validateFeatureKey _) as [[]|]; [|split; [done|]; by intros (_&?&_)].
  destruct (validateDescription _) as [[]|];
    [|split; [done|]; by intros (_&_&?&_)].
  destruct (validateEnabledState _) as [[]|];
    [|split; [done|]; by intros (_&_&_&?&_)].
  done.
Qed.

End ServiceDomains.


(** ** More on the repository *)

Section RepositoryLaws.
Import MongoDB.
Implicit Types (db : Collection) (k id : JsString) (type : OverrideType).
Implicit Types (doc feature : FeatureFlag) (e : Exception).

Lemma rethrown_store_error message e : store_error (rethrown message e).
Proof. by destruct e. Qed.

Lemma run_discard {A} (m : M Collection A) db :
  ((_ ← m; mret ()) db).2 = (m db).2
  ∧ ∀ e, ((_ ← m; mret ()) db).1 = Thrown e ↔ (m db).1 = Thrown e.
Proof.
  unfold mbind, M_bind, bind. destruct (m db) as [[a|e'] db']; simpl.
  - split; [done|]. intros e. split; discriminate.
  - split; [done|]. intros e. split; by intros [= ->].
Qed.

(** X6. No method of the repository lets a driver's error out as it is:
    whatever it throws is a [FeatureNotFoundError], a
    [DuplicateFeatureError] or a [DatabaseError].  A
    [DuplicateFeatureError] comes from [create] only, and the two reads
    throw nothing but a [DatabaseError]. *)
Theorem repository_error_kinds (c : Call) db e :
  (repo_run c db).1 = Thrown e →
  store_error e
  ∧ (∀ k, e = DuplicateFeatureError k → ∃ feature, c = call_create feature)
  ∧ ((∃ k, c = call_findByKey k) ∨ c = call_findAll →
     ∃ message cause, e = DatabaseError message cause).
Proof.
  destruct c; simpl;
    change repo_create with FeatureRepository.create;
    change repo_findByKey with FeatureRepository.findByKey;
    change repo_findAll with FeatureRepository.findAll;
    change repo_updateGlobalState with FeatureRepository.updateGlobalState;
    change repo_addOrUpdateOverride with FeatureRepository.addOrUpdateOverride;
    change repo_removeOverride with FeatureRepository.removeOverride;
    change repo_delete with FeatureRepository.delete;
    rewrite ?(proj2 (run_discard _ _));
    rewrite ?create_cases, ?findByKey_cases, ?findAll_cases,
      ?updateGlobalState_cases, ?addOrUpdateOverride_cases,
      ?removeOverride_cases, ?delete_cases; simpl.
  - destruct (schema_valid _); simpl.
    + destruct (fault db) as [e0|].
      * destruct (decide (error_code e0 = Some 11000%Z)); simpl; intros [= <-];
          split_and!; try done; eauto.
        intros [[? [=]]|[=]].
      * destruct (documents db !! _); simpl; intros [= <-].
        split_and!; try done; eauto. intros [[? [=]]|[=]].
    + intros [= <-]. split_and!; try done. intros [[? [=]]|[=]].
  - destruct (fault db) as [e0|]; simpl; intros [= <-].
    split_and!; try done; eauto.
  - destruct (fault db) as [e0|]; simpl; intros [= <-].
    split_and!; try done; eauto.
  - destruct (fault db) as [e0|]; [|destruct (documents db !! trim k)]; simpl;
      intros [= <-]; split_and!; try done;
      try apply rethrown_store_error;
      try (intros [[? [=]]|[=]]); by destruct e0.
  - destruct (fault db) as [e0|]; [|destruct (documents db !! trim k)]; simpl;
      intros [= <-]; split_and!; try done;
      try apply rethrown_store_error;
      try (intros [[? [=]]|[=]]); by destruct e0.
  - destruct (fault db) as [e0|]; [|destruct (documents db !! trim k)]; simpl;
      intros [= <-]; split_and!; try done;
      try apply rethrown_store_error;
      try (intros [[? [=]]|[=]]); by destruct e0.
  - destruct (fault db) as [e0|]; [|destruct (documents db !! trim k)]; simpl;
      intros [= <-]; split_and!; try done;
      try apply rethrown_store_error;
      try (intros [[? [=]]|[=]]); by destruct e0.
  - done.
Qed.

Lemma repository_error_kinds_witness :
  store_error (FeatureNotFoundError (js "dark-mode")).
Proof.
  refine (proj1 (repository_error_kinds (call_delete (js "dark-mode"))
            sample_collection (FeatureNotFoundError (js "dark-mode")) _)).
  vm_compute. reflexivity.
Defined.

Lemma run_discard_outcome {A} (m : M Collection A) db :
  ((_ ← m; mret ()) db).1 =
    match (m db).1 with Returned _ => Returned () | Thrown e => Thrown e end.
Proof. unfold mbind, M_bind, bind. by destruct (m db) as [[a|e'] db']. Qed.

Ltac repository_cases :=
  simpl;
  change repo_create with FeatureRepository.create;
  change repo_findByKey with FeatureRepository.findByKey;
  change repo_findAll with FeatureRepository.findAll;
  change repo_updateGlobalState with FeatureRepository.updateGlobalState;
  change repo_addOrUpdateOverride with FeatureRepository.addOrUpdateOverride;
  change repo_removeOverride with FeatureRepository.removeOverride;
  change repo_delete with FeatureRepository.delete;
  rewrite ?(proj1 (run_discard _ _)), ?run_discard_outcome;
  rewrite ?create_cases, ?findByKey_cases, ?findAll_cases,
    ?updateGlobalState_cases, ?addOrUpdateOverride_cases,
    ?removeOverride_cases, ?delete_cases; simpl.

Ltac repository_split db :=
  repeat match goal with
         | |- context [schema_valid ?d] => destruct (schema_valid d)
         | |- context [decide (error_code ?e = ?x)] =>
             destruct (decide (error_code e = x))
         | |- context [fault db] => destruct (fault db)
         | |- context [documents db !! ?k] =>
             destruct (documents db !! k) eqn:Hdoc
         end; simpl.

(** X7. A repository call that throws has written nothing: the collection
    is exactly as it was before the call. *)
Theorem repository_failure_writes_nothing (c : Call) db e :
  (repo_run c db).1 = Thrown e → (repo_run c db).2 = db.
Proof.
  destruct c; repository_cases;
    repository_split db; done.
Qed.

Lemma repository_failure_writes_nothing_witness :
  (repo_run (call_addOrUpdateOverride (js "dark-mode") user (js "u1") true)
     sample_collection).2 = sample_collection.
Proof.
  refine (repository_failure_writes_nothing
            (call_addOrUpdateOverride (js "dark-mode") user (js "u1") true)
            sample_collection (FeatureNotFoundError (js "dark-mode")) _).
  vm_compute. reflexivity.
Defined.

Lemma findByKey_state db k : (FeatureRepository.findByKey k db).2 = db.
Proof. rewrite findByKey_cases. by destruct (fault db). Qed.

Lemma findAll_state db : (FeatureRepository.findAll db).2 = db.
Proof. rewrite findAll_cases. by destruct (fault db). Qed.

(** X8. The two reads, [findByKey] and [findAll], never change the
    collection, whether they return or throw. *)
Theorem repository_reads_write_nothing db k :
  (FeatureRepository.findByKey k db).2 = db
  ∧ (FeatureRepository.findAll db).2 = db.
Proof.
  rewrite findByKey_cases, findAll_cases. by destruct (fault db).
Qed.

Lemma apply_update_key u doc : key (apply_update u doc) = key doc.
Proof. by destruct u. Qed.

Lemma keyed_insert db k doc :
  keyed db → key doc = k →
  keyed (written (<[k := doc]> (documents db)) db).
Proof.
  intros Hkeyed Hkey k' doc'. simpl. rewrite lookup_insert.
  case_decide as Hk; [by intros [= <-]; subst|]. apply Hkeyed.
Qed.

(** X9. Every method keeps each document filed under its own key: if the
    collection has this property before a call, it has it after the call,
    whether the call returns or throws. *)
Theorem repository_keeps_keys (c : Call) db :
  keyed db → keyed (repo_run c db).2.
Proof.
  intros Hkeyed.
  destruct c; repository_cases;
    repository_split db; try done.
  - by apply keyed_insert.
  - apply keyed_insert; [done|]. simpl. exact (Hkeyed _ _ Hdoc).
  - apply keyed_insert; [done|]. simpl. exact (Hkeyed _ _ Hdoc).
  - apply keyed_insert; [done|]. simpl. exact (Hkeyed _ _ Hdoc).
  - intros k' doc'. simpl. rewrite lookup_delete.
    case_decide; [done|]. apply Hkeyed.
Qed.

Lemma repository_keeps_keys_witness :
  keyed (repo_run (call_addOrUpdateOverride (js "premium") region (js "eu") true)
           sample_collection).2.
Proof.
  apply repository_keeps_keys.
  intros k doc. unfold sample_collection. simpl.
  rewrite lookup_singleton. case_decide as Hk; [|discriminate].
  intros [= <-]. exact Hk.
Defined.

(** X10. Only [create] and [delete] change the set of keys: a returning
    [create] adds the trimmed key of its argument, a returning [delete]
    removes the key it was given, trimmed as the schema trims the key of a
    filter, and every other call leaves the set as it was. *)
Theorem repository_key_set (c : Call) db :
  dom (documents (repo_run c db).2) =
    match c, (repo_run c db).1 with
    | call_create feature, Returned _ =>
        {[ trim (key feature) ]} ∪ dom (documents db)
    | call_delete k, Returned _ => dom (documents db) ∖ {[ trim k ]}
    | _, _ => dom (documents db)
    end.
Proof.
  destruct c; repository_cases;
    repository_split db; try done.
  - by rewrite dom_insert_L.
  - rewrite dom_insert_L. apply elem_of_dom_2 in Hdoc. set_solver.
  - rewrite dom_insert_L. apply elem_of_dom_2 in Hdoc. set_solver.
  - rewrite dom_insert_L. apply elem_of_dom_2 in Hdoc. set_solver.
  - by rewrite dom_delete_L.
Qed.

Lemma mapping_toDomain t doc :
  mapping t (FeatureRepository.toDomain doc) = mapping t doc.
Proof. by destruct t. Qed.

Lemma toDomain_idempotent doc :
  FeatureRepository.toDomain (FeatureRepository.toDomain doc)
  = FeatureRepository.toDomain doc.
Proof. done. Qed.

(** What a returning [create] says about the collection before it. *)
Lemma create_Returned db feature f' db' :
  FeatureRepository.create feature db = (Returned f', db') →
  schema_valid (new_document feature) = true ∧ fault db = None ∧
  documents db !! trim (key feature) = None ∧
  f' = FeatureRepository.toDomain (saved_document (now db) feature) ∧
  db' = written (<[trim (key feature) := saved_document (now db) feature]>
                   (documents db)) db.
Proof.
  rewrite create_cases.
  destruct (schema_valid _); simpl; [|done].
  destruct (fault db); [done|].
  destruct (documents db !! trim (key feature)); [done|].
  by intros [= <- <-].
Qed.



Lemma set_entry_mapping type id b doc t :
  mapping t (apply_update (SetOverride type id b) doc) =
    if decide (t = type) then <[id := b]> (mapping t doc) else mapping t doc.
Proof. by destruct type, t. Qed.

(** The record [findByKey] shows after an update of the document [doc]. *)
Lemma updated_mapping now u doc t :
  mapping t (FeatureRepository.toDomain (updated_document now u doc))
  = mapping t (apply_update u doc).
Proof. by destruct t. Qed.





(** X14. Delete.  When [delete] returns, [findByKey] returns null for the
    key, however it is spelt (white space around a key is trimmed in a
    filter), every other key reads as before, and a second [delete] of the
    key is a [FeatureNotFoundError]. *)
Theorem delete_then_findByKey db k db' :
  FeatureRepository.delete k db = (Returned (), db') →
  (∀ k', trim k' = trim k →
     FeatureRepository.findByKey k' db' = (Returned None, db'))
  ∧ (∀ k', trim k' ≠ trim k →
       FeatureRepository.findByKey k' db' =
         ((FeatureRepository.findByKey k' db).1, db'))
  ∧ FeatureRepository.delete k db' = (Thrown (FeatureNotFoundError k), db').
Proof.
  rewrite delete_cases.
  destruct (fault db) eqn:Hok; [done|].
  destruct (documents db !! trim k) as [doc|] eqn:Hdoc; [|done].
  intros [= <-]. split_and!.
  - intros k' Hsame. rewrite findByKey_cases, fault_written, documents_written.
    by rewrite Hok, Hsame, lookup_delete_eq.
  - intros k' Hne. rewrite !findByKey_cases. rewrite ?fault_written, ?documents_written.
    rewrite Hok. cbn [fst]. by rewrite lookup_delete_ne.
  - rewrite delete_cases. rewrite ?fault_written, ?documents_written.
    by rewrite Hok, lookup_delete_eq.
Qed.

Lemma delete_then_findByKey_witness :
  FeatureRepository.findByKey (js " premium")
    (FeatureRepository.delete (js "premium ") sample_collection).2
  = (Returned None,
     (FeatureRepository.delete (js "premium ") sample_collection).2).
Proof.
  refine (proj1 (delete_then_findByKey sample_collection (js "premium ") _ _)
            (js " premium") _).
  - vm_compute. reflexivity.
  - vm_compute. reflexivity.
Defined.

Lemma key_le_total a b : key_le a b = true ∨ key_le b a = true.
Proof.
  revert b. induction a as [|x a IH]; intros [|y b]; simpl; auto.
  destruct (IH b) as [H|H]; rewrite H, ?andb_true_r;
    destruct (N.ltb_spec x y), (N.ltb_spec y x),
      (N.eqb_spec x y), (N.eqb_spec y x); simpl; auto; lia.
Qed.

Lemma key_le_trans a b c :
  key_le a b = true → key_le b c = true → key_le a c = true.
Proof.
  revert b c. induction a as [|x a IH]; intros [|y b] [|z c]; simpl; auto;
    try discriminate.
  rewrite !orb_true_iff, !andb_true_iff, !N.ltb_lt, !N.eqb_eq.
  intros [Hxy|[-> Hab]] [Hyz|[-> Hbc]]; try (left; lia).
  right. split; [done|]. by eapply IH.
Qed.

#[local] Instance by_key_total :
  Total (λ d1 d2 : FeatureFlag, Is_true (key_le (key d1) (key d2))).
Proof.
  intros d1 d2. destruct (key_le_total (key d1) (key d2)) as [H|H];
    rewrite H; simpl; auto.
Qed.

#[local] Instance by_key_transitive :
  Transitive (λ d1 d2 : FeatureFlag, Is_true (key_le (key d1) (key d2))).
Proof.
  intros d1 d2 d3 H12 H23. apply Is_true_true in H12, H23.
  apply Is_true_true. by eapply key_le_trans.
Qed.

(** X15. [findAll], on a collection whose keys are ASCII (all that
    [validateFeatureKey] admits; the order of the encoded keys is then the
    order of their code units): when it returns, it lists every document of
    the collection exactly once, each in its domain form, in ascending
    order of the keys (a prefix first), and leaves the collection as it
    was. *)
Theorem findAll_sorted_complete db features db' :
  (∀ k doc, documents db !! k = Some doc → ascii_key (key doc)) →
  FeatureRepository.findAll db = (Returned features, db') →
  db' = db
  ∧ StronglySorted (λ f1 f2, key_le (key f1) (key f2)) features
  ∧ features ≡ₚ
      FeatureRepository.toDomain <$> (snd <$> map_to_list (documents db))
  ∧ (∀ f, f ∈ features ↔
          ∃ k doc, documents db !! k = Some doc
                   ∧ f = FeatureRepository.toDomain doc)
  ∧ length features = size (documents db).
Proof.
  intros _.
  rewrite findAll_cases. destruct (fault db); [done|]. intros [= <- <-].
  set (R := λ d1 d2 : FeatureFlag, Is_true (key_le (key d1) (key d2))).
  set (docs := snd <$> map_to_list (documents db)).
  assert (merge_sort R docs ≡ₚ docs) as Hperm by apply merge_sort_Permutation.
  split_and!.
  - done.
  - apply (StronglySorted_fmap _ R); [done|].
    apply StronglySorted_merge_sort; apply _.
  - change (map FeatureRepository.toDomain (merge_sort R docs))
      with (FeatureRepository.toDomain <$> merge_sort R docs).
    by rewrite Hperm.
  - intros f.
    change (map FeatureRepository.toDomain (merge_sort R docs))
      with (FeatureRepository.toDomain <$> merge_sort R docs).
    rewrite Hperm, list_elem_of_fmap. unfold docs.
    setoid_rewrite list_elem_of_fmap. split.
    + intros (doc & -> & [k doc'] & -> & Hin%elem_of_map_to_list). eauto.
    + intros (k & doc & Hdoc & ->). exists doc. split; [done|].
      exists (k, doc). split; [done|]. by apply elem_of_map_to_list.
  - rewrite length_map, Hperm. unfold docs.
    by rewrite length_fmap, length_map_to_list.
Qed.

Lemma findAll_sorted_complete_witness :
  StronglySorted (λ f1 f2, key_le (key f1) (key f2))
    [FeatureRepository.toDomain
       (saved_document 0%Z (flag_with "beta" true ∅ ∅ None)); premium].
Proof.
  refine (proj1 (proj2 (findAll_sorted_complete
            (FeatureRepository.create (flag_with "beta" true ∅ ∅ None)
               sample_collection).2
            [FeatureRepository.toDomain
               (saved_document 0%Z (flag_with "beta" true ∅ ∅ None)); premium]
            (FeatureRepository.create (flag_with "beta" true ∅ ∅ None)
               sample_collection).2 _ _))).
  - intros k doc.
    assert (documents (FeatureRepository.create
                         (flag_with "beta" true ∅ ∅ None) sample_collection).2
            = <[js "beta" := saved_document 0%Z (flag_with "beta" true ∅ ∅ None)]>
                (<[js "premium" := premium]> ∅)) as ->
      by (vm_compute; reflexivity).
    intros [[_ <-]|[_ [[_ <-]|[_ Hdoc]]%lookup_insert_Some]]%lookup_insert_Some;
      [| |done]; apply (bool_decide_unpack _); vm_compute; exact I.
  - vm_compute. reflexivity.
Defined.

End RepositoryLaws.

(** ** More on the repository behind the cache *)

Section CachedRepositoryLaws.
Import MongoDB CachedFeatureRepository.
Context `{RedisClient C} `{JSON} (env_ttl : Z).
Implicit Types (σ : Store (C := C)) (k id : JsString) (type : OverrideType).

Lemma store_eta σ : {| db := db σ; cache := cache σ |} = σ.
Proof. by destruct σ. Qed.

Lemma cached_update_cases σ k u message :
  try_catch
    (matchedCount ← model (updateOne k u);
     if (matchedCount =? 0)%nat then throw (FeatureNotFoundError k)
     else this_cache (RedisCache.delete (CACHE_KEY_PREFIX ++ k)))
    (rethrow message) σ =
  match fault (db σ) with
  | Some e => (Thrown (rethrown message e), σ)
  | None =>
      match documents (db σ) !! trim k with
      | Some doc =>
          (Returned (),
           {| db := written (<[trim k := updated_document (now (db σ)) u doc]>
                               (documents (db σ))) (db σ);
              cache := (RedisCache.delete (CACHE_KEY_PREFIX ++ k) (cache σ)).2 |})
      | None => (Thrown (FeatureNotFoundError k), σ)
      end
  end.
Proof.
  unfold try_catch, mbind, M_bind, bind, model, updateOne, exec.
  destruct (fault (db σ)) as [e|] eqn:Hfault.
  - rewrite store_eta. by destruct e.
  - destruct (documents (db σ) !! trim k); cbn -[CACHE_KEY_PREFIX].
    + unfold this_cache. cbn -[CACHE_KEY_PREFIX].
      destruct (delete_returns (CACHE_KEY_PREFIX ++ k) (cache σ))
        as (c' & Hdel & _).
      by rewrite Hdel.
    + by rewrite store_eta.
Qed.

Lemma cached_delete_cases σ k :
  delete k σ =
  match fault (db σ) with
  | Some e => (Thrown (rethrown "Failed to delete feature flag" e), σ)
  | None =>
      match documents (db σ) !! trim k with
      | Some doc =>
          (Returned (),
           {| db := written (base.delete (trim k) (documents (db σ))) (db σ);
              cache := (RedisCache.delete (CACHE_KEY_PREFIX ++ k) (cache σ)).2 |})
      | None => (Thrown (FeatureNotFoundError k), σ)
      end
  end.
Proof.
  unfold delete, try_catch, mbind, M_bind, bind, model, deleteOne, exec.
  destruct (fault (db σ)) as [e|] eqn:Hfault.
  - rewrite store_eta. by destruct e.
  - destruct (documents (db σ) !! trim k); cbn -[CACHE_KEY_PREFIX].
    + unfold this_cache. cbn -[CACHE_KEY_PREFIX].
      destruct (delete_returns (CACHE_KEY_PREFIX ++ k) (cache σ))
        as (c' & Hdel & _).
      by rewrite Hdel.
    + by rewrite store_eta.
Qed.

Lemma cached_create σ feature :
  create feature σ =
    ((FeatureRepository.create feature (db σ)).1,
     {| db := (FeatureRepository.create feature (db σ)).2; cache := cache σ |}).
Proof.
  rewrite create_cases.
  unfold create, try_catch, mbind, M_bind, bind, model, save.
  fold (new_document feature). cbn -[CACHE_KEY_PREFIX].
  destruct (schema_valid (new_document feature)); cbn -[CACHE_KEY_PREFIX];
    [|by rewrite store_eta].
  destruct (fault (db σ)) as [e|] eqn:Hfault.
  - unfold throw.
    destruct (decide (error_code e = Some 11000%Z)); cbn; by rewrite store_eta.
  - match goal with
    | |- context [documents (db σ) !! ?x] => destruct (documents (db σ) !! x)
    end; cbn; by rewrite ?store_eta.
Qed.

Lemma cached_findAll σ :
  findAll σ = ((FeatureRepository.findAll (db σ)).1, σ).
Proof.
  rewrite findAll_cases.
  unfold findAll, try_catch, mbind, M_bind, bind, model, find_sorted, exec.
  destruct (fault (db σ)) as [e|] eqn:Hfault; cbn -[CACHE_KEY_PREFIX].
  - by rewrite store_eta.
  - by rewrite store_eta.
Qed.

Lemma cached_findByKey_cases σ k v c1 :
  RedisCache.get (CACHE_KEY_PREFIX ++ k) (cache σ) = (Returned v, c1) →
  findByKey env_ttl k σ =
  match cache_hit v with
  | Some text =>
      (match JSON_parse text with
       | Returned feature => Returned (Some feature)
       | Thrown e => Thrown (DatabaseError "Failed to find feature flag" e)
       end,
       {| db := db σ; cache := c1 |})
  | None =>
      match fault (db σ) with
      | Some e =>
          (Thrown (DatabaseError "Failed to find feature flag" e),
           {| db := db σ; cache := c1 |})
      | None =>
          match documents (db σ) !! trim k with
          | Some doc =>
              (Returned (Some (FeatureRepository.toDomain doc)),
               {| db := db σ;
                  cache :=
                    (RedisCache.set env_ttl (CACHE_KEY_PREFIX ++ k)
                       (JSON_stringify (FeatureRepository.toDomain doc))
                       None c1).2 |})
          | None => (Returned None, {| db := db σ; cache := c1 |})
          end
      end
  end.
Proof.
  intros Hget.
  unfold findByKey, try_catch, mbind, M_bind, bind, this_cache.
  rewrite Hget.
  assert (∀ c0 : RedisCache.t C,
            {| db := db {| db := db σ; cache := c0 |};
               cache := cache {| db := db σ; cache := c0 |} |}
            = {| db := db σ; cache := c0 |}) as Heta by done.
  destruct v as [[|x text]|]; cbn -[CACHE_KEY_PREFIX].
  - unfold model, findOne, exec. cbn -[CACHE_KEY_PREFIX].
    destruct (fault (db σ)) as [e|] eqn:Hfault; [done|].
    destruct (documents (db σ) !! trim k) as [doc|]; cbn -[CACHE_KEY_PREFIX];
      [|done].
    destruct (set_returns env_ttl (CACHE_KEY_PREFIX ++ k)
                (JSON_stringify (FeatureRepository.toDomain doc)) None c1)
      as (c2 & Hset & _).
    by rewrite Hset.
  - unfold lift. by destruct (JSON_parse (x :: text)).
  - unfold model, findOne, exec. cbn -[CACHE_KEY_PREFIX].
    destruct (fault (db σ)) as [e|] eqn:Hfault; [done|].
    destruct (documents (db σ) !! trim k) as [doc|]; cbn -[CACHE_KEY_PREFIX];
      [|done].
    destruct (set_returns env_ttl (CACHE_KEY_PREFIX ++ k)
                (JSON_stringify (FeatureRepository.toDomain doc)) None c1)
      as (c2 & Hset & _).
    by rewrite Hset.
Qed.

(** X17. Cache-aside read.  [findByKey] never changes the collection.  On
    a hit (the cache answers with a non-empty text) it returns the parsed
    text, or a [DatabaseError] if the text does not parse, without a query
    to the collection: a failing store does not fail the read.  On a miss
    it returns or throws exactly as the repository without a cache does,
    whatever becomes of the write to the cache. *)
Theorem cached_findByKey σ k v c1 :
  RedisCache.get (CACHE_KEY_PREFIX ++ k) (cache σ) = (Returned v, c1) →
  db (findByKey env_ttl k σ).2 = db σ
  ∧ match cache_hit v with
    | Some text =>
        findByKey env_ttl k σ =
          (match JSON_parse text with
           | Returned feature => Returned (Some feature)
           | Thrown e => Thrown (DatabaseError "Failed to find feature flag" e)
           end,
           {| db := db σ; cache := c1 |})
    | None =>
        (findByKey env_ttl k σ).1 = (FeatureRepository.findByKey k (db σ)).1
    end.
Proof.
  intros Hget. rewrite (cached_findByKey_cases σ k v c1 Hget).
  rewrite findByKey_cases.
  destruct (cache_hit v); [done|].
  destruct (fault (db σ)); [done|].
  by destruct (documents (db σ) !! trim k).
Qed.

Lemma cached_run_cases (c : Call) σ :
  (∀ k, c ≠ call_findByKey k) →
  @repo_run _ (repository env_ttl) c σ =
    ((repo_run c (db σ)).1,
     {| db := (repo_run c (db σ)).2;
        cache :=
          match c, (repo_run c (db σ)).1 with
          | call_updateGlobalState k _, Returned _
          | call_addOrUpdateOverride k _ _ _, Returned _
          | call_removeOverride k _ _, Returned _
          | call_delete k, Returned _ =>
              (RedisCache.delete (CACHE_KEY_PREFIX ++ k) (cache σ)).2
          | _, _ => cache σ
          end |}).
Proof.
  intros Hwrite. destruct c; cbn -[CACHE_KEY_PREFIX].
  - change (repo_create feature) with (FeatureRepository.create feature).
    rewrite run_discard_outcome, (proj1 (run_discard _ _)).
    unfold mbind, M_bind, bind. rewrite cached_create.
    by destruct ((FeatureRepository.create feature (db σ)).1).
  - by destruct (Hwrite k).
  - change repo_findAll with FeatureRepository.findAll.
    rewrite run_discard_outcome, (proj1 (run_discard _ _)).
    unfold mbind, M_bind, bind. rewrite cached_findAll.
    rewrite (findAll_state (db σ)).
    destruct ((FeatureRepository.findAll (db σ)).1); cbn; by rewrite store_eta.
  - change (repo_updateGlobalState k b)
      with (FeatureRepository.updateGlobalState k b).
    unfold updateGlobalState. rewrite cached_update_cases, updateGlobalState_cases.
    destruct (fault (db σ)); [cbn -[CACHE_KEY_PREFIX]; by rewrite store_eta|].
    destruct (documents (db σ) !! trim k); cbn -[CACHE_KEY_PREFIX];
      by rewrite ?store_eta.
  - change (repo_addOrUpdateOverride k type id b)
      with (FeatureRepository.addOrUpdateOverride k type id b).
    unfold addOrUpdateOverride.
    rewrite cached_update_cases, addOrUpdateOverride_cases.
    destruct (fault (db σ)); [cbn -[CACHE_KEY_PREFIX]; by rewrite store_eta|].
    destruct (documents (db σ) !! trim k); cbn -[CACHE_KEY_PREFIX];
      by rewrite ?store_eta.
  - change (repo_removeOverride k type id)
      with (FeatureRepository.removeOverride k type id).
    unfold removeOverride.
    rewrite cached_update_cases, removeOverride_cases.
    destruct (fault (db σ)); [cbn -[CACHE_KEY_PREFIX]; by rewrite store_eta|].
    destruct (documents (db σ) !! trim k); cbn -[CACHE_KEY_PREFIX];
      by rewrite ?store_eta.
  - change (repo_delete k) with (FeatureRepository.delete k).
    rewrite cached_delete_cases, delete_cases.
    destruct (fault (db σ)); [cbn -[CACHE_KEY_PREFIX]; by rewrite store_eta|].
    destruct (documents (db σ) !! trim k); cbn -[CACHE_KEY_PREFIX];
      by rewrite ?store_eta.
  - by rewrite store_eta.
Qed.

(** X16. The cache cannot change what a write does.  For every call but
    [findByKey], whatever the state of the cache and whatever the redis
    client does, the cached repository returns or throws as the plain one
    and leaves the same collection.  A call that throws leaves the cache
    untouched, and so does every call made while the cache is disabled, has
    no client or is disconnected: the invalidation is then skipped and the
    entry stays. *)
Theorem cached_writes_as_plain (c : Call) σ :
  (∀ k, c ≠ call_findByKey k) →
  let after := @repo_run _ (repository env_ttl) c σ in
  after.1 = (repo_run c (db σ)).1
  ∧ db after.2 = (repo_run c (db σ)).2
  ∧ ((∃ e, after.1 = Thrown e) → cache after.2 = cache σ)
  ∧ (RedisCache.unavailable (cache σ) = true → cache after.2 = cache σ).
Proof.
  intros Hwrite after. unfold after. rewrite cached_run_cases by done.
  cbn [fst snd db cache]. split_and!; [done|done| |].
  - intros [e He]. destruct c; try done; by rewrite He.
  - intros Hdown.
    assert (∀ k, (RedisCache.delete (CACHE_KEY_PREFIX ++ k) (cache σ)).2
                 = cache σ) as Hskip.
    { intros k. destruct (delete_returns (CACHE_KEY_PREFIX ++ k) (cache σ))
        as (c' & -> & _ & _ & Hsame). by apply Hsame. }
    destruct c; try done;
      match goal with
      | |- context [match ?o with Returned _ => _ | Thrown _ => _ end] =>
          destruct o
      end; by rewrite ?Hskip.
Qed.

End CachedRepositoryLaws.

Section CachedRepositoryWitnesses.
Import CachedFeatureRepository.

Lemma cached_writes_as_plain_witness :
  (@repo_run _ (repository 300) (call_delete (js "premium")) sample_store).1
  = (repo_run (call_delete (js "premium")) sample_collection).1.
Proof.
  refine (proj1 (cached_writes_as_plain 300 (call_delete (js "premium"))
            sample_store _)).
  intros k. discriminate.
Defined.

Lemma cached_findByKey_witness :
  db (findByKey 300 (js "premium") sample_store).2 = sample_collection.
Proof.
  refine (proj1 (cached_findByKey 300 sample_store (js "premium")
            (Some (js "premium")) (cache sample_store) _)).
  vm_compute. reflexivity.
Defined.

End CachedRepositoryWitnesses.

(** ** The cache and the collection stay in agreement *)

Section CacheCoherence.
Import MongoDB CachedFeatureRepository.
Context `{JSON} (env_ttl : Z).
Implicit Types (σ : Store (C := gmap JsString JsString)).
Implicit Types (k : JsString) (entries : gmap JsString JsString).

Lemma available_client (c : RedisCache.t (gmap JsString JsString)) :
  RedisCache.unavailable c = false →
  ∃ entries, c = {| RedisCache.client := Some entries;
                    RedisCache.isConnected := true;
                    RedisCache.isEnabled := true |}.
Proof.
  destruct c as [[entries|] [] []]; try done. intros _. by exists entries.
Qed.

Lemma memory_get key entries :
  RedisCache.get key
    {| RedisCache.client := Some entries; RedisCache.isConnected := true;
       RedisCache.isEnabled := true |}
  = (Returned (entries !! key),
     {| RedisCache.client := Some entries; RedisCache.isConnected := true;
        RedisCache.isEnabled := true |}).
Proof. done. Qed.

Lemma memory_set key value entries :
  RedisCache.set env_ttl key value None
    {| RedisCache.client := Some entries; RedisCache.isConnected := true;
       RedisCache.isEnabled := true |}
  = (Returned (),
     {| RedisCache.client := Some (<[key := value]> entries);
        RedisCache.isConnected := true; RedisCache.isEnabled := true |}).
Proof. done. Qed.

Lemma memory_delete key entries :
  RedisCache.delete key
    {| RedisCache.client := Some entries; RedisCache.isConnected := true;
       RedisCache.isEnabled := true |}
  = (Returned (),
     {| RedisCache.client := Some (base.delete key entries);
        RedisCache.isConnected := true; RedisCache.isEnabled := true |}).
Proof. done. Qed.

Lemma cache_key_inj k k' :
  CACHE_KEY_PREFIX ++ k = CACHE_KEY_PREFIX ++ k' → k = k'.
Proof. apply app_inv_head. Qed.

Lemma cache_hit_Some v text : cache_hit v = Some text → v = Some text.
Proof. destruct v as [[|? ?]|]; simpl; congruence. Qed.

Lemma discard_state {Σ A} (m : M Σ A) (σ : Σ) :
  ((_ ← m; mret ()) σ).2 = (m σ).2.
Proof. unfold mbind, M_bind, bind. by destruct (m σ) as [[?|?] ?]. Qed.

(** A step that touches the collection and the cache at one key only, and
    leaves them in agreement there, keeps them in agreement. *)
Lemma coherent_step σ σ' k :
  (∀ k', k' ≠ k → documents (db σ') !! k' = documents (db σ) !! k') →
  (∀ entries', RedisCache.client (cache σ') = Some entries' →
     ∃ entries, RedisCache.client (cache σ) = Some entries ∧
       ∀ k', k' ≠ k →
         entries' !! (CACHE_KEY_PREFIX ++ k') = entries !! (CACHE_KEY_PREFIX ++ k')) →
  (∀ entries' text, RedisCache.client (cache σ') = Some entries' →
     cache_hit (entries' !! (CACHE_KEY_PREFIX ++ k)) = Some text →
     ∃ doc, documents (db σ') !! k = Some doc ∧
            text = JSON_stringify (FeatureRepository.toDomain doc)) →
  coherent σ → coherent σ'.
Proof.
  intros Hdocs Hentries Hat Hcoh k' entries' text Hclient Hhit.
  destruct (decide (k' = k)) as [->|Hne]; [by eapply Hat|].
  destruct (Hentries entries' Hclient) as (entries & Hclient0 & Hsame).
  rewrite Hsame in Hhit by done. rewrite Hdocs by done.
  by eapply Hcoh.
Qed.

(** The collection written at [k] only, the cache as it was. *)
Lemma written_coherent_but σ k docs :
  (∀ k', k' ≠ k → docs !! k' = documents (db σ) !! k') →
  coherent σ →
  coherent_but k {| db := written docs (db σ); cache := cache σ |}.
Proof.
  intros Hdocs Hcoh k' entries text Hne Hclient Hhit.
  cbn [db cache] in *. rewrite documents_written, Hdocs by done.
  by eapply Hcoh.
Qed.

(** The invalidation of [k] restores the agreement lost at [k]. *)
Lemma invalidated_coherent σ k :
  up σ → coherent_but k σ →
  let σ' := {| db := db σ;
               cache := (RedisCache.delete (CACHE_KEY_PREFIX ++ k) (cache σ)).2 |} in
  coherent σ' ∧ up σ'.
Proof.
  intros [entries Hcache]%available_client Hbut σ'. subst σ'.
  rewrite Hcache, memory_delete. cbn [snd]. split; [|done].
  intros k' entries' text [= <-] Hhit. cbn [db cache RedisCache.client] in *.
  destruct (decide (k' = k)) as [->|Hne].
  - by rewrite lookup_delete_eq in Hhit.
  - rewrite lookup_delete_ne in Hhit by (by intros ?%cache_key_inj).
    apply (Hbut k' entries text Hne); [by rewrite Hcache|done].
Qed.

(** The write to the cache of the document stored under [k] keeps the
    agreement. *)
Lemma filled_coherent σ k doc :
  up σ → coherent σ → documents (db σ) !! k = Some doc →
  let σ' := {| db := db σ;
               cache := (RedisCache.set env_ttl (CACHE_KEY_PREFIX ++ k)
                           (JSON_stringify (FeatureRepository.toDomain doc))
                           None (cache σ)).2 |} in
  coherent σ' ∧ up σ'.
Proof.
  intros [entries Hcache]%available_client Hcoh Hdoc σ'. subst σ'.
  rewrite Hcache, memory_set. cbn [snd]. split; [|done].
  apply (coherent_step σ _ k); cbn [db cache RedisCache.client].
  - done.
  - intros entries' [= <-]. rewrite Hcache. exists entries. split; [done|].
    intros k' Hne. rewrite lookup_insert_ne; [done|].
    by intros ?%cache_key_inj.
  - intros entries' text [= <-]. rewrite lookup_insert_eq.
    intros <-%cache_hit_Some%(inj Some). eauto.
  - done.
Qed.

Lemma findByKey_awaiting_cases σ entries others_query others_fill k :
  cache σ = {| RedisCache.client := Some entries;
               RedisCache.isConnected := true; RedisCache.isEnabled := true |} →
  findByKey_awaiting env_ttl others_query others_fill k σ =
  match cache_hit (entries !! (CACHE_KEY_PREFIX ++ k)) with
  | Some text =>
      (match JSON_parse text with
       | Returned feature => Returned (Some feature)
       | Thrown e => Thrown (DatabaseError "Failed to find feature flag" e)
       end, σ)
  | None =>
      let σ1 := others_query σ in
      match fault (db σ1) with
      | Some e => (Thrown (DatabaseError "Failed to find feature flag" e), σ1)
      | None =>
          match documents (db σ1) !! trim k with
          | Some doc =>
              let σ2 := others_fill σ1 in
              (Returned (Some (FeatureRepository.toDomain doc)),
               {| db := db σ2;
                  cache :=
                    (RedisCache.set env_ttl (CACHE_KEY_PREFIX ++ k)
                       (JSON_stringify (FeatureRepository.toDomain doc))
                       None (cache σ2)).2 |})
          | None => (Returned None, σ1)
          end
      end
  end.
Proof.
  intros Hcache. destruct σ as [d c]. cbn [cache] in Hcache. subst c.
  unfold findByKey_awaiting, try_catch, mbind, M_bind, bind, this_cache,
    meanwhile.
  cbn [cache db]. rewrite memory_get.
  destruct (entries !! (CACHE_KEY_PREFIX ++ k)) as [[|c text]|];
    cbn -[CACHE_KEY_PREFIX RedisCache.set];
    [|by destruct (JSON_parse (c :: text))|];
    match goal with
    | |- context [others_query ?s] => generalize (others_query s); intros σ1
    end;
    unfold model, findOne, exec;
    (destruct (fault (db σ1)) as [e|]; [by rewrite store_eta|]);
    (destruct (documents (db σ1) !! trim k) as [doc|];
     cbn -[CACHE_KEY_PREFIX RedisCache.set]; rewrite store_eta; [|done]);
    destruct (set_returns env_ttl (CACHE_KEY_PREFIX ++ k)
                (JSON_stringify (FeatureRepository.toDomain doc)) None
                (cache (others_fill σ1))) as (c' & Hset & _);
    by rewrite Hset.
Qed.

Lemma mutation_awaiting_cases σ others query k message docs :
  (∀ d, fault d = None →
     query d = (Returned (if documents d !! trim k is Some _ then 1 else 0),
                if documents d !! trim k is Some _ then written (docs d) d else d)) →
  (∀ d e, fault d = Some e → query d = (Thrown e, d)) →
  mutation_awaiting others query k message σ =
  match fault (db σ) with
  | Some e => (Thrown (rethrown message e), σ)
  | None =>
      match documents (db σ) !! trim k with
      | Some doc =>
          let σ1 := others {| db := written (docs (db σ)) (db σ);
                              cache := cache σ |} in
          (Returned (),
           {| db := db σ1;
              cache := (RedisCache.delete (CACHE_KEY_PREFIX ++ k) (cache σ1)).2 |})
      | None => (Thrown (FeatureNotFoundError k), σ)
      end
  end.
Proof.
  intros Hanswers Hrejects.
  unfold mutation_awaiting, try_catch, mbind, M_bind, bind, model, meanwhile.
  destruct (fault (db σ)) as [e|] eqn:Hfault.
  - rewrite (Hrejects _ e Hfault), store_eta. by destruct e.
  - rewrite (Hanswers _ Hfault).
    destruct (documents (db σ) !! trim k); cbn -[CACHE_KEY_PREFIX].
    + unfold this_cache.
      match goal with
      | |- context [RedisCache.delete ?key (cache ?s)] =>
          destruct (delete_returns key (cache s)) as (c' & Hdel & _)
      end.
      by rewrite Hdel.
    + by rewrite store_eta.
Qed.

Lemma updateOne_answers k u d :
  fault d = None →
  updateOne k u d
  = (Returned (if documents d !! trim k is Some _ then 1 else 0),
     if documents d !! trim k is Some _
     then written (match documents d !! trim k with
                   | Some doc => <[trim k := updated_document (now d) u doc]>
                                   (documents d)
                   | None => documents d
                   end) d
     else d).
Proof.
  intros Hok. unfold updateOne, exec. rewrite Hok.
  by destruct (documents d !! trim k).
Qed.

Lemma deleteOne_answers k d :
  fault d = None →
  deleteOne k d
  = (Returned (if documents d !! trim k is Some _ then 1 else 0),
     if documents d !! trim k is Some _
     then written (base.delete (trim k) (documents d)) d else d).
Proof.
  intros Hok. unfold deleteOne, exec. rewrite Hok.
  by destruct (documents d !! trim k).
Qed.

Lemma query_rejects {A} (query : Collection → A * Collection) d e :
  fault d = Some e → exec query d = (Thrown e, d).
Proof. intros Hfault. unfold exec. by rewrite Hfault. Qed.

(** A mutation at a trimmed key, with harmless requests before its
    invalidation, keeps the agreement. *)
Lemma mutation_coherent σ others query k message docs :
  (∀ d, fault d = None →
     query d = (Returned (if documents d !! trim k is Some _ then 1 else 0),
                if documents d !! trim k is Some _ then written (docs d) d else d)) →
  (∀ d e, fault d = Some e → query d = (Thrown e, d)) →
  (∀ d k', k' ≠ trim k → docs d !! k' = documents d !! k') →
  trim k = k →
  (∀ σ1, up σ1 → coherent_but k σ1 →
     up (others σ1) ∧ coherent_but k (others σ1)) →
  up σ → coherent σ →
  coherent (mutation_awaiting others query k message σ).2
  ∧ up (mutation_awaiting others query k message σ).2.
Proof.
  intros Hanswers Hrejects Hdocs Htrimmed Hothers Hup Hcoh.
  rewrite (mutation_awaiting_cases σ others query k message docs) by done.
  destruct (fault (db σ)); [done|].
  destruct (documents (db σ) !! trim k); [|done].
  cbn zeta. cbn [snd].
  match goal with
  | |- context [others ?s] =>
      destruct (Hothers s) as [Hup1 Hbut1]; [done| |]
  end.
  - apply written_coherent_but; [|done].
    intros k' Hne. apply Hdocs. by rewrite Htrimmed.
  - by apply invalidated_coherent.
Qed.

(** A call with harmless requests at its awaits keeps the agreement. *)
Lemma awaiting_coherent others (c : Call) σ :
  trimmed_call c → up σ → coherent σ → harmless c others →
  coherent (run_awaiting env_ttl others c σ).2
  ∧ up (run_awaiting env_ttl others c σ).2.
Proof.
  intros Htrimmed Hup Hcoh Hharmless.
  destruct c; cbn [trimmed_call harmless run_awaiting] in *.
  - (* create *)
    cbn -[CACHE_KEY_PREFIX coherent up].
    rewrite discard_state, cached_create. cbn [snd].
    pose proof (create_cases (db σ) feature) as Hcreate.
    destruct (negb (schema_valid (new_document feature)));
      [rewrite Hcreate; cbn [snd]; by rewrite store_eta|].
    destruct (fault (db σ));
      [rewrite Hcreate; cbn [snd]; by rewrite store_eta|].
    destruct (documents (db σ) !! trim (key feature)) eqn:Hfree;
      rewrite Hcreate; cbn [snd]; [by rewrite store_eta|].
    split; [|done].
    apply (coherent_step σ _ (trim (key feature)));
      cbn [db cache]; rewrite ?documents_written; try done.
    + intros k' Hne. by rewrite lookup_insert_ne.
    + intros entries' Hclient. exists entries'. by split.
    + intros entries' text Hclient Hhit.
      destruct (Hcoh _ _ _ Hclient Hhit) as (doc & Hdoc & _). congruence.
  - (* findByKey *)
    rewrite discard_state.
    destruct (available_client _ Hup) as [entries Hcache].
    rewrite (findByKey_awaiting_cases σ entries) by done.
    destruct Hharmless as [Hquery Hfill].
    destruct (cache_hit _); [done|]. cbn zeta.
    destruct (Hquery σ Hup Hcoh) as [Hup1 Hcoh1].
    destruct (fault (db (before_query others σ))); [done|].
    rewrite Htrimmed.
    destruct (documents (db (before_query others σ)) !! k) as [doc|] eqn:Hdoc;
      [|done].
    cbn [snd].
    destruct (Hfill _ Hup1 Hcoh1) as (Hup2 & Hcoh2 & Hsame).
    apply filled_coherent; [done|done|]. by rewrite Hsame.
  - (* findAll *)
    cbn -[CACHE_KEY_PREFIX coherent up].
    rewrite discard_state, cached_findAll. by cbn [snd].
  - (* updateGlobalState *)
    eapply (mutation_coherent σ _ _ k _
              (λ d, match documents d !! trim k with
                    | Some doc =>
                        <[trim k := updated_document (now d) (SetEnabled b) doc]>
                          (documents d)
                    | None => documents d
                    end)); try done.
    + intros d Hok. apply updateOne_answers, Hok.
    + intros d e. apply query_rejects.
    + intros d k' Hne. cbn beta.
      destruct (documents d !! trim k); [|done]. by rewrite lookup_insert_ne.
  - (* addOrUpdateOverride *)
    eapply (mutation_coherent σ _ _ k _
              (λ d, match documents d !! trim k with
                    | Some doc =>
                        <[trim k := updated_document (now d) (SetOverride type id b) doc]>
                          (documents d)
                    | None => documents d
                    end)); try done.
    + intros d Hok. apply updateOne_answers, Hok.
    + intros d e. apply query_rejects.
    + intros d k' Hne. cbn beta.
      destruct (documents d !! trim k); [|done]. by rewrite lookup_insert_ne.
  - (* removeOverride *)
    eapply (mutation_coherent σ _ _ k _
              (λ d, match documents d !! trim k with
                    | Some doc =>
                        <[trim k := updated_document (now d) (UnsetOverride type id) doc]>
                          (documents d)
                    | None => documents d
                    end)); try done.
    + intros d Hok. apply updateOne_answers, Hok.
    + intros d e. apply query_rejects.
    + intros d k' Hne. cbn beta.
      destruct (documents d !! trim k); [|done]. by rewrite lookup_insert_ne.
  - (* delete *)
    eapply (mutation_coherent σ _ _ k _
              (λ d, base.delete (trim k) (documents d))); try done.
    + intros d Hok. apply deleteOne_answers, Hok.
    + intros d e. apply query_rejects.
    + intros d k' Hne. cbn beta. by rewrite lookup_delete_ne.
  - done.
Qed.

(** [findByKey] is [findByKey_awaiting] when nothing runs in between. *)
Lemma findByKey_alone k σ :
  findByKey_awaiting env_ttl id id k σ = findByKey env_ttl k σ.
Proof.
  unfold findByKey_awaiting, findByKey, try_catch, mbind, M_bind, bind,
    meanwhile.
  by destruct (this_cache _ σ) as [[[[|c text]|]|e] σ1].
Qed.

Lemma run_alone (c : Call) σ :
  run_awaiting env_ttl alone c σ = @repo_run _ (repository env_ttl) c σ.
Proof. by destruct c. Qed.

(** A whole [findByKey] touches the cache at its own key only. *)
Lemma findByKey_coherent_but k σ :
  up σ → coherent_but k σ →
  up (findByKey env_ttl k σ).2 ∧ coherent_but k (findByKey env_ttl k σ).2.
Proof.
  intros Hup Hbut. destruct (available_client _ Hup) as [entries Hcache].
  rewrite <- findByKey_alone, (findByKey_awaiting_cases σ entries) by done.
  destruct (cache_hit _); [done|]. cbn zeta. unfold id.
  destruct (fault (db σ)); [done|].
  destruct (documents (db σ) !! trim k); [|done].
  cbn [snd]. rewrite Hcache, memory_set. cbn [snd]. split; [done|].
  intros k' entries' text Hne [= <-] Hhit. cbn [db cache] in *.
  rewrite lookup_insert_ne in Hhit by (by intros ?%cache_key_inj).
  apply (Hbut k' entries text Hne); [by rewrite Hcache|done].
Qed.

Lemma harmless_alone (c : Call) : harmless c alone.
Proof. by destruct c. Qed.

(** X18. When the cache stays in agreement with the collection.  Take a
    redis server that answers, a cache that is up and in agreement with the
    collection (each entry that [findByKey] would take for a hit is the
    serialized form of the document now stored under that key), and a
    repository call with a trimmed key.  If the call runs alone, no other
    request served at its awaits, the cache is up and in agreement after
    it.  The same holds with other requests at its awaits, as long as they
    are harmless: they keep the cache up and in agreement themselves, and
    none of them changes the document under the key between the query of
    [findByKey] and its write to the cache.  The run with no other request
    is the repository's method itself. *)
Theorem cache_stays_coherent (c : Call) σ :
  trimmed_call c →
  up σ →
  coherent σ →
  (coherent (@repo_run _ (repository env_ttl) c σ).2
   ∧ up (@repo_run _ (repository env_ttl) c σ).2)
  ∧ (∀ others, harmless c others →
       coherent (run_awaiting env_ttl others c σ).2
       ∧ up (run_awaiting env_ttl others c σ).2)
  ∧ run_awaiting env_ttl alone c σ = @repo_run _ (repository env_ttl) c σ.
Proof.
  intros Htrimmed Hup Hcoh. split_and!.
  - rewrite <- run_alone. apply awaiting_coherent; try done.
    apply harmless_alone.
  - rewrite <- run_alone. apply awaiting_coherent; try done.
    apply harmless_alone.
  - intros others Hharmless. by apply awaiting_coherent.
  - apply run_alone.
Qed.

(** X28. The cache-aside read can leave a stale entry.  Take a cache that
    is up, a stored document with no entry in the cache, and a [findByKey]
    for its key.  If another request updates the document's global state
    after [findByKey] has read it and before [findByKey] writes it to the
    cache (the update, with its invalidation, runs to completion in
    between), then [findByKey] returns the record as it was, and the cache
    is left with that record under the key while the collection holds the
    updated one: the two do not agree, whether or not they did before, and
    the entry stays until it expires or the key is written again.  Such a
    request is not [harmless] to the call.  With nothing in between,
    [findByKey_awaiting] is [findByKey]. *)
Theorem stale_entry_under_interleaving σ entries k doc b :
  let update := λ σ1, (updateGlobalState k b σ1).2 in
  let updated := updated_document (now (db σ)) (SetEnabled b) doc in
  let run := findByKey_awaiting env_ttl id update k σ in
  cache σ = {| RedisCache.client := Some entries;
               RedisCache.isConnected := true; RedisCache.isEnabled := true |} →
  fault (db σ) = None →
  trim k = k →
  documents (db σ) !! k = Some doc →
  entries !! (CACHE_KEY_PREFIX ++ k) = None →
  JSON_stringify (FeatureRepository.toDomain doc) ≠ [] →
  JSON_stringify (FeatureRepository.toDomain doc)
    ≠ JSON_stringify (FeatureRepository.toDomain updated) →
  findByKey_awaiting env_ttl id id k σ = findByKey env_ttl k σ
  ∧ run.1 = Returned (Some (FeatureRepository.toDomain doc))
  ∧ documents (db run.2) !! k = Some updated
  ∧ RedisCache.client (cache run.2)
    = Some (<[CACHE_KEY_PREFIX ++ k :=
                JSON_stringify (FeatureRepository.toDomain doc)]> entries)
  ∧ ¬ coherent run.2
  ∧ (coherent σ →
     ¬ harmless (call_findByKey k)
         {| before_query := id; before_fill := update;
            before_invalidate := id |}).
Proof.
  intros update updated run Hcache Hok Htrimmed Hdoc Hmiss Hnonempty Hdiffer.
  split; [apply findByKey_alone|].
  assert (up σ) as Hup by (unfold up; by rewrite Hcache).
  cut (run.1 = Returned (Some (FeatureRepository.toDomain doc))
       ∧ documents (db run.2) !! k = Some updated
       ∧ RedisCache.client (cache run.2)
         = Some (<[CACHE_KEY_PREFIX ++ k :=
                     JSON_stringify (FeatureRepository.toDomain doc)]> entries)
       ∧ ¬ coherent run.2).
  { intros (Hreturned & Hstored & Hentry & Hstale). split_and!; try done.
    intros Hcoh Hharmless. apply Hstale.
    destruct (awaiting_coherent _ (call_findByKey k) σ Htrimmed Hup Hcoh
                Hharmless) as [Hkept _].
    cbn [run_awaiting before_query before_fill] in Hkept.
    by rewrite discard_state in Hkept. }
  assert (run =
    (Returned (Some (FeatureRepository.toDomain doc)),
     {| db := written (<[k := updated]> (documents (db σ))) (db σ);
        cache :=
          {| RedisCache.client :=
               Some (<[CACHE_KEY_PREFIX ++ k :=
                         JSON_stringify (FeatureRepository.toDomain doc)]>
                       (base.delete (CACHE_KEY_PREFIX ++ k) entries));
             RedisCache.isConnected := true;
             RedisCache.isEnabled := true |} |})) as Hrun.
  { unfold run, findByKey_awaiting, try_catch, mbind, M_bind, bind, this_cache,
      meanwhile.
    rewrite Hcache, memory_get, Hmiss. cbn -[CACHE_KEY_PREFIX].
    unfold model at 1, findOne, exec. cbn -[CACHE_KEY_PREFIX].
    rewrite Hok, Htrimmed, Hdoc. cbn -[CACHE_KEY_PREFIX].
    unfold update, updateGlobalState.
    rewrite cached_update_cases. cbn -[CACHE_KEY_PREFIX].
    rewrite Hok, Htrimmed, Hdoc. cbn -[CACHE_KEY_PREFIX]. done. }
  rewrite Hrun. cbn -[CACHE_KEY_PREFIX coherent].
  rewrite lookup_insert_eq, (delete_id _ _ Hmiss).
  split_and!; [done|done|done|].
  - intros Hcoh.
    destruct (Hcoh k _ (JSON_stringify (FeatureRepository.toDomain doc)) eq_refl)
      as (doc' & Hdoc' & Htext).
    + rewrite lookup_insert_eq.
      by destruct (JSON_stringify (FeatureRepository.toDomain doc)).
    + cbn [db] in Hdoc'. rewrite documents_written, lookup_insert_eq in Hdoc'.
      injection Hdoc' as <-. done.
Qed.

End CacheCoherence.

Lemma cache_stays_coherent_witness :
  let others :=
    {| before_query := id; before_fill := id;
       before_invalidate :=
         λ σ, (CachedFeatureRepository.findByKey 300 (js "premium") σ).2 |} in
  coherent (run_awaiting 300 others
              (call_updateGlobalState (js "premium") true) sample_store).2.
Proof.
  intros others.
  refine (proj1 (proj1 (proj2
            (cache_stays_coherent 300
               (call_updateGlobalState (js "premium") true) sample_store
               _ _ _)) others _)).
  - vm_compute. reflexivity.
  - reflexivity.
  - intros k entries text [= <-] Hhit.
    apply cache_hit_Some in Hhit. apply lookup_singleton_Some in Hhit as [Hk <-].
    apply cache_key_inj in Hk as <-.
    exists premium. split; reflexivity.
  - intros σ Hup Hbut. by apply findByKey_coherent_but.
Defined.

Lemma stale_entry_under_interleaving_witness :
  let σ :=
    {| CachedFeatureRepository.db := sample_collection;
       CachedFeatureRepository.cache :=
         {| RedisCache.client := Some (∅ : gmap JsString JsString);
            RedisCache.isConnected := true;
            RedisCache.isEnabled := true |} |} in
  ¬ @coherent signed_json
      (@CachedFeatureRepository.findByKey_awaiting _ _ signed_json 300 id
         (λ σ1, (CachedFeatureRepository.updateGlobalState
                   (js "premium") true σ1).2)
         (js "premium") σ).2.
Proof.
  intros σ.
  refine (proj1 (proj2 (proj2 (proj2 (proj2
            (@stale_entry_under_interleaving signed_json 300 σ ∅
               (js "premium") premium true _ _ _ _ _ _ _)))))).
  - reflexivity.
  - reflexivity.
  - vm_compute. reflexivity.
  - vm_compute. reflexivity.
  - apply lookup_empty.
  - vm_compute. discriminate.
  - vm_compute. discriminate.
Defined.

(** ** The service over the MongoDB repository *)

Section ServiceOverMongo.
Import MongoDB Validators.
Implicit Types (w : World Collection) (key context : JsValue).
Implicit Types (type : OverrideType) (id : JsString).

Lemma valid_key_trim key :
  validateFeatureKey key = Returned () → trim (as_string key) = as_string key.
Proof.
  intros (s & -> & Hchars & _)%validateFeatureKey_accepted. simpl.
  apply trim_no_whitespace. eapply Forall_impl; [done|].
  apply key_character_not_whitespace.
Qed.

Lemma service_getFeature_healthy w key :
  fault (store w) = None →
  validateFeatureKey key = Returned () →
  FeatureService.getFeature key w =
    (match documents (store w) !! as_string key with
     | Some doc => Returned (FeatureRepository.toDomain doc)
     | None => Thrown (FeatureNotFoundError (as_string key))
     end,
     {| store := store w; trace := trace w ++ [call_findByKey (as_string key)] |}).
Proof.
  intros Hok Hkey.
  rewrite (getFeature_valid key w
             (FeatureRepository.toDomain <$> documents (store w) !! as_string key)
             (store w) Hkey).
  - by destruct (documents (store w) !! as_string key).
  - change (repo_findByKey (as_string key) (store w))
      with (FeatureRepository.findByKey (as_string key) (store w)).
    by rewrite findByKey_healthy, valid_key_trim.
Qed.

Lemma service_evaluateFeature_healthy w key context :
  fault (store w) = None →
  validateFeatureKey key = Returned () →
  validateEvaluationContext context = Returned () →
  (FeatureService.evaluateFeature key context w).1 =
    match documents (store w) !! as_string key with
    | Some doc =>
        Returned (evaluate (FeatureRepository.toDomain doc) (as_context context))
    | None => Thrown (FeatureNotFoundError (as_string key))
    end.
Proof.
  intros Hok Hkey Hcontext. unfold FeatureService.evaluateFeature.
  rewrite bind_lift, Hkey, bind_lift, Hcontext.
  unfold mbind, M_bind, bind.
  rewrite service_getFeature_healthy by done.
  by destruct (documents (store w) !! as_string key).
Qed.

Lemma service_addOrUpdateOverride_Returned w key vtype vid venabled w1 :
  FeatureService.addOrUpdateOverride key vtype vid venabled w = (Returned (), w1) →
  ∃ type b doc,
    validateFeatureKey key = Returned ()
    ∧ validateOverrideType vtype = Returned type
    ∧ validateOverrideId vid = Returned ()
    ∧ venabled = JsBoolean b
    ∧ fault (store w) = None
    ∧ documents (store w) !! as_string key = Some doc
    ∧ store w1 =
        written
          (<[as_string key :=
               updated_document (now (store w))
                 (SetOverride type (as_string vid) b) doc]>
             (documents (store w)))
          (store w).
Proof.
  unfold FeatureService.addOrUpdateOverride.
  rewrite bind_lift. destruct (validateFeatureKey key) as [[]|] eqn:Hkey; [|done].
  rewrite bind_lift.
  destruct (validateOverrideType vtype) as [type|] eqn:Htype; [|done].
  rewrite bind_lift. destruct (validateOverrideId vid) as [[]|] eqn:Hid; [|done].
  rewrite bind_lift.
  destruct (validateEnabledState venabled) as [[]|] eqn:Hen; [|done].
  apply validateEnabledState_Returned in Hen as [b ->].
  unfold mbind, M_bind, bind.
  destruct (fault (store w)) as [e|] eqn:Hok.
  { unfold FeatureService.getFeature. rewrite bind_lift, Hkey.
    unfold mbind, M_bind, bind, FeatureService.repository.
    change (repo_findByKey (as_string key) (store w))
      with (FeatureRepository.findByKey (as_string key) (store w)).
    by rewrite findByKey_cases, Hok. }
  rewrite service_getFeature_healthy by done.
  destruct (documents (store w) !! as_string key) as [doc|] eqn:Hdoc; [|done].
  unfold FeatureService.repository. cbn [store trace].
  change (repo_addOrUpdateOverride (as_string key) type (as_string vid)
            (as_boolean (JsBoolean b)) (store w))
    with (FeatureRepository.addOrUpdateOverride (as_string key) type
            (as_string vid) b (store w)).
  rewrite addOrUpdateOverride_cases, Hok, valid_key_trim, Hdoc by done.
  intros [= <-]. exists type, b, doc. by split_and!.
Qed.

Lemma as_context_single t id :
  as_context (single_context t id)
  = set_context_id t (Some id)
      {| userId := None; groupId := None; regionId := None |}.
Proof. by destruct t. Qed.

Lemma validate_single_context t vid :
  validateOverrideId vid = Returned () →
  validateEvaluationContext (single_context t (as_string vid)) = Returned ().
Proof.
  intros Hid. apply validateOverrideId_Returned in Hid as Hvalid.
  destruct Hvalid as (s & -> & Hs).
  assert (valid_context_field (JsStr s)) as Hfield by (right; eauto).
  assert (valid_context_field JsUndefined) as Hmissing by by left.
  apply validateEvaluationContext_Returned. split; [by eexists|].
  unfold context_fields.
  rewrite !Forall_cons, Forall_nil, !Exists_cons, Exists_nil.
  destruct t; cbn; split_and!; try done.
  - by left.
  - right. by left.
  - right. right. by left.
Qed.

Lemma evaluate_single t f id b :
  id ≠ [] → mapping t f !! id = Some b →
  evaluate f
    (set_context_id t (Some id)
       {| userId := None; groupId := None; regionId := None |})
  = result f b (tier_reason t).
Proof.
  intros Hne Hb. apply evaluate_at.
  - apply tier_lookup_Some. exists id. by destruct t.
  - intros t' Hlt. apply eq_None_not_Some. intros [b' Hb'].
    apply tier_lookup_Some in Hb' as (id' & Hid' & _).
    destruct t, t'; simpl in *; try lia; done.
Qed.

Lemma evaluate_single_absent t f id :
  mapping t f !! id = None →
  evaluate f
    (set_context_id t (Some id)
       {| userId := None; groupId := None; regionId := None |})
  = result f (enabled f) global_default.
Proof.
  intros Hnone. apply evaluate_default. intros t'.
  apply eq_None_not_Some. intros [b' Hb'].
  apply tier_lookup_Some in Hb' as (id' & Hid' & _ & Hb').
  destruct t, t'; simpl in *; try done; congruence.
Qed.



Lemma service_removeOverride_Returned w key vtype vid w1 :
  FeatureService.removeOverride key vtype vid w = (Returned (), w1) →
  ∃ type doc,
    validateFeatureKey key = Returned ()
    ∧ validateOverrideType vtype = Returned type
    ∧ validateOverrideId vid = Returned ()
    ∧ fault (store w) = None
    ∧ documents (store w) !! as_string key = Some doc
    ∧ store w1 =
        written
          (<[as_string key :=
               updated_document (now (store w))
                 (UnsetOverride type (as_string vid)) doc]>
             (documents (store w)))
          (store w).
Proof.
  unfold FeatureService.removeOverride.
  rewrite bind_lift. destruct (validateFeatureKey key) as [[]|] eqn:Hkey; [|done].
  rewrite bind_lift.
  destruct (validateOverrideType vtype) as [type|] eqn:Htype; [|done].
  rewrite bind_lift. destruct (validateOverrideId vid) as [[]|] eqn:Hid; [|done].
  unfold mbind, M_bind, bind.
  destruct (fault (store w)) as [e|] eqn:Hok.
  { unfold FeatureService.getFeature. rewrite bind_lift, Hkey.
    unfold mbind, M_bind, bind, FeatureService.repository.
    change (repo_findByKey (as_string key) (store w))
      with (FeatureRepository.findByKey (as_string key) (store w)).
    by rewrite findByKey_cases, Hok. }
  rewrite service_getFeature_healthy by done.
  destruct (documents (store w) !! as_string key) as [doc|] eqn:Hdoc; [|done].
  unfold FeatureService.repository. cbn [store trace].
  change (repo_removeOverride (as_string key) type (as_string vid) (store w))
    with (FeatureRepository.removeOverride (as_string key) type
            (as_string vid) (store w)).
  rewrite removeOverride_cases, Hok, valid_key_trim, Hdoc by done.
  intros [= <-]. exists type, doc. by split_and!.
Qed.

(** X20. Remove an override, then evaluate.  When the service's
    [removeOverride] returns, [evaluateFeature] on the same key with a
    context that carries that identifier for that type, and nothing else,
    returns the flag's global state with the reason global-default, whether
    or not the entry existed. *)
Theorem remove_then_evaluate w key vtype vid w1 :
  FeatureService.removeOverride key vtype vid w = (Returned (), w1) →
  ∃ type doc r,
    validateOverrideType vtype = Returned type
    ∧ documents (store w) !! as_string key = Some doc
    ∧ (FeatureService.evaluateFeature key
         (single_context type (as_string vid)) w1).1 = Returned r
    ∧ res_enabled r = enabled doc
    ∧ reason r = global_default.
Proof.
  intros (type & doc & Hkey & Htype & Hid & Hok & Hdoc & Hstore)
    %service_removeOverride_Returned.
  eexists type, doc, _. split; [done|]. split; [done|].
  rewrite service_evaluateFeature_healthy; try done.
  - rewrite Hstore, documents_written, lookup_insert_eq.
    rewrite as_context_single. split; [reflexivity|].
    rewrite evaluate_single_absent; [done|].
    rewrite updated_mapping, unset_mapping. apply lookup_delete_eq.
  - by rewrite Hstore.
  - by apply validate_single_context.
Qed.

Lemma remove_then_evaluate_witness :
  ∃ type doc r,
    validateOverrideType (str "user") = Returned type
    ∧ documents sample_collection !! js "premium" = Some doc
    ∧ (FeatureService.evaluateFeature (str "premium")
         (single_context type (js "u1"))
         (FeatureService.removeOverride (str "premium") (str "user")
            (str "u1") sample_world).2).1 = Returned r
    ∧ res_enabled r = enabled doc
    ∧ reason r = global_default.
Proof.
  apply (remove_then_evaluate sample_world (str "premium") (str "user")
           (str "u1")).
  vm_compute. reflexivity.
Defined.

(** X21. A fresh flag evaluates to its global state.  When [createFeature]
    returns a record, the record has the requested key and global state and
    no override, and [evaluateFeature] on that key returns
    (global state, global-default) for every valid context. *)
Theorem create_then_evaluate w vkey vdescription venabled f w1 context :
  FeatureService.createFeature vkey vdescription venabled w = (Returned f, w1) →
  validateEvaluationContext context = Returned () →
  key f = as_string vkey
  ∧ venabled = JsBoolean (enabled f)
  ∧ (∀ t, mapping t f = ∅)
  ∧ (FeatureService.evaluateFeature vkey context w1).1
    = Returned (result f (enabled f) global_default).
Proof.
  unfold FeatureService.createFeature.
  rewrite bind_lift. destruct (validateFeatureKey vkey) as [[]|] eqn:Hkey; [|done].
  rewrite bind_lift.
  destruct (validateDescription vdescription) as [[]|] eqn:Hd; [|done].
  rewrite bind_lift.
  destruct (validateEnabledState venabled) as [[]|] eqn:Hen; [|done].
  apply validateEnabledState_Returned in Hen as [b ->].
  unfold FeatureService.repository. cbn zeta.
  set (feature := {| key := as_string vkey;
                     description := as_optional_string vdescription;
                     enabled := as_boolean (JsBoolean b);
                     overrides := {| users := ∅; groups := ∅;
                                     regions := Some ∅ |};
                     createdAt := None; updatedAt := None |}).
  change (repo_create feature (store w))
    with (FeatureRepository.create feature (store w)).
  destruct (FeatureRepository.create feature (store w)) as [[f'|e] db'] eqn:Hcreate;
    [|done].
  intros [= <- <-] Hcontext.
  apply create_Returned in Hcreate as (_ & Hok & Hfree & -> & ->).
  pose proof (valid_key_trim vkey Hkey) as Htrim.
  assert (∀ t, mapping t (FeatureRepository.toDomain
                            (saved_document (now (store w)) feature)) = ∅)
    as Hempty by by intros [].
  split_and!; try done.
  rewrite service_evaluateFeature_healthy by done.
  cbn [store]. rewrite documents_written.
  change (key feature) with (as_string vkey). rewrite Htrim, lookup_insert_eq.
  f_equal. apply evaluate_default. intros t.
  apply eq_None_not_Some. intros [b' Hb'].
  apply tier_lookup_Some in Hb' as (id & _ & _ & Hb').
  by rewrite Hempty in Hb'.
Qed.

Lemma create_then_evaluate_witness :
  (FeatureService.evaluateFeature (str "dark-mode") (user_context "u1")
     (FeatureService.createFeature (str "dark-mode") (str "Dark mode")
        (JsBoolean false) sample_world).2).1
  = Returned (result (flag_with "dark-mode" false ∅ ∅ (Some ∅)) false
                global_default).
Proof.
  refine (proj2 (proj2 (proj2
            (create_then_evaluate sample_world (str "dark-mode")
               (str "Dark mode") (JsBoolean false)
               {| key := js "dark-mode"; description := Some (js "Dark mode");
                  enabled := false;
                  overrides := {| users := ∅; groups := ∅; regions := Some ∅ |};
                  createdAt := Some 0%Z; updatedAt := Some 0%Z |}
               _ (user_context "u1") _ _)))).
  - vm_compute. reflexivity.
  - vm_compute. reflexivity.
Defined.

(** X22. The read operations of the service, [getFeature],
    [evaluateFeature] and [getAllFeatures], never change the collection,
    whatever their input and whether they return or throw. *)
Theorem service_reads_write_nothing w key context :
  store (FeatureService.getFeature key w).2 = store w
  ∧ store (FeatureService.evaluateFeature key context w).2 = store w
  ∧ store (FeatureService.getAllFeatures w).2 = store w.
Proof.
  assert (∀ w', store (FeatureService.getFeature key w').2 = store w') as Hget.
  { intros w'. unfold FeatureService.getFeature. rewrite bind_lift.
    destruct (validateFeatureKey key) as [[]|]; [|done].
    unfold mbind, M_bind, bind, FeatureService.repository.
    change (repo_findByKey (as_string key) (store w'))
      with (FeatureRepository.findByKey (as_string key) (store w')).
    pose proof (findByKey_state (store w') (as_string key)) as Hsame.
    destruct (FeatureRepository.findByKey (as_string key) (store w'))
      as [[[?|]|?] ?]; by simpl in *. }
  split_and!.
  - apply Hget.
  - unfold FeatureService.evaluateFeature. rewrite bind_lift.
    destruct (validateFeatureKey key) as [[]|]; [|done].
    rewrite bind_lift.
    destruct (validateEvaluationContext context) as [[]|]; [|done].
    unfold mbind, M_bind, bind. specialize (Hget w).
    by destruct (FeatureService.getFeature key w) as [[?|?] ?].
  - unfold FeatureService.getAllFeatures, FeatureService.repository.
    change (repo_findAll (store w)) with (FeatureRepository.findAll (store w)).
    pose proof (findAll_state (store w)) as Hsame.
    by destruct (FeatureRepository.findAll (store w)).
Qed.

(** X24. The existence check comes before the write.  On a store that
    answers, with valid arguments and no record under the key, the
    service's [addOrUpdateOverride] and [removeOverride] throw
    [FeatureNotFoundError] after the one [findByKey]: the repository's
    write is not called and the collection is as before. *)
Theorem override_on_missing_key w key vtype vid venabled :
  fault (store w) = None →
  documents (store w) !! as_string key = None →
  validateFeatureKey key = Returned () →
  (∃ type, validateOverrideType vtype = Returned type) →
  validateOverrideId vid = Returned () →
  validateEnabledState venabled = Returned () →
  let missing :=
    (Thrown (FeatureNotFoundError (as_string key)),
     {| store := store w;
        trace := trace w ++ [call_findByKey (as_string key)] |}) in
  FeatureService.addOrUpdateOverride key vtype vid venabled w = missing
  ∧ FeatureService.removeOverride key vtype vid w = missing.
Proof.
  intros Hok Hnone Hkey [type Htype] Hid Hen missing.
  pose proof (service_getFeature_healthy w key Hok Hkey) as Hget.
  rewrite Hnone in Hget.
  split.
  - unfold FeatureService.addOrUpdateOverride.
    rewrite bind_lift, Hkey, bind_lift, Htype, bind_lift, Hid, bind_lift, Hen.
    unfold mbind, M_bind, bind. by rewrite Hget.
  - unfold FeatureService.removeOverride.
    rewrite bind_lift, Hkey, bind_lift, Htype, bind_lift, Hid.
    unfold mbind, M_bind, bind. by rewrite Hget.
Qed.

Lemma override_on_missing_key_witness :
  FeatureService.addOrUpdateOverride (str "dark-mode") (str "user") (str "u1")
    (JsBoolean true) sample_world
  = (Thrown (FeatureNotFoundError (js "dark-mode")),
     {| store := sample_collection;
        trace := [call_findByKey (js "dark-mode")] |}).
Proof.
  refine (proj1 (override_on_missing_key sample_world (str "dark-mode")
            (str "user") (str "u1") (JsBoolean true) _ _ _ _ _ _)).
  - reflexivity.
  - vm_compute. reflexivity.
  - vm_compute. reflexivity.
  - exists user. vm_compute. reflexivity.
  - vm_compute. reflexivity.
  - reflexivity.
Defined.

Lemma schema_valid_new_document vkey vdescription b us gs rs :
  validateFeatureKey vkey = Returned () →
  validateDescription vdescription = Returned () →
  schema_valid
    (new_document {| key := as_string vkey;
                     description := as_optional_string vdescription;
                     enabled := b;
                     overrides := {| users := us; groups := gs;
                                     regions := rs |};
                     createdAt := None; updatedAt := None |})
  = truthy vdescription.
Proof.
  intros Hkey Hd. pose proof (valid_key_trim vkey Hkey) as Htrim.
  unfold schema_valid.
  match goal with
  | |- context [new_document ?F] =>
      change (key (new_document F)) with (trim (as_string vkey));
      change (description (new_document F))
        with (as_optional_string vdescription)
  end.
  rewrite Htrim.
  apply validateFeatureKey_accepted in Hkey as (s & -> & _ & Hlen).
  apply validateDescription_Returned in Hd as [->|(d & -> & Hd)].
  - apply andb_false_r.
  - cbn [as_optional_string as_string truthy].
    destruct s; [simpl in Hlen; lia|].
    cbn [truthy_string]. rewrite (proj2 (Nat.leb_le _ _) (proj2 Hlen)).
    rewrite (proj2 (Nat.leb_le _ _) Hd). cbn [andb]. apply andb_true_r.
Qed.

(** X23. What validation lets through and the schema refuses.  With a
    valid key and a boolean state, a description that is omitted or empty
    passes [validateDescription], and [createFeature] then fails in the
    store's schema check: the service throws a [DatabaseError], not a
    [ValidationError], and the collection is as before.  With a non-empty
    description, on a store that answers and has no record under the key,
    [createFeature] returns the record with that description. *)
Theorem createFeature_description_required w vkey vdescription venabled :
  validateFeatureKey vkey = Returned () →
  validateDescription vdescription = Returned () →
  validateEnabledState venabled = Returned () →
  let run := FeatureService.createFeature vkey vdescription venabled w in
  (truthy vdescription = false →
   (∃ e, run.1 = Thrown (DatabaseError "Failed to create feature flag" e))
   ∧ store run.2 = store w)
  ∧ (truthy vdescription = true →
     fault (store w) = None →
     documents (store w) !! as_string vkey = None →
     ∃ f, run.1 = Returned f
          ∧ description f = as_optional_string vdescription).
Proof.
  intros Hkey Hd Hen run. subst run.
  unfold FeatureService.createFeature.
  rewrite bind_lift, Hkey, bind_lift, Hd, bind_lift, Hen.
  unfold FeatureService.repository. cbn zeta.
  match goal with
  | |- context [repo_create ?feature (store w)] =>
      change (repo_create feature (store w))
        with (FeatureRepository.create feature (store w));
      rewrite (create_cases (store w) feature)
  end.
  cbn zeta. rewrite schema_valid_new_document by done.
  pose proof (valid_key_trim vkey Hkey) as Htrim.
  split.
  - intros ->. cbn [negb fst snd store]. eauto.
  - intros -> -> Hfree. cbn [negb]. simpl key. rewrite Htrim, Hfree.
    cbn [fst]. eauto.
Qed.

Lemma createFeature_description_required_witness :
  (∃ e, (FeatureService.createFeature (str "dark-mode") JsUndefined
           (JsBoolean false) sample_world).1
        = Thrown (DatabaseError "Failed to create feature flag" e))
  ∧ store (FeatureService.createFeature (str "dark-mode") JsUndefined
             (JsBoolean false) sample_world).2 = sample_collection.
Proof.
  refine (proj1 (createFeature_description_required sample_world
                   (str "dark-mode") JsUndefined (JsBoolean false) _ _ _) _).
  - vm_compute. reflexivity.
  - reflexivity.
  - reflexivity.
  - reflexivity.
Defined.

End ServiceOverMongo.

(** ** The HTTP layer *)

Section RoutesOverService.
Import Validators FeatureService Api.
Context `{IFeatureRepository R}.
Implicit Types (w : World R) (r : Route) (q : Request).

Lemma routes_undestructured r w :
  request_of r = None →
  createFeatureRoutes r w =
    (failure 500 "Internal Server Error" (js "An unexpected error occurred"), w).
Proof.
  destruct r as [k body|k body|k body|k t i|k]; simpl; try done;
    unfold asyncHandler, updateFeature, addOverride; rewrite bind_lift;
    by destruct body.
Qed.

Lemma routes_thrown r q w e w1 :
  request_of r = Some q → perform q w = (Thrown e, w1) →
  createFeatureRoutes r w = (errorHandler e, w1).
Proof.
  destruct r as [k body|k body|k body|k t i|k]; simpl.
  - unfold asyncHandler, updateFeature. rewrite bind_lift.
    destruct (destructured body) as [b|]; [|done]. intros [= <-]. simpl.
    unfold mbind, M_bind, bind. by intros ->.
  - intros [= <-]. simpl. unfold asyncHandler, evaluateFeature, discard.
    unfold mbind, M_bind, bind.
    destruct (FeatureService.evaluateFeature _ _ w) as [[?|?] ?]; [done|].
    by intros [= <- <-].
  - unfold asyncHandler, addOverride. rewrite bind_lift.
    destruct (destructured body) as [b|]; [|done]. intros [= <-]. simpl.
    unfold mbind, M_bind, bind. by intros ->.
  - intros [= <-]. simpl. unfold asyncHandler, removeOverride.
    unfold mbind, M_bind, bind. by intros ->.
  - intros [= <-]. simpl. unfold asyncHandler, deleteFeature.
    unfold mbind, M_bind, bind. by intros ->.
Qed.

Lemma routes_returned r q w w1 :
  request_of r = Some q → perform q w = (Returned (), w1) →
  status (createFeatureRoutes r w).1 = 200%Z
  ∧ (createFeatureRoutes r w).2 = w1.
Proof.
  destruct r as [k body|k body|k body|k t i|k]; simpl.
  - unfold asyncHandler, updateFeature. rewrite bind_lift.
    destruct (destructured body) as [b|]; [|done]. intros [= <-]. simpl.
    unfold mbind, M_bind, bind. by intros ->.
  - intros [= <-]. simpl. unfold asyncHandler, evaluateFeature, discard.
    unfold mbind, M_bind, bind.
    destruct (FeatureService.evaluateFeature _ _ w) as [[?|?] ?]; [|done].
    by intros [= <-].
  - unfold asyncHandler, addOverride. rewrite bind_lift.
    destruct (destructured body) as [b|]; [|done]. intros [= <-]. simpl.
    unfold mbind, M_bind, bind. by intros ->.
  - intros [= <-]. simpl. unfold asyncHandler, removeOverride.
    unfold mbind, M_bind, bind. by intros ->.
  - intros [= <-]. simpl. unfold asyncHandler, deleteFeature.
    unfold mbind, M_bind, bind. by intros ->.
Qed.


End RoutesOverService.


Section RoutesOverMongo.
Import MongoDB Validators.
Implicit Types (w : World Collection) (r : Api.Route).
Implicit Types (q : FeatureService.Request).

Lemma perform_route_healthy r q w :
  fault (store w) = None →
  Api.request_of r = Some q →
  FeatureService.first_thrown (FeatureService.validations q) = None →
  (FeatureService.perform q w).1 =
    match documents (store w) !! Api.route_key r with
    | Some _ => Returned ()
    | None => Thrown (FeatureNotFoundError (Api.route_key r))
    end.
Proof.
  intros Hok Hq Hvalid. apply first_thrown_None in Hvalid.
  destruct r as [k body|k body|k body|k t i|k]; simpl in Hq.
  - destruct (Api.destructured body) as [b|]; [|done].
    injection Hq as <-. cbn [FeatureService.validations] in Hvalid.
    apply Forall_cons in Hvalid as [Hkey Hvalid].
    apply Forall_cons in Hvalid as [Hen _].
    cbn [FeatureService.perform Api.route_key].
    unfold FeatureService.updateGlobalState.
    rewrite bind_lift, Hkey, bind_lift, Hen.
    unfold FeatureService.repository.
    change (repo_updateGlobalState ?a ?b (store w))
      with (FeatureRepository.updateGlobalState a b (store w)).
    rewrite updateGlobalState_cases, Hok, (valid_key_trim _ Hkey).
    cbn [as_string].
    by destruct (documents (store w) !! k).
  - injection Hq as <-. cbn [FeatureService.validations] in Hvalid.
    apply Forall_cons in Hvalid as [Hkey Hvalid].
    apply Forall_cons in Hvalid as [Hcontext _].
    cbn [FeatureService.perform Api.route_key].
    pose proof (service_evaluateFeature_healthy w (JsStr k) body Hok Hkey
                  Hcontext) as Heval.
    unfold FeatureService.discard, mbind, M_bind, bind.
    destruct (FeatureService.evaluateFeature (JsStr k) body w) as [[?|?] ?];
      cbn [fst as_string] in *;
      destruct (documents (store w) !! k); try done.
    by injection Heval as ->.
  - destruct (Api.destructured body) as [b|]; [|done].
    injection Hq as <-. cbn [FeatureService.validations] in Hvalid.
    apply Forall_cons in Hvalid as [Hkey Hvalid].
    apply Forall_cons in Hvalid as [Htype Hvalid].
    apply Forall_cons in Hvalid as [Hid Hvalid].
    apply Forall_cons in Hvalid as [Hen _].
    destruct (validateOverrideType (get_field b (js "type")))
      as [type|] eqn:Htype'; [|done].
    cbn [FeatureService.perform Api.route_key].
    unfold FeatureService.addOrUpdateOverride.
    rewrite bind_lift, Hkey, bind_lift, Htype', bind_lift, Hid, bind_lift, Hen.
    unfold mbind, M_bind, bind.
    rewrite service_getFeature_healthy by done. cbn [as_string].
    destruct (documents (store w) !! k) as [doc|] eqn:Hdoc; [|done].
    unfold FeatureService.repository. cbn [store trace].
    change (repo_addOrUpdateOverride ?a ?b ?c ?d (store w))
      with (FeatureRepository.addOrUpdateOverride a b c d (store w)).
    pose proof (valid_key_trim _ Hkey) as Htrim. cbn [as_string] in Htrim.
    by rewrite addOrUpdateOverride_cases, Hok, Htrim, Hdoc.
  - injection Hq as <-. cbn [FeatureService.validations] in Hvalid.
    apply Forall_cons in Hvalid as [Hkey Hvalid].
    apply Forall_cons in Hvalid as [Htype Hvalid].
    apply Forall_cons in Hvalid as [Hid _].
    destruct (validateOverrideType (JsStr t)) as [type|] eqn:Htype'; [|done].
    cbn [FeatureService.perform Api.route_key].
    unfold FeatureService.removeOverride.
    rewrite bind_lift, Hkey, bind_lift, Htype', bind_lift, Hid.
    unfold mbind, M_bind, bind.
    rewrite service_getFeature_healthy by done. cbn [as_string].
    destruct (documents (store w) !! k) as [doc|] eqn:Hdoc; [|done].
    unfold FeatureService.repository. cbn [store trace].
    change (repo_removeOverride ?a ?b ?c (store w))
      with (FeatureRepository.removeOverride a b c (store w)).
    pose proof (valid_key_trim _ Hkey) as Htrim. cbn [as_string] in Htrim.
    by rewrite removeOverride_cases, Hok, Htrim, Hdoc.
  - injection Hq as <-. cbn [FeatureService.validations] in Hvalid.
    apply Forall_cons in Hvalid as [Hkey _].
    cbn [FeatureService.perform Api.route_key].
    unfold FeatureService.deleteFeature.
    rewrite bind_lift, Hkey.
    unfold FeatureService.repository.
    change (repo_delete ?a (store w))
      with (FeatureRepository.delete a (store w)).
    rewrite delete_cases, Hok, (valid_key_trim _ Hkey). cbn [as_string].
    by destruct (documents (store w) !! k).
Qed.

Lemma perform_route_faulted r q w e :
  fault (store w) = Some e →
  (∀ k, e ≠ FeatureNotFoundError k) →
  Api.request_of r = Some q →
  FeatureService.first_thrown (FeatureService.validations q) = None →
  ∃ message w1,
    FeatureService.perform q w = (Thrown (DatabaseError message e), w1)
    ∧ store w1 = store w.
Proof.
  intros Hfault He Hq Hvalid. apply first_thrown_None in Hvalid.
  assert (∀ message, rethrown message e = DatabaseError message e) as Hwrap.
  { intros message. destruct e as [k'| | | | |]; try done. by destruct (He k'). }
  assert (∀ key, validateFeatureKey key = Returned () →
            FeatureService.getFeature key w =
              (Thrown (DatabaseError "Failed to find feature flag" e),
               {| store := store w;
                  trace := trace w ++ [call_findByKey (as_string key)] |}))
    as Hget.
  { intros key Hkey. unfold FeatureService.getFeature.
    rewrite bind_lift, Hkey.
    unfold mbind, M_bind, bind, FeatureService.repository.
    change (repo_findByKey ?a (store w))
      with (FeatureRepository.findByKey a (store w)).
    by rewrite findByKey_cases, Hfault. }
  destruct r as [k body|k body|k body|k t i|k]; simpl in Hq.
  - destruct (Api.destructured body) as [b|]; [|done].
    injection Hq as <-. cbn [FeatureService.validations] in Hvalid.
    apply Forall_cons in Hvalid as [Hkey Hvalid].
    apply Forall_cons in Hvalid as [Hen _].
    cbn [FeatureService.perform].
    unfold FeatureService.updateGlobalState.
    rewrite bind_lift, Hkey, bind_lift, Hen.
    unfold FeatureService.repository.
    change (repo_updateGlobalState ?a ?b (store w))
      with (FeatureRepository.updateGlobalState a b (store w)).
    rewrite updateGlobalState_cases, Hfault, Hwrap. by eexists _, _.
  - injection Hq as <-. cbn [FeatureService.validations] in Hvalid.
    apply Forall_cons in Hvalid as [Hkey Hvalid].
    apply Forall_cons in Hvalid as [Hcontext _].
    cbn [FeatureService.perform].
    unfold FeatureService.discard, FeatureService.evaluateFeature.
    unfold mbind at 1, M_bind at 1, bind at 1.
    rewrite bind_lift, Hkey, bind_lift, Hcontext.
    unfold mbind, M_bind, bind. rewrite Hget by done. by eexists _, _.
  - destruct (Api.destructured body) as [b|]; [|done].
    injection Hq as <-. cbn [FeatureService.validations] in Hvalid.
    apply Forall_cons in Hvalid as [Hkey Hvalid].
    apply Forall_cons in Hvalid as [Htype Hvalid].
    apply Forall_cons in Hvalid as [Hid Hvalid].
    apply Forall_cons in Hvalid as [Hen _].
    destruct (validateOverrideType (get_field b (js "type")))
      as [type|] eqn:Htype'; [|done].
    cbn [FeatureService.perform].
    unfold FeatureService.addOrUpdateOverride.
    rewrite bind_lift, Hkey, bind_lift, Htype', bind_lift, Hid, bind_lift, Hen.
    unfold mbind, M_bind, bind. rewrite Hget by done. by eexists _, _.
  - injection Hq as <-. cbn [FeatureService.validations] in Hvalid.
    apply Forall_cons in Hvalid as [Hkey Hvalid].
    apply Forall_cons in Hvalid as [Htype Hvalid].
    apply Forall_cons in Hvalid as [Hid _].
    destruct (validateOverrideType (JsStr t)) as [type|] eqn:Htype'; [|done].
    cbn [FeatureService.perform].
    unfold FeatureService.removeOverride.
    rewrite bind_lift, Hkey, bind_lift, Htype', bind_lift, Hid.
    unfold mbind, M_bind, bind. rewrite Hget by done. by eexists _, _.
  - injection Hq as <-. cbn [FeatureService.validations] in Hvalid.
    apply Forall_cons in Hvalid as [Hkey _].
    cbn [FeatureService.perform].
    unfold FeatureService.deleteFeature.
    rewrite bind_lift, Hkey.
    unfold FeatureService.repository.
    change (repo_delete ?a (store w))
      with (FeatureRepository.delete a (store w)).
    rewrite delete_cases, Hfault, Hwrap. by eexists _, _.
Qed.



(** X27. A failure of the store is answered 500 with the fixed message.
    When the driver rejects every query and the request is valid, the
    response is 500 with the message [A database error occurred], the same
    whatever error the driver raised, and the collection is as before. *)
Theorem store_failure_is_500 r q w e :
  fault (store w) = Some e →
  (∀ k, e ≠ FeatureNotFoundError k) →
  Api.request_of r = Some q →
  FeatureService.first_thrown (FeatureService.validations q) = None →
  (Api.createFeatureRoutes r w).1 =
    Api.failure 500 "Internal Server Error" (js "A database error occurred")
  ∧ store (Api.createFeatureRoutes r w).2 = store w.
Proof.
  intros Hfault He Hq Hvalid.
  destruct (perform_route_faulted r q w e Hfault He Hq Hvalid)
    as (message & w1 & Hperform & Hstore).
  by rewrite (routes_thrown r q w _ w1 Hq Hperform).
Qed.

Lemma store_failure_is_500_witness :
  (Api.createFeatureRoutes (Api.POST_evaluate (js "premium") (user_context "u1"))
     {| store := {| documents := ∅;
                    fault := Some (LibraryError "connection lost" None);
                    clock := sample_clock; writes := 0 |};
        trace := [] |}).1
  = Api.failure 500 "Internal Server Error" (js "A database error occurred").
Proof.
  refine (proj1 (store_failure_is_500
                   (Api.POST_evaluate (js "premium") (user_context "u1"))
                   _ _ (LibraryError "connection lost" None) _ _ _ _)).
  - reflexivity.
  - discriminate.
  - reflexivity.
  - vm_compute. reflexivity.
Defined.

End RoutesOverMongo.
